(** * PINN_torch.py: a physics-informed network in PyTorch

    A shallow embedding of [src/PINN_torch.py].  Floating-point numbers are
    idealised as real numbers.  A torch tensor is a shaped table of nodes of
    the autograd graph; the values of the leaf tensors (the network
    parameters and the coordinate inputs) live in a store, and the value of
    any other tensor is obtained by evaluating its nodes in that store. *)

From Stdlib Require Import Reals Lra Lia List String Bool Arith.
Import ListNotations.
Open Scope R_scope.

(** ** Python exceptions and results *)

Inductive exn : Type :=
| KeyError (key : string)
| IndexError
| NameError (name : string)
| UnboundLocalError (name : string)
| TypeError
| ZeroDivisionError
| ValueError (msg : string)
| RuntimeError (msg : string).

Inductive result (A : Type) : Type :=
| Ok (a : A)
| Raise (e : exn).

Arguments Ok {A} a.
Arguments Raise {A} e.

Definition rbind {A B} (m : result A) (k : A -> result B) : result B :=
  match m with
  | Ok a => k a
  | Raise e => Raise e
  end.

Declare Scope result_scope.
Delimit Scope result_scope with result.
Notation "x <- m ;; k" := (rbind m (fun x => k))
  (at level 61, m at next level, right associativity) : result_scope.
Notation "' p <- m ;; k" := (rbind m (fun p => k))
  (at level 61, p pattern, m at next level, right associativity) : result_scope.

Definition is_ok {A} (r : result A) : bool :=
  match r with Ok _ => true | Raise _ => false end.

(** ** The autograd graph

    Leaf tensors are the tensors created with [requires_grad=True]: the
    weights and biases built by [initialize_NN], and the coordinate columns
    built by [data_loader]. *)

Inductive leaf : Type :=
| LWeight (l : nat)
| LBias (l : nat)
| LInput (n : nat).

Definition leaf_eqb (a b : leaf) : bool :=
  match a, b with
  | LWeight l, LWeight l' => Nat.eqb l l'
  | LBias l, LBias l' => Nat.eqb l l'
  | LInput n, LInput n' => Nat.eqb n n'
  | _, _ => false
  end.

(** One scalar slot of a leaf tensor. *)
Definition var : Type := (leaf * nat * nat)%type.

Definition var_eqb (v w : var) : bool :=
  let '(t, i, j) := v in
  let '(t', i', j') := w in
  leaf_eqb t t' && Nat.eqb i i' && Nat.eqb j j'.

Arguments var_eqb : simpl never.

(** Scalar nodes of the graph. *)
Inductive expr : Type :=
| Const (c : R)
| Var (t : leaf) (i j : nat)
| Add (a b : expr)
| Mul (a b : expr)
| Tanh (a : expr).

Definition store : Type := leaf -> nat -> nat -> R.

Fixpoint eval (s : store) (e : expr) : R :=
  match e with
  | Const c => c
  | Var t i j => s t i j
  | Add a b => eval s a + eval s b
  | Mul a b => eval s a * eval s b
  | Tanh a => tanh (eval s a)
  end.

Definition upd (s : store) (v : var) (a : R) : store :=
  fun t i j => if var_eqb (t, i, j) v then a else s t i j.

Definition at_var (s : store) (v : var) : R :=
  let '(t, i, j) := v in s t i j.

Fixpoint occurs (v : var) (e : expr) : bool :=
  match e with
  | Const _ => false
  | Var t i j => var_eqb (t, i, j) v
  | Add a b | Mul a b => occurs v a || occurs v b
  | Tanh a => occurs v a
  end.

Fixpoint has_var (e : expr) : bool :=
  match e with
  | Const _ => false
  | Var _ _ _ => true
  | Add a b | Mul a b => has_var a || has_var b
  | Tanh a => has_var a
  end.

(** Reverse-mode differentiation, as the autograd engine runs it: the
    incoming gradient [adj] is pushed from the output towards the leaves, each
    node applying its own backward formula (multiplication: [grad * other];
    tanh: [grad * (1 - result^2)]), and the contributions that reach the same
    leaf slot are added.  [None] means that the slot was never reached. *)

Definition accumulate (a b : option expr) : option expr :=
  match a, b with
  | Some x, Some y => Some (Add x y)
  | Some x, None => Some x
  | None, b => b
  end.

Definition tanh_backward (adj result : expr) : expr :=
  Mul adj (Add (Const 1) (Mul (Const (-1)) (Mul result result))).

Fixpoint backprop (e adj : expr) (v : var) : option expr :=
  match e with
  | Const _ => None
  | Var t i j => if var_eqb (t, i, j) v then Some adj else None
  | Add a b => accumulate (backprop a adj v) (backprop b adj v)
  | Mul a b => accumulate (backprop a (Mul adj b) v) (backprop b (Mul adj a) v)
  | Tanh a => backprop a (tanh_backward adj (Tanh a)) v
  end.

Definition grad_or_zero (g : option expr) : expr :=
  match g with
  | Some e => e
  | None => Const 0
  end.

(** The partial derivative of a node with respect to a leaf slot, by the
    textbook rules; the yardstick for [backprop]. *)
Fixpoint deriv (s : store) (e : expr) (v : var) : R :=
  match e with
  | Const _ => 0
  | Var t i j => if var_eqb (t, i, j) v then 1 else 0
  | Add a b => deriv s a v + deriv s b v
  | Mul a b => deriv s a v * eval s b + eval s a * deriv s b v
  | Tanh a => (1 - tanh (eval s a) * tanh (eval s a)) * deriv s a v
  end.

(** ** Tensors

    Every tensor of the program is two-dimensional; the result of [.sum()]
    or [torch.mean] is a [scalar].  [leaf_of] names the leaf a tensor is
    (if it is one): these are the only tensors the program differentiates
    against. *)

Record tensor : Type := mkTensor {
  rows : nat;
  cols : nat;
  entry : nat -> nat -> expr;
  requires_grad : bool;
  leaf_of : option leaf
}.

Record scalar : Type := mkScalar {
  sval : expr;
  s_requires_grad : bool
}.

(** Plain numbers without a graph: numpy arrays, detached tensors and the
    contents of a [.grad] slot. *)
Record table : Type := mkTable {
  trows : nat;
  tcols : nat;
  tdata : nat -> nat -> R
}.

Definition leaf_tensor (t : leaf) (r c : nat) : tensor :=
  {| rows := r; cols := c; entry := Var t; requires_grad := true;
     leaf_of := Some t |}.

Definition const_tensor (d : table) : tensor :=
  {| rows := trows d; cols := tcols d; entry := fun i j => Const (tdata d i j);
     requires_grad := false; leaf_of := None |}.

Definition shape (x : tensor) : nat * nat := (rows x, cols x).

Definition indices (r c : nat) : list (nat * nat) :=
  flat_map (fun i => map (fun j => (i, j)) (seq 0 c)) (seq 0 r).

Definition esum (l : list expr) : expr := fold_right Add (Const 0) l.

Definition entries (x : tensor) : list expr :=
  map (fun ij => entry x (fst ij) (snd ij)) (indices (rows x) (cols x)).

(** *** The torch operations the program calls *)

(** [torch.cat((x, y), 1)] *)
Definition cat1 (x y : tensor) : result tensor :=
  if rows x =? rows y
  then Ok {| rows := rows x;
             cols := cols x + cols y;
             entry := fun i j =>
               if j <? cols x then entry x i j else entry y i (j - cols x);
             requires_grad := requires_grad x || requires_grad y;
             leaf_of := None |}
  else Raise (RuntimeError "Sizes of tensors must match except in dimension 1").

(** [torch.matmul(a, b)] on matrices *)
Definition matmul (a b : tensor) : result tensor :=
  if cols a =? rows b
  then Ok {| rows := rows a;
             cols := cols b;
             entry := fun i j =>
               esum (map (fun k => Mul (entry a i k) (entry b k j)) (seq 0 (cols a)));
             requires_grad := requires_grad a || requires_grad b;
             leaf_of := None |}
  else Raise (RuntimeError "mat1 and mat2 shapes cannot be multiplied").

(** Broadcasting of one dimension: equal sizes, or one of them is 1. *)
Definition broadcast_dim (a b : nat) : option nat :=
  if a =? b then Some a
  else if a =? 1 then Some b
  else if b =? 1 then Some a
  else None.

Definition bidx (n i : nat) : nat := if n =? 1 then 0%nat else i.

Definition pointwise (f : expr -> expr -> expr) (a b : tensor) : result tensor :=
  match broadcast_dim (rows a) (rows b), broadcast_dim (cols a) (cols b) with
  | Some r, Some c =>
      Ok {| rows := r;
            cols := c;
            entry := fun i j =>
              f (entry a (bidx (rows a) i) (bidx (cols a) j))
                (entry b (bidx (rows b) i) (bidx (cols b) j));
            requires_grad := requires_grad a || requires_grad b;
            leaf_of := None |}
  | _, _ =>
      Raise (RuntimeError "The size of tensor a must match the size of tensor b")
  end.

(** [torch.add(a, b)] and [a + b] *)
Definition add : tensor -> tensor -> result tensor := pointwise Add.

(** [a - b] *)
Definition sub : tensor -> tensor -> result tensor :=
  pointwise (fun p q => Add p (Mul (Const (-1)) q)).

Definition map_tensor (f : expr -> expr) (a : tensor) : tensor :=
  {| rows := rows a; cols := cols a; entry := fun i j => f (entry a i j);
     requires_grad := requires_grad a; leaf_of := None |}.

(** [torch.tanh(a)] *)
Definition tanh_ : tensor -> tensor := map_tensor Tanh.

(** [a.pow(2)] *)
Definition pow2 : tensor -> tensor := map_tensor (fun e => Mul e e).

(** [a.sum()] *)
Definition tsum (a : tensor) : scalar :=
  {| sval := esum (entries a); s_requires_grad := requires_grad a |}.

(** [torch.mean(a)] *)
Definition mean (a : tensor) : scalar :=
  {| sval := Mul (Const (/ INR (rows a * cols a))) (esum (entries a));
     s_requires_grad := requires_grad a |}.

(** [a.requires_grad_(True)]: nothing to do on a tensor that carries a graph;
    a tensor without one only has its flag set. *)
Definition requires_grad_ (a : tensor) : tensor :=
  {| rows := rows a; cols := cols a; entry := entry a; requires_grad := true;
     leaf_of := leaf_of a |}.

(** *** [torch.autograd.grad]

    [grad(s, x)] accepts a scalar [s] that carries a graph and a leaf [x]
    that this graph reaches, and fails otherwise, as the engine does with
    its default [allow_unused=False].  The graph is kept entry by entry, so
    a leaf is reached when one of its entries is; an entry of a reached
    leaf that the scalar does not depend on gets the gradient zero.
    Differentiation against an intermediate tensor is not part of the
    embedding (the program never does it) and is reported as a failure. *)

Definition slots (t : leaf) (r c : nat) : list var :=
  map (fun ij => (t, fst ij, snd ij)) (indices r c).

Definition used (t : leaf) (r c : nat) (e : expr) : bool :=
  existsb (fun v => occurs v e) (slots t r c).

Definition grad_entries (s : scalar) (x : tensor) : result (nat -> nat -> expr) :=
  if negb (s_requires_grad s)
  then Raise (RuntimeError "element 0 of tensors does not require grad and does not have a grad_fn")
  else
    match leaf_of x with
    | None => Raise (RuntimeError "differentiation against an intermediate tensor")
    | Some t =>
        if negb (requires_grad x)
        then Raise (RuntimeError "One of the differentiated Tensors does not require grad")
        else if negb (used t (rows x) (cols x) (sval s))
        then Raise (RuntimeError "One of the differentiated Tensors appears to not have been used in the graph")
        else Ok (fun i j => grad_or_zero (backprop (sval s) (Const 1) (t, i, j)))
    end.

(** [grad(s, x, create_graph=True)[0]]: the gradient keeps its graph. *)
Definition grad (s : scalar) (x : tensor) : result tensor :=
  (g <- grad_entries s x ;;
   Ok {| rows := rows x; cols := cols x; entry := g;
         requires_grad :=
           existsb (fun ij => has_var (g (fst ij) (snd ij)))
                   (indices (rows x) (cols x));
         leaf_of := None |})%result.

(** [grad(s, params, retain_graph=True)]: one plain gradient per parameter,
    or a failure if any parameter is rejected. *)
Fixpoint grad_all (st : store) (s : scalar) (params : list tensor)
  : result (list table) :=
  match params with
  | [] => Ok []
  | p :: ps =>
      (g <- grad_entries s p ;;
       gs <- grad_all st s ps ;;
       Ok ({| trows := rows p; tcols := cols p;
              tdata := fun i j => eval st (g i j) |} :: gs))%result
  end.

(** *** Python lists and loops *)

(** [l[i]] for a non-negative [i] *)
Definition index {A} (l : list A) (i : nat) : result A :=
  match nth_error l i with
  | Some a => Ok a
  | None => Raise IndexError
  end.

(** [l[-1]] *)
Definition index_last {A} (l : list A) : result A :=
  match rev l with
  | a :: _ => Ok a
  | [] => Raise IndexError
  end.

(** [for a in l: s = body(a, s)], stopping at the first exception *)
Fixpoint for_each {A S} (l : list A) (body : A -> S -> result S) (s : S)
  : result S :=
  match l with
  | [] => Ok s
  | a :: l' => (s' <- body a s ;; for_each l' body s')%result
  end.

(** *** Python dictionaries

    Keys are iterated in insertion order; the order fixes which exception is
    met first and in which order the loss terms are added. *)

Definition dict (V : Type) : Type := list (string * V).

Fixpoint dget {V} (d : dict V) (k : string) : option V :=
  match d with
  | [] => None
  | (k', v) :: d' => if String.eqb k' k then Some v else dget d' k
  end.

(** [d[k]] *)
Definition getitem {V} (d : dict V) (k : string) : result V :=
  match dget d k with
  | Some v => Ok v
  | None => Raise (KeyError k)
  end.

(** [d[k] = v] *)
Fixpoint setitem {V} (d : dict V) (k : string) (v : V) : dict V :=
  match d with
  | [] => [(k, v)]
  | (k', v') :: d' =>
      if String.eqb k' k then (k, v) :: d' else (k', v') :: setitem d' k v
  end.

(** [d.keys()] *)
Definition dkeys {V} (d : dict V) : list string := map fst d.

(** ** The model object and the heap *)

(** The attributes of [self].  [loss_list] holds the values of the loss
    tensors appended by [callback]. *)
Record PhysicsInformedNN : Type := mkPINN {
  layers : list nat;
  weights : list tensor;
  biases : list tensor;
  loss : option scalar;
  loss_list : list R;
  pred_dict : option (dict (option tensor))
}.

(** What the methods read and write besides their arguments: [self], the
    data of the leaf tensors, their [.grad] slots, and the printed lines. *)
Record machine : Type := mkMachine {
  self : PhysicsInformedNN;
  data : store;
  grad_slot : leaf -> option table;
  stdout : list (nat * R)
}.

Definition set_self (m : machine) (p : PhysicsInformedNN) : machine :=
  {| self := p; data := data m; grad_slot := grad_slot m; stdout := stdout m |}.

Definition set_data (m : machine) (d : store) : machine :=
  {| self := self m; data := d; grad_slot := grad_slot m; stdout := stdout m |}.

Definition set_grad_slot (m : machine) (g : leaf -> option table) : machine :=
  {| self := self m; data := data m; grad_slot := g; stdout := stdout m |}.

Definition print (m : machine) (line : nat * R) : machine :=
  {| self := self m; data := data m; grad_slot := grad_slot m;
     stdout := stdout m ++ [line] |}.

Definition write_leaf (s : store) (t : leaf) (d : nat -> nat -> R) : store :=
  fun t' => if leaf_eqb t' t then d else s t'.

Definition write_slot (g : leaf -> option table) (t : leaf) (d : option table)
  : leaf -> option table :=
  fun t' => if leaf_eqb t' t then d else g t'.

(** ** Parameter store: [initialize_NN] and [xavier_init] *)

Section Initialisation.

(** The random source behind [nn.init.xavier_normal_]: a generator state
    and a sampler that fills an [r] by [c] table with draws of the given
    standard deviation. *)
Variable rng : Type.
Variable normal_ : rng -> nat -> nat -> R -> (nat -> nat -> R) * rng.

(** [xavier_normal_] computes [std = sqrt(2 / (fan_in + fan_out))] from the
    two sizes before sampling, and so divides by zero on a 0 by 0 tensor. *)
Definition xavier_init (name : leaf) (size : nat * nat) (st : store * rng)
  : result (tensor * (store * rng)) :=
  let fan_in := snd size in
  let fan_out := fst size in
  if (fan_in + fan_out =? 0)%nat then Raise ZeroDivisionError
  else
    let '(d, g) := normal_ (snd st) (fst size) (snd size)
                           (sqrt (2 / INR (fan_in + fan_out))) in
    Ok (leaf_tensor name (fst size) (snd size), (write_leaf (fst st) name d, g)).

(** [Variable(torch.zeros([r, c]), requires_grad=True)] *)
Definition zeros_variable (name : leaf) (r c : nat) (s : store) : tensor * store :=
  (leaf_tensor name r c, write_leaf s name (fun _ _ => 0)).

(** One round of the loop of [initialize_NN]. *)
Definition init_body (layers : list nat) (l : nat)
  (acc : list tensor * list tensor * (store * rng))
  : result (list tensor * list tensor * (store * rng)) :=
  let '(weights, biases, st) := acc in
  (' (W, st1) <- xavier_init (LWeight l)
                   (nth l layers 0%nat, nth (l + 1) layers 0%nat) st ;;
   let '(b, s2) := zeros_variable (LBias l) 1 (nth (l + 1) layers 0%nat) (fst st1) in
   Ok (weights ++ [W], biases ++ [b], (s2, snd st1)))%result.

Definition initialize_NN (layers : list nat) (st : store * rng)
  : result (list tensor * list tensor * (store * rng)) :=
  let num_layers := List.length layers in
  for_each (seq 0 (num_layers - 1)) (init_body layers) ([], [], st).

End Initialisation.

Arguments xavier_init {rng} normal_ name size st.
Arguments init_body {rng} normal_ layers l acc.
Arguments initialize_NN {rng} normal_ layers st.

(** ** Forward evaluator *)

(** One layer transition followed by the nonlinearity. *)
Definition hidden_layer (W b H : tensor) : result tensor :=
  (HW <- matmul H W ;;
   Z <- add HW b ;;
   Ok (tanh_ Z))%result.

(** One round of the loop of [neural_net]. *)
Definition hidden_body (weights biases : list tensor) (l : nat) (H : tensor)
  : result tensor :=
  (W <- index weights l ;;
   b <- index biases l ;;
   hidden_layer W b H)%result.

Definition neural_net (x y : tensor) (weights biases : list tensor) : result tensor :=
  let num_layers := (List.length weights + 1)%nat in
  (H0 <- cat1 x y ;;
   H <- for_each (seq 0 (num_layers - 2)) (hidden_body weights biases) H0 ;;
   W <- index_last weights ;;
   b <- index_last biases ;;
   HW <- matmul H W ;;
   add HW b)%result.

Definition net_u (self : PhysicsInformedNN) (x y : tensor) : result tensor :=
  neural_net x y (weights self) (biases self).

Definition net_du (self : PhysicsInformedNN) (x y : tensor)
  : result (tensor * tensor) :=
  (u <- neural_net x y (weights self) (biases self) ;;
   u_x <- grad (tsum u) x ;;
   u_y <- grad (tsum u) y ;;
   Ok (requires_grad_ u_x, requires_grad_ u_y))%result.

Definition net_f (self : PhysicsInformedNN) (x y : tensor) : result tensor :=
  (' (u_x, u_y) <- net_du self x y ;;
   u_yy <- grad (tsum u_y) y ;;
   u_xx <- grad (tsum u_x) x ;;
   f <- add u_yy u_xx ;;
   Ok (requires_grad_ f))%result.

(** ** Prediction router *)

(** [preds[i] = v] on the local variable [preds], which is bound only when
    [keys] was given. *)
Definition assign_pred (preds : option (dict (option tensor))) (i : string)
  (v : option tensor) : result (option (dict (option tensor))) :=
  match preds with
  | None => Raise (UnboundLocalError "preds")
  | Some p => Ok (Some (setitem p i v))
  end.

(** [d = dict()] followed by [for i in keys: d[i] = v], continued from [d] *)
Definition fill {V} (v : V) (keys : list string) (d : dict V) : dict V :=
  fold_left (fun d i => setitem d i v) keys d.

Definition blank : list string -> dict (option tensor) -> dict (option tensor) :=
  fill None.

(** One round of the loop of [forward]. *)
Definition forward_body (self : PhysicsInformedNN) (x_tensors y_tensors : dict tensor)
  (i : string) (preds : option (dict (option tensor)))
  : result (option (dict (option tensor))) :=
  (if String.eqb i "nuem" then
     x <- getitem x_tensors i ;;
     y <- getitem y_tensors i ;;
     ' (dudx_pred, _) <- net_du self x y ;;
     assign_pred preds i (Some dudx_pred)
   else if String.eqb i "f" then
     x <- getitem x_tensors i ;;
     y <- getitem y_tensors i ;;
     f_pred <- net_f self x y ;;
     assign_pred preds i (Some f_pred)
   else if String.eqb i "u" then
     x <- getitem x_tensors i ;;
     y <- getitem y_tensors i ;;
     u_pred <- net_u self x y ;;
     assign_pred preds i (Some u_pred)
   else if String.eqb i "diri" then
     x <- getitem x_tensors i ;;
     y <- getitem y_tensors i ;;
     diri_pred <- net_u self x y ;;
     assign_pred preds i (Some diri_pred)
   else Ok preds)%result.

Definition forward (self : PhysicsInformedNN) (x_tensors y_tensors : dict tensor)
  (keys : option (list string)) : result (dict (option tensor)) :=
  let '(keys, preds) :=
    match keys with
    | None => (dkeys x_tensors, None)
    | Some keys => (keys, Some (blank keys []))
    end in
  (preds <- for_each keys (forward_body self x_tensors y_tensors) preds ;;
   match preds with
   | None => Raise (UnboundLocalError "preds")
   | Some p => Ok p
   end)%result.

(** ** Loss assembler *)

(** [loss += w * m] on scalars *)
Definition iadd_scaled (loss : scalar) (w : R) (m : scalar) : scalar :=
  {| sval := Add (sval loss) (Mul (Const w) (sval m));
     s_requires_grad := s_requires_grad loss || s_requires_grad m |}.

(** One round of the loop of [loss_func]. *)
Definition loss_body (pred_dict : dict (option tensor)) (true_dict : dict tensor)
  (weights : dict R) (i : string) (loss : scalar) : result scalar :=
  (p <- getitem pred_dict i ;;
   t <- getitem true_dict i ;;
   res <- match p with
          | Some p => sub p t
          | None => Raise TypeError
          end ;;
   w <- getitem weights i ;;
   Ok (iadd_scaled loss w (mean (pow2 res))))%result.

Definition loss_func (pred_dict : dict (option tensor)) (true_dict : dict tensor)
  (weights : option (dict R)) : result scalar :=
  let loss := {| sval := Const 0; s_requires_grad := false |} in
  let keys := dkeys pred_dict in
  let weights :=
    match weights with
    | None => fill 1 keys []
    | Some w => w
    end in
  (loss <- for_each keys (loss_body pred_dict true_dict weights) loss ;;
   Ok {| sval := sval loss; s_requires_grad := true |})%result.

(** ** Gradients onto the parameters *)

(** [params[vid].grad = grads[vid]] *)
Definition attach (params : list tensor) (grads : list table)
  (g : leaf -> option table) (vid : nat) : leaf -> option table :=
  match nth_error params vid, nth_error grads vid with
  | Some p, Some d =>
      match leaf_of p with
      | Some t => write_slot g t (Some d)
      | None => g
      end
  | _, _ => g
  end.

Definition customized_backward (loss : scalar) (params : list tensor) (m : machine)
  : machine * result (list table) :=
  match grad_all (data m) loss params with
  | Raise e => (m, Raise e)
  | Ok grads =>
      (set_grad_slot m
         (fold_left (attach params grads) (seq 0 (List.length params)) (grad_slot m)),
       Ok grads)
  end.

(** ** History *)

Definition set_loss_list (s : PhysicsInformedNN) (l : list R) : PhysicsInformedNN :=
  {| layers := layers s; weights := weights s; biases := biases s;
     loss := loss s; loss_list := l; pred_dict := pred_dict s |}.

(** [self.loss_list.append(loss)] *)
Definition callback (loss : scalar) (m : machine) : machine :=
  set_self m
    (set_loss_list (self m) (loss_list (self m) ++ [eval (data m) (sval loss)])).

(** ** Methods as state transformers that may raise

    A Python exception leaves every mutation made before it in place, so a
    method returns the machine it reached together with its outcome. *)

Definition M (A : Type) : Type := machine -> machine * result A.

Definition mret {A} (a : A) : M A := fun m => (m, Ok a).

Definition mbind {A B} (c : M A) (k : A -> M B) : M B :=
  fun m =>
    match c m with
    | (m', Ok a) => k a m'
    | (m', Raise e) => (m', Raise e)
    end.

Definition lift {A} (r : result A) : M A := fun m => (m, r).

Definition gets {A} (f : machine -> A) : M A := fun m => (m, Ok (f m)).

Definition modify (f : machine -> machine) : M unit := fun m => (f m, Ok tt).

Declare Scope machine_scope.
Delimit Scope machine_scope with M.
Notation "x <- c ;; k" := (mbind c (fun x => k))
  (at level 61, c at next level, right associativity) : machine_scope.
Notation "c ;; k" := (mbind c (fun _ => k))
  (at level 61, right associativity) : machine_scope.

(** ** Optimizer driver *)

(** A point-set: [(x, y, target)] as built by [data_loader]. *)
Definition point_set : Type := (tensor * tensor * tensor)%type.

Definition unzip_train_dict (train_dict : dict point_set) (keys : option (list string))
  : result (dict tensor * dict tensor * dict tensor) :=
  let keys := match keys with None => dkeys train_dict | Some keys => keys end in
  for_each keys
    (fun i '(x_tensors, y_tensors, true_dict) =>
       (p0 <- getitem train_dict i ;;
        p1 <- getitem train_dict i ;;
        p2 <- getitem train_dict i ;;
        Ok (setitem x_tensors i (fst (fst p0)),
            setitem y_tensors i (snd (fst p1)),
            setitem true_dict i (snd p2)))%result)
    ([], [], []).

(** The optimizer object handed to the training methods.  Its update rule
    and, for the quasi-Newton optimizer, its stopping policy belong to the
    torch library and are left open; [func_evals] and [n_steps] are the
    counters the library keeps of closure evaluations and of updates. *)
Section Optimizers.

Variable St : Type.

Inductive decision : Type :=
| Stop (params : store)
| Again (st : St) (params : store).

Record Optimizer : Type := mkOptimizer {
  opt_params : list tensor;
  set_to_none : bool;
  update : St -> store -> (leaf -> option table) -> St * store;
  next : St -> store -> (leaf -> option table) -> R -> decision;
  max_eval : nat;
  opt_state : St;
  func_evals : nat;
  n_steps : nat
}.

Definition set_opt (o : Optimizer) (st : St) (evals steps : nat) : Optimizer :=
  {| opt_params := opt_params o; set_to_none := set_to_none o;
     update := update o; next := next o; max_eval := max_eval o;
     opt_state := st; func_evals := evals; n_steps := steps |}.

(** [optimizer.zero_grad()]: the [.grad] of each of the optimizer's
    parameters is reset (to [None], or to zeros in place), and nothing else
    is touched. *)
Definition zero_grad (o : Optimizer) (g : leaf -> option table)
  : leaf -> option table :=
  fold_left
    (fun g p =>
       match leaf_of p with
       | Some t =>
           match g t with
           | Some d =>
               write_slot g t
                 (if set_to_none o then None
                  else Some {| trows := trows d; tcols := tcols d;
                               tdata := fun _ _ => 0 |})
           | None => g
           end
       | None => g
       end)
    (opt_params o) g.

(** [optimizer.step()]: one update of the parameters from their [.grad]. *)
Definition step (o : Optimizer) (m : machine) : machine * Optimizer :=
  let '(st, params) := update o (opt_state o) (data m) (grad_slot m) in
  (set_data m params, set_opt o st (func_evals o) (S (n_steps o))).

(** [optimizer.step(closure)] of the quasi-Newton optimizer: the closure is
    evaluated once; then, as long as the policy asks for it and the
    evaluation budget lasts, the parameters are moved and the closure is
    evaluated again. *)
Fixpoint lbfgs_iterate (budget : nat) (closure : M scalar) (o : Optimizer)
  (l : R) (m : machine) : machine * Optimizer * result unit :=
  match budget with
  | O => (m, o, Ok tt)
  | S budget' =>
      match next o (opt_state o) (data m) (grad_slot m) l with
      | Stop params => (set_data m params, o, Ok tt)
      | Again st params =>
          let o1 := set_opt o st (func_evals o) (n_steps o) in
          match closure (set_data m params) with
          | (m2, Ok loss) =>
              lbfgs_iterate budget' closure
                (set_opt o1 st (S (func_evals o1)) (n_steps o1))
                (eval (data m2) (sval loss)) m2
          | (m2, Raise e) => (m2, o1, Raise e)
          end
      end
  end.

Definition step_closure (o : Optimizer) (closure : M scalar) (m : machine)
  : machine * Optimizer * result unit :=
  match closure m with
  | (m1, Ok loss) =>
      lbfgs_iterate (max_eval o) closure
        (set_opt o (opt_state o) (S (func_evals o)) (n_steps o))
        (eval (data m1) (sval loss)) m1
  | (m1, Raise e) => (m1, o, Raise e)
  end.

Definition loss_callable : Type :=
  dict (option tensor) -> dict tensor -> result scalar.

Definition set_resting (s : PhysicsInformedNN)
  (pd : option (dict (option tensor))) (l : option scalar) : PhysicsInformedNN :=
  {| layers := layers s; weights := weights s; biases := biases s;
     loss := l; loss_list := loss_list s; pred_dict := pd |}.

Definition roles : list string := ["diri"%string; "nuem"%string; "f"%string].

(** The body shared by the closure of [train_LBFGS] and by one iteration
    of [train], up to and including [customized_backward]. *)
Definition evaluate_loss (optimizer : Optimizer)
  (x_tensors y_tensors true_dict : dict tensor) (loss_func : loss_callable)
  : M scalar :=
  (modify (fun m => set_grad_slot m (zero_grad optimizer (grad_slot m))) ;;
   s <- gets self ;;
   pred_dict <- lift (forward s x_tensors y_tensors (Some roles)) ;;
   loss <- lift (loss_func pred_dict true_dict) ;;
   modify (callback loss) ;;
   modify (fun m =>
             let n := List.length (loss_list (self m)) in
             if (n mod 100 =? 0)%nat
             then print m (n, last (loss_list (self m)) 0)
             else m) ;;
   s <- gets self ;;
   g <- customized_backward loss (weights s ++ biases s) ;;
   mret loss)%M.

(** The two statements that close both training methods. *)
Definition rest (x_tensors y_tensors true_dict : dict tensor)
  (loss_func : loss_callable) : M unit :=
  (s <- gets self ;;
   pd <- lift (forward s x_tensors y_tensors (Some roles)) ;;
   modify (fun m => set_self m (set_resting (self m) (Some pd) (loss (self m)))) ;;
   l <- lift (loss_func pd true_dict) ;;
   modify (fun m => set_self m (set_resting (self m) (pred_dict (self m)) (Some l))))%M.

Definition train_LBFGS (train_dict : dict point_set) (loss_func : loss_callable)
  (optimizer : Optimizer) (m : machine) : machine * Optimizer * result unit :=
  match unzip_train_dict train_dict None with
  | Raise e => (m, optimizer, Raise e)
  | Ok (x_tensors, y_tensors, true_dict) =>
      let closure :=
        evaluate_loss optimizer x_tensors y_tensors true_dict loss_func in
      match step_closure optimizer closure m with
      | (m1, o1, Ok _) =>
          let '(m2, r) := rest x_tensors y_tensors true_dict loss_func m1 in
          (m2, o1, r)
      | (m1, o1, Raise e) => (m1, o1, Raise e)
      end
  end.

Fixpoint train_loop (n : nat) (x_tensors y_tensors true_dict : dict tensor)
  (loss_func : loss_callable) (optimizer : Optimizer) (m : machine)
  : machine * Optimizer * result unit :=
  match n with
  | O => (m, optimizer, Ok tt)
  | S n' =>
      match evaluate_loss optimizer x_tensors y_tensors true_dict loss_func m with
      | (m1, Ok _) =>
          let '(m2, o2) := step optimizer m1 in
          train_loop n' x_tensors y_tensors true_dict loss_func o2 m2
      | (m1, Raise e) => (m1, optimizer, Raise e)
      end
  end.

(** [train] reads [train_dict], which is none of its parameters: the name
    is looked up in the module's globals, given here as [global_train_dict]
    ([None] when the module defines no such name). *)
Definition train (global_train_dict : option (dict point_set))
  (epoch : nat) (u_data f_data bc_data : point_set) (loss_func : loss_callable)
  (optimizer : Optimizer) (m : machine) : machine * Optimizer * result unit :=
  match global_train_dict with
  | None => (m, optimizer, Raise (NameError "train_dict"))
  | Some train_dict =>
      match unzip_train_dict train_dict None with
      | Raise e => (m, optimizer, Raise e)
      | Ok (x_tensors, y_tensors, true_dict) =>
          match train_loop epoch x_tensors y_tensors true_dict loss_func optimizer m with
          | (m1, o1, Ok _) =>
              let '(m2, r) := rest x_tensors y_tensors true_dict loss_func m1 in
              (m2, o1, r)
          | (m1, o1, Raise e) => (m1, o1, Raise e)
          end
      end
  end.

End Optimizers.

Arguments Stop {St} params.
Arguments Again {St} st params.
Arguments mkOptimizer {St}.
Arguments opt_params {St} o.
Arguments set_to_none {St} o.
Arguments update {St} o.
Arguments next {St} o.
Arguments max_eval {St} o.
Arguments opt_state {St} o.
Arguments func_evals {St} o.
Arguments n_steps {St} o.
Arguments set_opt {St} o st evals steps.
Arguments zero_grad {St} o g.
Arguments step {St} o m.
Arguments lbfgs_iterate {St} budget closure o l m.
Arguments step_closure {St} o closure m.
Arguments evaluate_loss {St} optimizer x_tensors y_tensors true_dict loss_func.
Arguments train_LBFGS {St} train_dict loss_func optimizer m.
Arguments train_loop {St} n x_tensors y_tensors true_dict loss_func optimizer m.
Arguments train {St} global_train_dict epoch u_data f_data bc_data loss_func optimizer m.

(** ** Coordinate normalizer *)

(** A one-dimensional numpy array. *)
Record vector : Type := mkVector {
  len : nat;
  item : nat -> R
}.

(** numpy broadcasting of a matrix against a vector, and of two vectors *)
Definition broadcast_mv (f : R -> R -> R) (X : table) (v : vector) : result table :=
  match broadcast_dim (tcols X) (len v) with
  | Some c =>
      Ok {| trows := trows X; tcols := c;
            tdata := fun i j => f (tdata X i (bidx (tcols X) j)) (item v (bidx (len v) j)) |}
  | None => Raise (ValueError "operands could not be broadcast together")
  end.

Definition broadcast_vv (f : R -> R -> R) (u v : vector) : result vector :=
  match broadcast_dim (len u) (len v) with
  | Some c =>
      Ok {| len := c;
            item := fun j => f (item u (bidx (len u) j)) (item v (bidx (len v) j)) |}
  | None => Raise (ValueError "operands could not be broadcast together")
  end.

Definition map_table (f : R -> R) (X : table) : table :=
  {| trows := trows X; tcols := tcols X; tdata := fun i j => f (tdata X i j) |}.

Definition coor_shift (X : table) (lbs ubs : vector) : result table :=
  (D <- broadcast_mv Rminus X lbs ;;
   W <- broadcast_vv Rminus ubs lbs ;;
   Q <- broadcast_mv Rdiv (map_table (fun a => 2 * a) D) W ;;
   Ok (map_table (fun a => a - 1) Q))%result.

(** ** Reference definitions

    Definitions that follow the words of the specification; the theorems
    compare the methods above with them. *)

(** The four roles of section 3. *)
Definition is_role (i : string) : bool :=
  String.eqb i "u" || String.eqb i "diri" || String.eqb i "nuem" || String.eqb i "f".

(** Section 4.3: [u]/[diri] go to [evaluate], [nuem] to the first component
    of [evaluate_first_derivatives], [f] to [evaluate_pde_residual]. *)
Definition route (self : PhysicsInformedNN) (i : string) (x y : tensor)
  : result tensor :=
  if String.eqb i "u" || String.eqb i "diri" then net_u self x y
  else if String.eqb i "nuem" then
    match net_du self x y with
    | Ok (dudx, _) => Ok dudx
    | Raise e => Raise e
    end
  else net_f self x y.

(** What the router is to compute for one role of the point-sets. *)
Definition served (self : PhysicsInformedNN) (x_tensors y_tensors : dict tensor)
  (i : string) : result tensor :=
  (x <- getitem x_tensors i ;;
   y <- getitem y_tensors i ;;
   route self i x y)%result.

Definition Rsum (l : list R) : R := fold_right Rplus 0 l.




(** Section 4.2, [evaluate]: a weight/bias pair applied to a row [h]. *)
Definition affine (s : store) (W b : tensor) (h : nat -> R) : nat -> R :=
  fun j =>
    Rsum (map (fun k => h k * eval s (entry W k j)) (seq 0 (rows W)))
    + eval s (entry b 0%nat j).

(** Section 4.2, [evaluate]: every pair but the last is followed by a
    hyperbolic tangent, the last one is strictly affine. *)
Fixpoint mlp (s : store) (weights biases : list tensor) (h : nat -> R) : nat -> R :=
  match weights, biases with
  | [W], b :: _ => affine s W b h
  | W :: ws, b :: bs => mlp s ws bs (fun j => tanh (affine s W b h j))
  | _, _ => h
  end.

(** Section 4.2, [evaluate]: the network on the row [(a, c)], i.e. on one
    row of the columnwise concatenation of [x] and [y]. *)
Definition evaluate (s : store) (weights biases : list tensor) (a c : R) : nat -> R :=
  mlp s weights biases (fun k => if (k =? 0)%nat then a else c).

(** Section 3: the shapes of the pairs follow one another, starting from
    [n] inputs. *)
Fixpoint chained (n : nat) (weights biases : list tensor) : Prop :=
  match weights, biases with
  | [], [] => True
  | W :: ws, b :: bs =>
      rows W = n /\ rows b = 1%nat /\ cols b = cols W /\ chained (cols W) ws bs
  | _, _ => False
  end.

(** Section 3: one weight matrix of shape (inputs, outputs) and one bias of
    shape (1, outputs) per layer transition, all of them leaves: the
    parameters a model object holds from its construction on. *)
Definition weight_leaves (layers : list nat) : list tensor :=
  map (fun l => leaf_tensor (LWeight l) (nth l layers 0%nat) (nth (l + 1) layers 0%nat))
      (seq 0 (List.length layers - 1)).

Definition bias_leaves (layers : list nat) : list tensor :=
  map (fun l => leaf_tensor (LBias l) 1 (nth (l + 1) layers 0%nat))
      (seq 0 (List.length layers - 1)).


(** A parameter the loss can be differentiated against: a leaf that
    requires gradients and that the graph of the loss reaches. *)
Definition reaches (loss : scalar) (p : tensor) : Prop :=
  exists t, leaf_of p = Some t /\ requires_grad p = true /\
            used t (rows p) (cols p) (sval loss) = true.

(** ** Auxiliary definitions for the proofs *)

(** The first [n] rounds of the loop of [neural_net], by recursion on the
    lists instead of by index. *)
Fixpoint run_hidden (weights biases : list tensor) (n : nat) (H : tensor)
  {struct n} : result tensor :=
  match n with
  | O => Ok H
  | S n' =>
      match weights, biases with
      | W :: ws, b :: bs => rbind (hidden_layer W b H) (run_hidden ws bs n')
      | _, _ => Raise IndexError
      end
  end.

(** The nodes [neural_net] builds for one row, given the nodes [h] of that
    row of the input: the symbolic counterpart of [affine] and [mlp]. *)
Definition affine_expr (W b : tensor) (h : nat -> expr) : nat -> expr :=
  fun j =>
    Add (esum (map (fun k => Mul (h k) (entry W k j)) (seq 0 (rows W))))
        (entry b 0%nat j).

Fixpoint mlp_expr (weights biases : list tensor) (h : nat -> expr) : nat -> expr :=
  match weights, biases with
  | [W], b :: _ => affine_expr W b h
  | W :: ws, b :: bs => mlp_expr ws bs (fun j => Tanh (affine_expr W b h j))
  | _, _ => h
  end.


(** Sum-then-gradient on a column of nodes [e 0 .. e (N - 1)], with respect
    to the slots of the column leaf [t], once and twice. *)
Definition first_gradient (t : leaf) (N : nat) (e : nat -> expr) (i : nat) : expr :=
  grad_or_zero (backprop (esum (map e (seq 0 N))) (Const 1) (t, i, 0%nat)).


(** The plain gradient [grad_all] hands out for one parameter. *)
Definition grad_table (st : store) (s : scalar) (p : tensor) : table :=
  {| trows := rows p; tcols := cols p;
     tdata := fun i j =>
       match leaf_of p with
       | Some t => eval st (grad_or_zero (backprop (sval s) (Const 1) (t, i, j)))
       | None => 0
       end |}.

(** What a closure does to the history: a completed evaluation adds one
    entry, an interrupted one removes nothing. *)
Definition appends_one (closure : M scalar) : Prop :=
  forall m,
    match closure m with
    | (m', Ok l) => exists v, loss_list (self m') = loss_list (self m) ++ [v]
    | (m', Raise _) => exists new, loss_list (self m') = loss_list (self m) ++ new
    end.

(** ** Construction, data loading and prediction *)

Section Construction.

Variable rng : Type.
Variable normal_ : rng -> nat -> nat -> R -> (nat -> nat -> R) * rng.

(** [PhysicsInformedNN(layers)].  The constructor also builds an L-BFGS
    optimizer over [weights + biases], which no method reads afterwards;
    what remains of it is that torch refuses an empty parameter list. *)
Definition __init__ (layers : list nat) (st : store * rng)
  : result (PhysicsInformedNN * (store * rng)) :=
  (' (weights, biases, st') <- initialize_NN normal_ layers st ;;
   match weights ++ biases with
   | [] => Raise (ValueError "optimizer got an empty parameter list")
   | _ :: _ =>
       Ok ({| layers := layers; weights := weights; biases := biases;
              loss := None; loss_list := []; pred_dict := None |}, st')
   end)%result.

End Construction.

Arguments __init__ {rng} normal_ layers st.

(** [X[:, a:b]] on a numpy array, for [0 <= a <= b]: the bounds are clipped
    to the number of columns. *)
Definition slice_cols (X : table) (a b : nat) : table :=
  {| trows := trows X;
     tcols := Nat.min b (tcols X) - Nat.min a (tcols X);
     tdata := fun i j => tdata X i (a + j) |}.

(** [torch.tensor(d, requires_grad=True)]: a new leaf, named [name], that
    holds [d]. *)
Definition new_leaf (name : nat) (d : table) (s : store) : tensor * store :=
  (leaf_tensor (LInput name) (trows d) (tcols d),
   write_leaf s (LInput name) (tdata d)).

(** [data_loader]; [nx] and [ny] name the two tensors it creates. *)
Definition data_loader (nx ny : nat) (X u : table) (lbs ubs : vector) (s : store)
  : result (point_set * store) :=
  (X <- coor_shift X lbs ubs ;;
   let '(x_tensor, s1) := new_leaf nx (slice_cols X 0 1) s in
   let '(y_tensor, s2) := new_leaf ny (slice_cols X 1 2) s1 in
   let u_tensor := const_tensor u in
   Ok ((x_tensor, y_tensor, u_tensor), s2))%result.

(** [t.detach().numpy()] *)
Definition detach (s : store) (x : tensor) : table :=
  {| trows := rows x; tcols := cols x; tdata := fun i j => eval s (entry x i j) |}.

(** What [numpy.squeeze] can return for a two-dimensional array. *)
Inductive ndarray : Type :=
| Array0 (r : R)
| Array1 (v : vector)
| Array2 (t : table).

(** [a.squeeze()]: the axes of length one are dropped. *)
Definition squeeze (a : table) : ndarray :=
  if trows a =? 1 then
    if tcols a =? 1 then Array0 (tdata a 0%nat 0%nat)
    else Array1 {| len := tcols a; item := fun j => tdata a 0%nat j |}
  else
    if tcols a =? 1 then Array1 {| len := trows a; item := fun i => tdata a i 0%nat |}
    else Array2 a.

Definition predict (self : PhysicsInformedNN) (X_input : table) (s : store)
  : result ndarray :=
  let x_tensor := const_tensor (slice_cols X_input 0 1) in
  let y_tensor := const_tensor (slice_cols X_input 1 2) in
  (u <- neural_net x_tensor y_tensor (weights self) (biases self) ;;
   Ok (squeeze (detach s u)))%result.

(** The same layer sizes and the same parameter tensors. *)
Definition same_network (s s' : PhysicsInformedNN) : Prop :=
  layers s' = layers s /\ weights s' = weights s /\ biases s' = biases s.

(** A node without coordinate slots, and a node in which coordinate slots
    stand only as bare factors of coordinate-free coefficients: the shape
    of an affine function of the coordinates. *)
Fixpoint input_free (e : expr) : bool :=
  match e with
  | Const _ => true
  | Var (LInput _) _ _ => false
  | Var _ _ _ => true
  | Add a b | Mul a b => input_free a && input_free b
  | Tanh a => input_free a
  end.

Fixpoint affine_in_inputs (e : expr) : bool :=
  match e with
  | Const _ | Var _ _ _ => true
  | Add a b => affine_in_inputs a && affine_in_inputs b
  | Mul a b => affine_in_inputs a && input_free b
  | Tanh a => input_free a
  end.

(** ** Sample inputs *)

Definition unit_square_corner : table :=
  {| trows := 1; tcols := 2; tdata := fun _ j => if (j =? 0)%nat then 0 else 1 |}.

Definition unit_square_lbs : vector := {| len := 2; item := fun _ => 0 |}.
Definition unit_square_ubs : vector := {| len := 2; item := fun _ => 1 |}.


(** A one-entry table and the constant tensor of it. *)
Definition one_by_one (c : R) : table :=
  {| trows := 1; tcols := 1; tdata := fun _ _ => c |}.



Definition zero_store : store := fun _ _ _ => 0.

(** The smallest network with a hidden layer, on one point per role. *)
Definition tiny_layers : list nat := [2; 1; 1]%nat.

Definition tiny : PhysicsInformedNN :=
  {| layers := tiny_layers;
     weights := weight_leaves tiny_layers;
     biases := bias_leaves tiny_layers;
     loss := None; loss_list := []; pred_dict := None |}.

Definition column (n : nat) : tensor := leaf_tensor (LInput n) 1 1.

Definition tiny_train_dict : dict point_set :=
  [("u"%string, (column 0, column 1, const_tensor (one_by_one 0)));
   ("f"%string, (column 2, column 3, const_tensor (one_by_one 0)));
   ("nuem"%string, (column 4, column 5, const_tensor (one_by_one 0)));
   ("diri"%string, (column 6, column 7, const_tensor (one_by_one 1)))].

Definition tiny_machine : machine :=
  {| self := tiny; data := zero_store; grad_slot := fun _ => None; stdout := [] |}.

(** An optimizer that leaves the parameters where they are and asks for as
    many further closure evaluations as its state counts. *)
Definition countdown (n : nat) : Optimizer nat :=
  {| opt_params := weights tiny ++ biases tiny;
     set_to_none := true;
     update := fun st params _ => (st, params);
     next := fun st params _ _ =>
               match st with
               | O => Stop params
               | S k => Again k params
               end;
     max_eval := 5;
     opt_state := n;
     func_evals := 0;
     n_steps := 0 |}.

Definition plain_loss : loss_callable := fun p t => loss_func p t None.

(** A random source that hands out the standard deviation it is asked for. *)
Definition flat_normal (g : unit) (r c : nat) (std : R) : (nat -> nat -> R) * unit :=
  (fun _ _ => std, g).

Definition square_loss : scalar :=
  {| sval := Mul (Var (LWeight 0) 0%nat 0%nat) (Var (LWeight 0) 0%nat 0%nat);
     s_requires_grad := true |}.

(** A network of a single affine layer. *)
Definition single_layer : PhysicsInformedNN :=
  {| layers := [2; 1]%nat;
     weights := weight_leaves [2; 1]%nat;
     biases := bias_leaves [2; 1]%nat;
     loss := None; loss_list := []; pred_dict := None |}.

(** The coordinates and targets of [tiny_train_dict], role by role. *)
Definition tiny_xs : dict tensor :=
  [("u"%string, column 0); ("f"%string, column 2);
   ("nuem"%string, column 4); ("diri"%string, column 6)].

Definition tiny_ys : dict tensor :=
  [("u"%string, column 1); ("f"%string, column 3);
   ("nuem"%string, column 5); ("diri"%string, column 7)].

Definition tiny_ts : dict tensor :=
  [("u"%string, const_tensor (one_by_one 0)); ("f"%string, const_tensor (one_by_one 0));
   ("nuem"%string, const_tensor (one_by_one 0)); ("diri"%string, const_tensor (one_by_one 1))].

(** Three points of the unit square, one per row, and a table with a single
    column. *)
Definition three_points : table :=
  {| trows := 3; tcols := 2;
     tdata := fun i j => if (j =? 0)%nat then INR i else 1 |}.

Definition one_column : table :=
  {| trows := 3; tcols := 1; tdata := fun i _ => INR i |}.

(** [tiny_train_dict] without the measurements [u], and without the
    collocation points [f]. *)
Definition tiny_without_u : dict point_set :=
  [("f"%string, (column 2, column 3, const_tensor (one_by_one 0)));
   ("nuem"%string, (column 4, column 5, const_tensor (one_by_one 0)));
   ("diri"%string, (column 6, column 7, const_tensor (one_by_one 1)))].

Definition tiny_without_f : dict point_set :=
  [("u"%string, (column 0, column 1, const_tensor (one_by_one 0)));
   ("nuem"%string, (column 4, column 5, const_tensor (one_by_one 0)));
   ("diri"%string, (column 6, column 7, const_tensor (one_by_one 1)))].

(** Bounds of length three, which fit no array of two columns. *)
Definition three_bounds : vector := {| len := 3; item := fun _ => 0 |}.

(** * Verification *)

(** ** Facts about the graph *)

Lemma leaf_eqb_eq (a b : leaf) : leaf_eqb a b = true <-> a = b.
Proof.
  destruct a, b; simpl; rewrite ?Nat.eqb_eq; split; intro H;
    try discriminate; try (inversion H; reflexivity); congruence.
Qed.

Lemma var_eqb_eq (v w : var) : var_eqb v w = true <-> v = w.
Proof.
  destruct v as [[t i] j], w as [[t' i'] j']; unfold var_eqb.
  rewrite !andb_true_iff, leaf_eqb_eq, !Nat.eqb_eq.
  split; [intros [[-> ->] ->]; reflexivity | intro H; inversion H; auto].
Qed.

Lemma var_eqb_refl (v : var) : var_eqb v v = true.
Proof. apply var_eqb_eq; reflexivity. Qed.

Lemma var_eqb_neq (v w : var) : v <> w -> var_eqb v w = false.
Proof.
  intro H; destruct (var_eqb v w) eqn:E; [|reflexivity].
  apply var_eqb_eq in E; contradiction.
Qed.

Lemma eval_ext (s s' : store) (e : expr) :
  (forall t i j, s t i j = s' t i j) -> eval s e = eval s' e.
Proof.
  intro H; induction e; simpl; try congruence; auto.
Qed.

Lemma deriv_ext (s s' : store) (e : expr) (v : var) :
  (forall t i j, s t i j = s' t i j) -> deriv s e v = deriv s' e v.
Proof.
  intro H; induction e; simpl; auto.
  - rewrite IHe1, IHe2; reflexivity.
  - rewrite IHe1, IHe2, (eval_ext s s' e1 H), (eval_ext s s' e2 H); reflexivity.
  - rewrite IHe, (eval_ext s s' e H); reflexivity.
Qed.

Lemma upd_at (s : store) (v : var) : forall t i j, upd s v (at_var s v) t i j = s t i j.
Proof.
  intros t i j; unfold upd.
  destruct (var_eqb (t, i, j) v) eqn:E; [|reflexivity].
  apply var_eqb_eq in E; subst v; reflexivity.
Qed.

(** *** The derivative of tanh *)

Lemma cosh_pos (x : R) : 0 < cosh x.
Proof.
  unfold cosh.
  pose proof (exp_pos x); pose proof (exp_pos (- x)); lra.
Qed.

Lemma derivable_pt_lim_tanh (x : R) :
  derivable_pt_lim tanh x (1 - tanh x * tanh x).
Proof.
  pose proof (cosh_pos x) as Hc.
  replace (1 - tanh x * tanh x)
    with ((cosh x * cosh x - sinh x * sinh x) / Rsqr (cosh x)).
  - apply (derivable_pt_lim_div sinh cosh x (cosh x) (sinh x)).
    + apply derivable_pt_lim_sinh.
    + apply derivable_pt_lim_cosh.
    + lra.
  - unfold tanh, Rsqr; field; lra.
Qed.

(** *** Soundness of the textbook derivative *)

Lemma deriv_sound (s : store) (v : var) (e : expr) (a0 : R) :
  derivable_pt_lim (fun a => eval (upd s v a) e) a0 (deriv (upd s v a0) e v).
Proof.
  induction e; simpl.
  - apply derivable_pt_lim_const.
  - unfold upd at 1.
    destruct (var_eqb (t, i, j) v).
    + apply derivable_pt_lim_id.
    + apply (derivable_pt_lim_const (s t i j)).
  - apply (derivable_pt_lim_plus _ _ _ _ _ IHe1 IHe2).
  - apply (derivable_pt_lim_mult _ _ _ _ _ IHe1 IHe2).
  - apply (derivable_pt_lim_comp (fun a => eval (upd s v a) e) tanh _ _ _ IHe).
    apply derivable_pt_lim_tanh.
Qed.

(** *** Reverse mode computes the incoming gradient times the derivative *)

Lemma eval_accumulate (s : store) (a b : option expr) :
  eval s (grad_or_zero (accumulate a b))
  = eval s (grad_or_zero a) + eval s (grad_or_zero b).
Proof.
  destruct a, b; simpl; lra.
Qed.

Lemma backprop_sound (s : store) (v : var) (e : expr) :
  forall adj, eval s (grad_or_zero (backprop e adj v)) = eval s adj * deriv s e v.
Proof.
  induction e; intro adj; simpl.
  - lra.
  - destruct (var_eqb (t, i, j) v); simpl; lra.
  - rewrite eval_accumulate, IHe1, IHe2; lra.
  - rewrite eval_accumulate, IHe1, IHe2; simpl; lra.
  - rewrite IHe; simpl; lra.
Qed.

Lemma backprop_reached (v : var) (e : expr) :
  forall adj, occurs v e = true <-> exists g, backprop e adj v = Some g.
Proof.
  induction e; intro adj; simpl.
  - split; [discriminate | intros [g H]; discriminate].
  - destruct (var_eqb (t, i, j) v); split; eauto; try discriminate.
    intros [g H]; discriminate.
  - rewrite orb_true_iff, (IHe1 adj), (IHe2 adj).
    destruct (backprop e1 adj v), (backprop e2 adj v); simpl;
      split; eauto; intros [[g H]|[g H]]; discriminate.
  - rewrite orb_true_iff, (IHe1 (Mul adj e2)), (IHe2 (Mul adj e1)).
    destruct (backprop e1 (Mul adj e2) v), (backprop e2 (Mul adj e1) v); simpl;
      split; eauto; intros [[g H]|[g H]]; discriminate.
  - apply IHe.
Qed.


(** ** Broadcasting *)

Lemma broadcast_dim_same (n : nat) : broadcast_dim n n = Some n.
Proof. unfold broadcast_dim; rewrite Nat.eqb_refl; reflexivity. Qed.

Lemma bidx_lt (n j : nat) : (j < n)%nat -> bidx n j = j.
Proof.
  unfold bidx; intro H.
  destruct (Nat.eqb_spec n 1); [lia | reflexivity].
Qed.

(** ** Coordinate normalizer *)

(** C7: on an array [X] of [d] columns and bounds of length [d],
    [coor_shift] returns an array of the same shape whose entries are
    [2*(X - lb)/(ub - lb) - 1]; on an axis whose upper bound differs from
    its lower bound, an entry equal to the lower bound is sent to [-1] and an
    entry equal to the upper bound to [1]. *)
Theorem coor_shift_affine (X : table) (lbs ubs : vector) :
  tcols X = len lbs -> len ubs = len lbs ->
  exists X',
    coor_shift X lbs ubs = Ok X' /\
    trows X' = trows X /\ tcols X' = tcols X /\
    forall i j, (i < trows X)%nat -> (j < tcols X)%nat ->
      tdata X' i j
      = 2 * (tdata X i j - item lbs j) / (item ubs j - item lbs j) - 1 /\
      (item ubs j <> item lbs j ->
       (tdata X i j = item lbs j -> tdata X' i j = -1) /\
       (tdata X i j = item ubs j -> tdata X' i j = 1)).
Proof.
  intros Hc Hu.
  unfold coor_shift, broadcast_mv, broadcast_vv; simpl.
  rewrite Hc, Hu, broadcast_dim_same; simpl.
  rewrite broadcast_dim_same; simpl.
  eexists; split; [reflexivity|]; simpl.
  repeat split; auto.
  - rewrite !bidx_lt by (rewrite ?bidx_lt; lia). reflexivity.
  - intro Hx. rewrite !bidx_lt by (rewrite ?bidx_lt; lia).
    rewrite Hx. field. lra.
  - intro Hx. rewrite !bidx_lt by (rewrite ?bidx_lt; lia).
    rewrite Hx. field. lra.
Qed.

Lemma coor_shift_affine_witness :
  exists X',
    coor_shift unit_square_corner unit_square_lbs unit_square_ubs = Ok X' /\
    trows X' = 1%nat /\ tcols X' = 2%nat /\
    forall i j, (i < 1)%nat -> (j < 2)%nat ->
      tdata X' i j
      = 2 * (tdata unit_square_corner i j - 0) / (1 - 0) - 1 /\
      (1 <> 0 ->
       (tdata unit_square_corner i j = 0 -> tdata X' i j = -1) /\
       (tdata unit_square_corner i j = 1 -> tdata X' i j = 1)).
Proof.
  apply (coor_shift_affine unit_square_corner unit_square_lbs unit_square_ubs);
    reflexivity.
Defined.

(** ** Dictionaries and loops *)

Lemma dget_setitem_same {V} (d : dict V) (k : string) (v : V) :
  dget (setitem d k v) k = Some v.
Proof.
  induction d as [|[k' v'] d IH]; simpl.
  - rewrite String.eqb_refl; reflexivity.
  - destruct (String.eqb k' k) eqn:E; simpl.
    + rewrite String.eqb_refl; reflexivity.
    + rewrite E; exact IH.
Qed.

Lemma dget_setitem_other {V} (d : dict V) (k k' : string) (v : V) :
  k <> k' -> dget (setitem d k v) k' = dget d k'.
Proof.
  intro Hne; induction d as [|[k0 v0] d IH]; simpl.
  - destruct (String.eqb_spec k k'); [contradiction | reflexivity].
  - destruct (String.eqb_spec k0 k) as [->|Hk]; simpl.
    + destruct (String.eqb_spec k k'); [contradiction | reflexivity].
    + destruct (String.eqb_spec k0 k'); [reflexivity | exact IH].
Qed.

Lemma dget_in_keys {V} (d : dict V) (k : string) :
  In k (dkeys d) <-> exists v, dget d k = Some v.
Proof.
  induction d as [|[k0 v0] d IH]; simpl.
  - split; [contradiction | intros [v H]; discriminate].
  - destruct (String.eqb_spec k0 k) as [->|Hk].
    + split; eauto.
    + rewrite <- IH; split; [intros [H|H]; [contradiction | exact H] | auto].
Qed.

Lemma for_each_app {A S} (l1 l2 : list A) (body : A -> S -> result S) (s : S) :
  for_each (l1 ++ l2) body s
  = rbind (for_each l1 body s) (for_each l2 body).
Proof.
  revert s; induction l1 as [|a l1 IH]; intro s; simpl; [reflexivity|].
  destruct (body a s); simpl; auto.
Qed.

(** ** Prediction router *)

Lemma dget_fill {V} (v : V) (keys : list string) :
  forall d i,
    dget (fill v keys d) i = if in_dec string_dec i keys then Some v else dget d i.
Proof.
  induction keys as [|k keys IH]; intros d i; simpl; [reflexivity|].
  unfold fill in *; simpl. rewrite IH.
  destruct (in_dec string_dec i keys) as [Hin|Hnin].
  - destruct (string_dec k i); reflexivity.
  - destruct (string_dec k i) as [->|Hne].
    + apply dget_setitem_same.
    + apply dget_setitem_other; exact Hne.
Qed.

Lemma dget_blank (keys : list string) (p : dict (option tensor)) (i : string) :
  dget (blank keys p) i = if in_dec string_dec i keys then Some None else dget p i.
Proof. apply dget_fill. Qed.

Lemma forward_unfold (self : PhysicsInformedNN) (x_tensors y_tensors : dict tensor)
  (keys : option (list string)) :
  forward self x_tensors y_tensors keys
  = rbind (for_each (match keys with None => dkeys x_tensors | Some ks => ks end)
             (forward_body self x_tensors y_tensors)
             (match keys with None => None | Some ks => Some (blank ks []) end))
      (fun preds => match preds with
                    | None => Raise (UnboundLocalError "preds")
                    | Some p => Ok p
                    end).
Proof. destruct keys; reflexivity. Qed.

(** What a round does to a bound [preds]: a role is routed to its evaluator
    and stored, any other key leaves [preds] alone. *)
Lemma forward_body_bound (self : PhysicsInformedNN) (x_tensors y_tensors : dict tensor)
  (i : string) (p : dict (option tensor)) :
  forward_body self x_tensors y_tensors i (Some p)
  = if is_role i
    then (x <- getitem x_tensors i ;;
          y <- getitem y_tensors i ;;
          t <- route self i x y ;;
          Ok (Some (setitem p i (Some t))))%result
    else Ok (Some p).
Proof.
  unfold forward_body, is_role, route.
  destruct (String.eqb_spec i "nuem") as [->|Hn]; simpl.
  - destruct (getitem x_tensors "nuem"); simpl; [|reflexivity].
    destruct (getitem y_tensors "nuem"); simpl; [|reflexivity].
    destruct (net_du self a a0) as [[dx dy]|]; reflexivity.
  - destruct (String.eqb_spec i "f") as [->|Hf]; simpl; [reflexivity|].
    destruct (String.eqb_spec i "u") as [->|Hu]; simpl; [reflexivity|].
    destruct (String.eqb_spec i "diri") as [->|Hd]; simpl; reflexivity.
Qed.

(** With [preds] unbound no round can store anything. *)
Lemma forward_body_unbound (self : PhysicsInformedNN) (x_tensors y_tensors : dict tensor)
  (i : string) (r : option (dict (option tensor))) :
  forward_body self x_tensors y_tensors i None = Ok r -> r = None.
Proof.
  unfold forward_body, assign_pred.
  repeat match goal with
         | |- context [if ?b then _ else _] => destruct b
         | |- context [rbind ?m _] => destruct m; simpl
         | |- context [let '(_, _) := ?p in _] => destruct p
         end; congruence.
Qed.

Lemma forward_loop_unbound (self : PhysicsInformedNN) (x_tensors y_tensors : dict tensor)
  (keys : list string) (r : option (dict (option tensor))) :
  for_each keys (forward_body self x_tensors y_tensors) None = Ok r -> r = None.
Proof.
  induction keys as [|k keys IH]; simpl; [congruence|].
  destruct (forward_body self x_tensors y_tensors k None) as [r'|] eqn:E; simpl;
    [|discriminate].
  apply forward_body_unbound in E; subst r'; exact IH.
Qed.

(** C2 (where the code departs from the specification): when [keys]
    is omitted, [forward] never returns a prediction bundle, whatever the
    point-sets are; it always ends in an exception. *)
Theorem forward_without_roles_raises (self : PhysicsInformedNN)
  (x_tensors y_tensors : dict tensor) :
  exists e, forward self x_tensors y_tensors None = Raise e.
Proof.
  rewrite forward_unfold.
  destruct (for_each (dkeys x_tensors) (forward_body self x_tensors y_tensors) None)
    as [r|e] eqn:E; simpl; [|eauto].
  apply forward_loop_unbound in E; subst r; eauto.
Qed.

Lemma forward_body_served (self : PhysicsInformedNN) (x_tensors y_tensors : dict tensor)
  (i : string) (p : dict (option tensor)) :
  forward_body self x_tensors y_tensors i (Some p)
  = if is_role i
    then match served self x_tensors y_tensors i with
         | Ok t => Ok (Some (setitem p i (Some t)))
         | Raise e => Raise e
         end
    else Ok (Some p).
Proof.
  rewrite forward_body_bound; unfold served.
  destruct (is_role i); [|reflexivity].
  destruct (getitem x_tensors i); simpl; [|reflexivity].
  destruct (getitem y_tensors i); simpl; [|reflexivity].
  destruct (route self i a a0); reflexivity.
Qed.

(** The loop of [forward] on a bound [preds]: it succeeds exactly when every
    requested role is served, keys that are not roles keep their entry, and
    every requested role ends with what the router computes for it. *)
Lemma forward_loop_ok (self : PhysicsInformedNN) (x_tensors y_tensors : dict tensor)
  (keys : list string) :
  forall p,
    is_ok (for_each keys (forward_body self x_tensors y_tensors) (Some p))
    = forallb (fun i => negb (is_role i) || is_ok (served self x_tensors y_tensors i)) keys.
Proof.
  induction keys as [|k keys IH]; intro p; simpl; [reflexivity|].
  rewrite forward_body_served.
  destruct (is_role k); simpl.
  - destruct (served self x_tensors y_tensors k); simpl; [apply IH | reflexivity].
  - apply IH.
Qed.

Lemma forward_loop_bound (self : PhysicsInformedNN) (x_tensors y_tensors : dict tensor)
  (keys : list string) :
  forall p r,
    for_each keys (forward_body self x_tensors y_tensors) (Some p) = Ok r ->
    exists p',
      r = Some p' /\
      (forall i, is_role i = false -> dget p' i = dget p i) /\
      (forall i, ~ In i keys -> dget p' i = dget p i) /\
      (forall i, In i keys -> is_role i = true ->
         exists t, served self x_tensors y_tensors i = Ok t /\
                   dget p' i = Some (Some t)).
Proof.
  induction keys as [|k keys IH]; intros p r; simpl.
  - intro H; inversion H; subst r.
    exists p; repeat split; auto; contradiction.
  - rewrite forward_body_served.
    destruct (is_role k) eqn:Ek; simpl.
    + destruct (served self x_tensors y_tensors k) as [t|] eqn:Es; simpl;
        [|discriminate].
      intro H; apply IH in H as (p' & -> & Hfix & Hout & Hin).
      exists p'; split; [reflexivity|]; split; [|split].
      * intros i Hi; rewrite Hfix by exact Hi.
        apply dget_setitem_other; intros ->; congruence.
      * intros i Hi; rewrite Hout by tauto.
        apply dget_setitem_other; intros ->; tauto.
      * intros i [->|Hi] Hr.
        -- destruct (in_dec string_dec i keys) as [Hik|Hik]; [auto|].
           exists t; split; [exact Es|].
           rewrite Hout by exact Hik. apply dget_setitem_same.
        -- auto.
    + intro H; apply IH in H as (p' & -> & Hfix & Hout & Hin).
      exists p'; split; [reflexivity|]; split; [exact Hfix|]; split.
      * intros i Hi; apply Hout; tauto.
      * intros i [->|Hi] Hr; [congruence | auto].
Qed.

(** With [keys] given, every requested role ends mapped to what the router
    computes for it from the point-set of that role. *)
Lemma forward_routes_roles (self : PhysicsInformedNN)
  (x_tensors y_tensors : dict tensor) (keys : list string)
  (preds : dict (option tensor)) :
  forward self x_tensors y_tensors (Some keys) = Ok preds ->
  forall i, In i keys -> is_role i = true ->
    exists t, served self x_tensors y_tensors i = Ok t /\ dget preds i = Some (Some t).
Proof.
  unfold forward.
  destruct (for_each keys (forward_body self x_tensors y_tensors) (Some (blank keys [])))
    as [r|] eqn:E; simpl; [|discriminate].
  apply forward_loop_bound in E as (p' & -> & _ & _ & Hin).
  intro H; inversion H; subst preds. exact Hin.
Qed.

Lemma forallb_filter_neutral {A} (f g : A -> bool) (l : list A) :
  (forall a, g a = false -> f a = true) ->
  forallb f (filter g l) = forallb f l.
Proof.
  intro H; induction l as [|a l IH]; simpl; [reflexivity|].
  destruct (g a) eqn:E; simpl; rewrite IH; [reflexivity|].
  rewrite (H a E); reflexivity.
Qed.

Lemma for_each_skip {A S} (l : list A) (body : A -> S -> result S) (s : S) :
  (forall a, In a l -> body a s = Ok s) -> for_each l body s = Ok s.
Proof.
  induction l as [|a l IH]; intro H; simpl; [reflexivity|].
  rewrite (H a (or_introl eq_refl)); simpl.
  apply IH; intros; apply H; right; assumption.
Qed.

(** C10: with [keys] given, a key outside [u], [diri], [nuem], [f] is
    skipped: whenever [forward] returns, that key is mapped to [None]; such
    keys do not change whether [forward] returns or raises (no point-set is
    looked up and no evaluator is called for them); and when no requested
    key is a role, [forward] returns the all-[None] bundle for any
    point-sets. *)
Theorem forward_skips_unknown_roles (self : PhysicsInformedNN)
  (x_tensors y_tensors : dict tensor) (keys : list string) :
  (forall preds i,
      forward self x_tensors y_tensors (Some keys) = Ok preds ->
      In i keys -> is_role i = false -> dget preds i = Some None) /\
  is_ok (forward self x_tensors y_tensors (Some keys))
  = is_ok (forward self x_tensors y_tensors (Some (filter is_role keys))) /\
  (Forall (fun i => is_role i = false) keys ->
   forward self x_tensors y_tensors (Some keys) = Ok (blank keys [])).
Proof.
  repeat split.
  - intros preds i H Hin Hr.
    unfold forward in H.
    destruct (for_each keys (forward_body self x_tensors y_tensors) (Some (blank keys [])))
      as [r|] eqn:E; simpl in H; [|discriminate].
    apply forward_loop_bound in E as (p' & -> & Hfix & _).
    inversion H; subst preds.
    rewrite Hfix by exact Hr. rewrite dget_blank.
    destruct (in_dec string_dec i keys); [reflexivity | contradiction].
  - unfold forward.
    pose proof (forward_loop_ok self x_tensors y_tensors keys (blank keys [])) as H1.
    pose proof (forward_loop_ok self x_tensors y_tensors (filter is_role keys)
                  (blank (filter is_role keys) [])) as H2.
    rewrite forallb_filter_neutral in H2
      by (intros a Ha; rewrite Ha; reflexivity).
    rewrite <- H1 in H2.
    destruct (for_each keys _ _) as [[r|]|] eqn:E1;
      destruct (for_each (filter is_role keys) _ _) as [[r'|]|] eqn:E2;
      simpl in *; try congruence;
      try (apply forward_loop_bound in E1 as (? & ? & _); discriminate);
      try (apply forward_loop_bound in E2 as (? & ? & _); discriminate).
  - intro Hall. unfold forward.
    rewrite for_each_skip; [reflexivity|].
    intros a Ha. rewrite forward_body_served.
    rewrite Forall_forall in Hall. rewrite (Hall a Ha). reflexivity.
Qed.

Lemma forward_skips_unknown_roles_witness :
  forward tiny [] [] (Some ["foo"%string]) = Ok (blank ["foo"%string] []) /\
  dget (blank ["foo"%string] []) "foo" = Some None.
Proof.
  destruct (forward_skips_unknown_roles tiny [] [] ["foo"%string]) as (Hnone & _ & Hall).
  assert (H : forward tiny [] [] (Some ["foo"%string]) = Ok (blank ["foo"%string] []))
    by (apply Hall; repeat constructor).
  split; [exact H|].
  apply (Hnone _ "foo"%string H); [left; reflexivity | reflexivity].
Defined.


(** ** Sums *)

Lemma eval_esum (s : store) (l : list expr) :
  eval s (esum l) = Rsum (map (eval s) l).
Proof.
  induction l as [|e l IH]; simpl; [reflexivity | rewrite IH; reflexivity].
Qed.

Lemma in_indices (r c i j : nat) :
  In (i, j) (indices r c) <-> (i < r)%nat /\ (j < c)%nat.
Proof.
  unfold indices; rewrite in_flat_map; split.
  - intros (i' & Hi & Hj). apply in_map_iff in Hj as (j' & Heq & Hj).
    inversion Heq; subst. apply in_seq in Hi, Hj. lia.
  - intros [Hi Hj]. exists i; split; [apply in_seq; lia|].
    apply in_map_iff; exists j; split; [reflexivity | apply in_seq; lia].
Qed.

Lemma Rsum_ext {A} (f g : A -> R) (l : list A) :
  (forall a, In a l -> f a = g a) -> Rsum (map f l) = Rsum (map g l).
Proof.
  intro H; induction l as [|a l IH]; simpl; [reflexivity|].
  rewrite (H a (or_introl eq_refl)), IH; [reflexivity|].
  intros; apply H; right; assumption.
Qed.

Lemma for_each_ext {A S} (l : list A) (body body' : A -> S -> result S) :
  (forall a s, In a l -> body a s = body' a s) ->
  forall s, for_each l body s = for_each l body' s.
Proof.
  induction l as [|a l IH]; intros H s; simpl; [reflexivity|].
  rewrite (H a s (or_introl eq_refl)).
  destruct (body' a s); simpl; [|reflexivity].
  apply IH; intros; apply H; right; assumption.
Qed.

(** ** Loss assembler *)








(** ** Parameter store *)

Section InitialisationFacts.

Variable rng : Type.
Variable normal_ : rng -> nat -> nat -> R -> (nat -> nat -> R) * rng.

Lemma write_leaf_same (s : store) (t : leaf) (d : nat -> nat -> R) :
  write_leaf s t d t = d.
Proof.
  unfold write_leaf.
  replace (leaf_eqb t t) with true; [reflexivity|].
  symmetry; apply leaf_eqb_eq; reflexivity.
Qed.

Lemma write_leaf_other (s : store) (t t' : leaf) (d : nat -> nat -> R) :
  t' <> t -> write_leaf s t d t' = s t'.
Proof.
  intro H; unfold write_leaf.
  destruct (leaf_eqb t' t) eqn:E; [|reflexivity].
  apply leaf_eqb_eq in E; contradiction.
Qed.

(** The loop of [initialize_NN] after its first [n] rounds. *)
Lemma init_rounds (layers : list nat) (st : store * rng) (n : nat) :
  (forall l, (l < n)%nat -> (0 < nth l layers 0 + nth (l + 1) layers 0)%nat) ->
  exists s' g',
    for_each (seq 0 n) (init_body normal_ layers) ([], [], st)
    = Ok (map (fun l => leaf_tensor (LWeight l) (nth l layers 0%nat)
                          (nth (l + 1) layers 0%nat)) (seq 0 n),
          map (fun l => leaf_tensor (LBias l) 1 (nth (l + 1) layers 0%nat)) (seq 0 n),
          (s', g')) /\
    forall l, (l < n)%nat -> forall i j, s' (LBias l) i j = 0.
Proof.
  induction n as [|n IH]; intro Hpos.
  - exists (fst st), (snd st); destruct st; simpl; split; [reflexivity | lia].
  - destruct IH as (s' & g' & Hrun & Hzero); [intros; apply Hpos; lia|].
    rewrite seq_S, for_each_app, Hrun; simpl.
    unfold xavier_init; simpl.
    specialize (Hpos n (Nat.lt_succ_diag_r n)).
    destruct (Nat.eqb_spec (nth (n + 1) layers 0 + nth n layers 0)%nat 0%nat); [lia|].
    destruct (normal_ g' (nth n layers 0%nat) (nth (n + 1) layers 0%nat) _)
      as [d g''] eqn:Ed; simpl.
    eexists _, g''; split.
    + rewrite !map_app; simpl. reflexivity.
    + intros l Hl i j.
      destruct (Nat.eq_dec l n) as [->|Hne].
      * rewrite write_leaf_same; reflexivity.
      * rewrite !write_leaf_other by (intro E; inversion E; contradiction).
        apply Hzero; lia.
Qed.

(** The tensors [initialize_NN] returns are the parameter leaves of the
    layer sizes. *)
Lemma initialize_NN_leaves (layers : list nat) (st : store * rng) :
Forall (fun n => (0 < n)%nat) layers ->
exists st',
  initialize_NN normal_ layers st
  = Ok (weight_leaves layers, bias_leaves layers, st').
Proof.
intro Hpos.
destruct (init_rounds layers st (List.length layers - 1)) as (s' & g' & Hrun & _).
{ intros l Hl. rewrite Forall_forall in Hpos.
  assert (0 < nth l layers 0)%nat by (apply Hpos, nth_In; lia). lia. }
exists (s', g'). exact Hrun.
Qed.


End InitialisationFacts.



(** ** Forward evaluator *)

Lemma broadcast_dim_one_r (n : nat) : broadcast_dim n 1 = Some n.
Proof.
  unfold broadcast_dim.
  destruct (Nat.eqb_spec n 1); [reflexivity|]. reflexivity.
Qed.

Lemma index_skipn {A} (l : list A) (off : nat) :
  index l off = match skipn off l with a :: _ => Ok a | [] => Raise IndexError end.
Proof.
  unfold index; revert l; induction off as [|off IH]; intros [|a l]; simpl; auto.
Qed.

Lemma skipn_step {A} (l l' : list A) (a : A) (off : nat) :
  skipn off l = a :: l' -> skipn (S off) l = l'.
Proof.
  revert l; induction off as [|off IH]; intros [|b l]; simpl; try discriminate.
  - intro H; inversion H; reflexivity.
  - intro H. destruct l as [|c l]; [destruct off; discriminate|].
    apply (IH (c :: l)); exact H.
Qed.

(** The indexed loop of [neural_net] is the recursion on the lists. *)
Lemma hidden_loop_run (weights biases : list tensor) (n : nat) :
  forall off H,
    for_each (seq off n) (hidden_body weights biases) H
    = run_hidden (skipn off weights) (skipn off biases) n H.
Proof.
  induction n as [|n IH]; intros off H; [reflexivity|].
  cbn [seq for_each run_hidden].
  unfold hidden_body at 1. rewrite !index_skipn.
  destruct (skipn off weights) as [|W ws] eqn:Ew; [reflexivity|].
  destruct (skipn off biases) as [|b bs] eqn:Eb; [reflexivity|].
  cbn [rbind].
  rewrite <- (skipn_step _ _ _ _ Ew), <- (skipn_step _ _ _ _ Eb).
  destruct (hidden_layer W b H); cbn [rbind]; [apply IH | reflexivity].
Qed.

Lemma index_last_cons {A} (a : A) (l : list A) :
  l <> [] -> index_last (a :: l) = index_last l.
Proof.
  intro Hne; unfold index_last; simpl.
  destruct (rev l) as [|b r] eqn:E; [|reflexivity].
  exfalso; apply Hne.
  rewrite <- (rev_involutive l), E; reflexivity.
Qed.

Lemma affine_ext (s : store) (W b : tensor) (h h' : nat -> R) (j : nat) :
  (forall k, (k < rows W)%nat -> h k = h' k) ->
  affine s W b h j = affine s W b h' j.
Proof.
  intro H; unfold affine; f_equal.
  apply Rsum_ext; intros k Hk; apply in_seq in Hk.
  rewrite H by lia; reflexivity.
Qed.

Lemma mlp_ext (s : store) (weights : list tensor) :
  forall biases n h h',
    weights <> [] -> chained n weights biases ->
    (forall k, (k < n)%nat -> h k = h' k) ->
    forall j, mlp s weights biases h j = mlp s weights biases h' j.
Proof.
  induction weights as [|W ws IH]; intros biases n h h' Hne Hch Hh j;
    [contradiction|].
  destruct biases as [|b bs]; [contradiction|].
  destruct Hch as (Hr & Hb1 & Hbc & Hch).
  destruct ws as [|W' ws].
  - simpl. apply affine_ext; intros k Hk; apply Hh; lia.
  - change (mlp s (W' :: ws) bs (fun j => tanh (affine s W b h j)) j
            = mlp s (W' :: ws) bs (fun j => tanh (affine s W b h' j)) j).
    apply (IH bs (cols W)); [discriminate | exact Hch |].
    intros k _; f_equal; apply affine_ext; intros k' Hk'; apply Hh; lia.
Qed.

Lemma affine_expr_ext (W b : tensor) (h h' : nat -> expr) (j : nat) :
  (forall k, (k < rows W)%nat -> h k = h' k) ->
  affine_expr W b h j = affine_expr W b h' j.
Proof.
  intro H; unfold affine_expr; do 2 f_equal.
  apply map_ext_in; intros k Hk; apply in_seq in Hk.
  rewrite H by lia; reflexivity.
Qed.

Lemma mlp_expr_ext (weights : list tensor) :
  forall biases n h h',
    weights <> [] -> chained n weights biases ->
    (forall k, (k < n)%nat -> h k = h' k) ->
    forall j, mlp_expr weights biases h j = mlp_expr weights biases h' j.
Proof.
  induction weights as [|W ws IH]; intros biases n h h' Hne Hch Hh j;
    [contradiction|].
  destruct biases as [|b bs]; [contradiction|].
  destruct Hch as (Hr & Hb1 & Hbc & Hch).
  destruct ws as [|W' ws].
  - simpl. apply affine_expr_ext; intros k Hk; apply Hh; lia.
  - change (mlp_expr (W' :: ws) bs (fun j => Tanh (affine_expr W b h j)) j
            = mlp_expr (W' :: ws) bs (fun j => Tanh (affine_expr W b h' j)) j).
    apply (IH bs (cols W)); [discriminate | exact Hch |].
    intros k _; f_equal; apply affine_expr_ext; intros k' Hk'; apply Hh; lia.
Qed.

Lemma eval_affine_expr (s : store) (W b : tensor) (h : nat -> expr) (j : nat) :
  eval s (affine_expr W b h j) = affine s W b (fun k => eval s (h k)) j.
Proof.
  unfold affine_expr, affine; simpl.
  rewrite eval_esum, map_map; reflexivity.
Qed.

Lemma eval_mlp_expr_with (s : store) (weights : list tensor) :
  forall biases h hR j,
    (forall k, eval s (h k) = hR k) ->
    eval s (mlp_expr weights biases h j) = mlp s weights biases hR j.
Proof.
  induction weights as [|W ws IH]; intros biases h hR j Hh; [apply Hh|].
  destruct biases as [|b bs]; [destruct ws; apply Hh|].
  assert (Ha : forall k, eval s (affine_expr W b h k) = affine s W b hR k).
  { intro k. rewrite eval_affine_expr. apply affine_ext; intros; apply Hh. }
  destruct ws as [|W' ws].
  - apply Ha.
  - change (eval s (mlp_expr (W' :: ws) bs (fun j => Tanh (affine_expr W b h j)) j)
            = mlp s (W' :: ws) bs (fun j => tanh (affine s W b hR j)) j).
    apply IH. intro k; cbn [eval]. rewrite Ha; reflexivity.
Qed.

Lemma eval_mlp_expr (s : store) (weights biases : list tensor) (h : nat -> expr)
  (j : nat) :
  eval s (mlp_expr weights biases h j)
  = mlp s weights biases (fun k => eval s (h k)) j.
Proof. apply eval_mlp_expr_with; reflexivity. Qed.

(** [torch.add(torch.matmul(H, W), b)] on well-shaped operands. *)
Lemma affine_tensor (W b H : tensor) :
  cols H = rows W -> rows b = 1%nat -> cols b = cols W ->
  exists Z,
    rbind (matmul H W) (fun HW => add HW b) = Ok Z /\
    rows Z = rows H /\ cols Z = cols W /\
    requires_grad Z = (requires_grad H || requires_grad W || requires_grad b)%bool /\
    forall i j, (i < rows H)%nat -> (j < cols W)%nat ->
      entry Z i j = affine_expr W b (fun k => entry H i k) j.
Proof.
  intros Hc Hb1 Hbc.
  unfold matmul, add, pointwise.
  rewrite Hc, Nat.eqb_refl; simpl.
  rewrite Hb1, Hbc, broadcast_dim_one_r, broadcast_dim_same.
  eexists; split; [reflexivity|]; simpl.
  split; [reflexivity|]. split; [reflexivity|]. split; [reflexivity|].
  intros i j Hi Hj.
  rewrite !bidx_lt by assumption.
  unfold affine_expr, bidx; simpl. reflexivity.
Qed.

Lemma hidden_layer_value (W b H : tensor) :
  cols H = rows W -> rows b = 1%nat -> cols b = cols W ->
  exists H1,
    hidden_layer W b H = Ok H1 /\
    rows H1 = rows H /\ cols H1 = cols W /\
    forall i j, (i < rows H)%nat -> (j < cols W)%nat ->
      entry H1 i j = Tanh (affine_expr W b (fun k => entry H i k) j).
Proof.
  intros Hc Hb1 Hbc.
  destruct (affine_tensor W b H Hc Hb1 Hbc) as (Z & HZ & Hr & Hcz & _ & Hv).
  unfold hidden_layer.
  unfold rbind in HZ.
  destruct (matmul H W) as [HW|]; [|discriminate]; simpl.
  rewrite HZ; simpl.
  eexists; split; [reflexivity|]; simpl.
  split; [exact Hr|]. split; [exact Hcz|].
  intros i j Hi Hj. rewrite Hv by assumption. reflexivity.
Qed.

(** The layers of [neural_net] from a well-shaped intermediate [H] onwards
    build the nodes of the reference network on every row of [H]. *)
Lemma layers_value (weights : list tensor) :
  forall biases n H,
    weights <> [] -> chained n weights biases -> cols H = n ->
    exists Hk W b Y,
      run_hidden weights biases (List.length weights - 1) H = Ok Hk /\
      index_last weights = Ok W /\ index_last biases = Ok b /\
      rbind (matmul Hk W) (fun HW => add HW b) = Ok Y /\
      rows Y = rows H /\ cols Y = cols W /\
      requires_grad Y = (requires_grad Hk || requires_grad W || requires_grad b)%bool /\
      forall i j, (i < rows H)%nat -> (j < cols W)%nat ->
        entry Y i j = mlp_expr weights biases (fun k => entry H i k) j.
Proof.
  induction weights as [|W ws IH]; intros biases n H Hne Hch HcH; [contradiction|].
  destruct biases as [|b bs]; [contradiction|].
  destruct Hch as (Hr & Hb1 & Hbc & Hch).
  destruct ws as [|W' ws].
  - destruct bs; [|contradiction].
    destruct (affine_tensor W b H) as (Y & HY & HrY & HcY & Hg & Hv); try congruence.
    exists H, W, b, Y. simpl. repeat split; auto.
  - destruct bs as [|b' bs]; [contradiction|].
    destruct (hidden_layer_value W b H) as (H1 & HH1 & Hr1 & Hc1 & Hv1); try congruence.
    destruct (IH (b' :: bs) (cols W) H1)
      as (Hk & Wl & bl & Y & Hrun & HW & Hb & HY & HrY & HcY & Hg & Hv);
      [discriminate | exact Hch | exact Hc1 |].
    exists Hk, Wl, bl, Y.
    split.
    { replace (List.length (W :: W' :: ws) - 1)%nat
        with (S (List.length (W' :: ws) - 1)) by (simpl; lia).
      cbn [run_hidden]. rewrite HH1; cbn [rbind]. exact Hrun. }
    split; [rewrite index_last_cons by discriminate; exact HW|].
    split; [rewrite index_last_cons by discriminate; exact Hb|].
    split; [exact HY|].
    split; [congruence|]. split; [exact HcY|]. split; [exact Hg|].
    intros i j Hi Hj.
    rewrite Hv by (rewrite ?Hr1; assumption).
    change (mlp_expr (W :: W' :: ws) (b :: b' :: bs) (fun k => entry H i k) j)
      with (mlp_expr (W' :: ws) (b' :: bs)
              (fun j => Tanh (affine_expr W b (fun k => entry H i k) j)) j).
    apply (mlp_expr_ext (W' :: ws) (b' :: bs) (cols W)); [discriminate | exact Hch |].
    intros k Hk'. apply Hv1; assumption.
Qed.

(** [neural_net] on two columns of [N] rows: the result has [N] rows, as
    many columns as the last weight, and on each row the nodes of the
    reference network over the concatenated row. *)
Lemma neural_net_nodes (x y : tensor) (weights biases : list tensor) (N : nat) :
  weights <> [] -> chained 2 weights biases ->
  shape x = (N, 1%nat) -> shape y = (N, 1%nat) ->
  exists u W b,
    neural_net x y weights biases = Ok u /\
    index_last weights = Ok W /\ index_last biases = Ok b /\
    shape u = (N, cols W) /\
    (requires_grad b = true -> requires_grad u = true) /\
    forall i j, (i < N)%nat -> (j < cols W)%nat ->
      entry u i j
      = mlp_expr weights biases
          (fun k => if (k =? 0)%nat then entry x i 0%nat else entry y i 0%nat) j.
Proof.
  intros Hne Hch Hx Hy.
  unfold shape in Hx, Hy. inversion Hx as [[Hrx Hcx]]. inversion Hy as [[Hry Hcy]].
  unfold neural_net, cat1.
  rewrite Hrx, Hry, Nat.eqb_refl; cbn [rbind].
  replace (List.length weights + 1 - 2)%nat with (List.length weights - 1)%nat by lia.
  rewrite (hidden_loop_run weights biases (List.length weights - 1) 0); cbn [skipn].
  match goal with
  | |- context [run_hidden weights biases _ ?H0] =>
      destruct (layers_value weights biases 2 H0 Hne Hch)
        as (Hk & W & b & Y & Hrun & HW & Hb & HY & HrY & HcY & Hg & Hv);
        [simpl; rewrite Hcx, Hcy; reflexivity|]
  end.
  rewrite Hrun; cbn [rbind]. rewrite HW, Hb; cbn [rbind].
  exists Y, W, b. split; [exact HY|]. split; [reflexivity|]. split; [reflexivity|].
  simpl in HrY. unfold shape. rewrite HrY, HcY.
  split; [reflexivity|].
  split; [intro Hbg; rewrite Hg, Hbg; apply orb_true_r|].
  intros i j Hi Hj.
  rewrite Hv by (simpl; assumption).
  apply (mlp_expr_ext weights biases 2 _ _ Hne Hch).
  intros k Hk'. simpl. rewrite Hcx.
  destruct k as [|[|k]]; [reflexivity | reflexivity | lia].
Qed.

(** C6: for a network of [k >= 1] well-shaped weight/bias pairs and two
    columns [x], [y] of [N] rows, [neural_net] concatenates [x] and [y] into
    an [(N, 2)] input and returns a tensor of [N] rows and as many columns
    as the last weight has (so [(N, 1)] when the final width is 1), whose
    row [i] is the reference network (hyperbolic tangent after every pair
    but the last, the last pair affine) applied to row [i] of the
    concatenation. *)
Theorem neural_net_evaluates (x y : tensor) (weights biases : list tensor) (N : nat) :
  weights <> [] -> chained 2 weights biases ->
  shape x = (N, 1%nat) -> shape y = (N, 1%nat) ->
  exists H0 u W,
    cat1 x y = Ok H0 /\ shape H0 = (N, 2%nat) /\
    (forall i, entry H0 i 0%nat = entry x i 0%nat /\
               entry H0 i 1%nat = entry y i 0%nat) /\
    neural_net x y weights biases = Ok u /\
    index_last weights = Ok W /\
    shape u = (N, cols W) /\
    (cols W = 1%nat -> shape u = (N, 1%nat)) /\
    forall s i j, (i < N)%nat -> (j < cols W)%nat ->
      eval s (entry u i j)
      = evaluate s weights biases (eval s (entry x i 0%nat)) (eval s (entry y i 0%nat)) j.
Proof.
  intros Hne Hch Hx Hy.
  destruct (neural_net_nodes x y weights biases N Hne Hch Hx Hy)
    as (u & W & b & Hu & HW & _ & Hs & _ & Hv).
  assert (Hcat : exists H0, cat1 x y = Ok H0 /\ shape H0 = (N, 2%nat) /\
                   forall i, entry H0 i 0%nat = entry x i 0%nat /\
                             entry H0 i 1%nat = entry y i 0%nat).
  { unfold shape in Hx, Hy. unfold cat1.
    replace (rows x) with N by congruence. replace (rows y) with N by congruence.
    rewrite Nat.eqb_refl. eexists; split; [reflexivity|].
    unfold shape; simpl.
    replace (cols x) with 1%nat by congruence. replace (cols y) with 1%nat by congruence.
    split; [reflexivity|]. intro i; split; reflexivity. }
  destruct Hcat as (H0 & Hc0 & Hs0 & He0).
  exists H0, u, W. split; [exact Hc0|]. split; [exact Hs0|]. split; [exact He0|].
  split; [exact Hu|]. split; [exact HW|]. split; [exact Hs|].
  split; [intro Hc; rewrite Hs, Hc; reflexivity|].
  intros s i j Hi Hj.
  rewrite Hv by assumption. rewrite eval_mlp_expr. unfold evaluate.
  apply (mlp_ext s weights biases 2 _ _ Hne Hch).
  intros k _. destruct (k =? 0)%nat; reflexivity.
Qed.

Lemma neural_net_evaluates_witness :
  exists H0 u W,
    cat1 (column 0) (column 1) = Ok H0 /\ shape H0 = (1%nat, 2%nat) /\
    (forall i, entry H0 i 0%nat = entry (column 0) i 0%nat /\
               entry H0 i 1%nat = entry (column 1) i 0%nat) /\
    neural_net (column 0) (column 1) (weights tiny) (biases tiny) = Ok u /\
    index_last (weights tiny) = Ok W /\
    shape u = (1%nat, cols W) /\
    (cols W = 1%nat -> shape u = (1%nat, 1%nat)) /\
    forall s i j, (i < 1)%nat -> (j < cols W)%nat ->
      eval s (entry u i j)
      = evaluate s (weights tiny) (biases tiny)
          (eval s (entry (column 0) i 0%nat)) (eval s (entry (column 1) i 0%nat)) j.
Proof.
  apply (neural_net_evaluates (column 0) (column 1) (weights tiny) (biases tiny) 1).
  - discriminate.
  - simpl; repeat split.
  - reflexivity.
  - reflexivity.
Defined.


(** ** Gradients onto the parameters *)

(** The value of a gradient entry is the derivative of the scalar with
    respect to the corresponding slot of the leaf, at the current store. *)
Lemma grad_entry_derivative (st : store) (e : expr) (v : var) :
  derivable_pt_lim (fun a => eval (upd st v a) e) (at_var st v)
    (eval st (grad_or_zero (backprop e (Const 1) v))).
Proof.
  rewrite backprop_sound; simpl; rewrite Rmult_1_l.
  rewrite <- (deriv_ext (upd st v (at_var st v)) st e v (upd_at st v)).
  apply deriv_sound.
Qed.


Lemma grad_all_length (st : store) (s : scalar) (params : list tensor) :
  forall grads, grad_all st s params = Ok grads ->
                List.length grads = List.length params.
Proof.
  induction params as [|p ps IH]; simpl; intros grads H.
  - inversion H; reflexivity.
  - destruct (grad_entries s p); simpl in H; [|discriminate].
    destruct (grad_all st s ps); simpl in H; [|discriminate].
    inversion H; simpl; f_equal; apply IH; reflexivity.
Qed.

Lemma write_slot_same (g : leaf -> option table) (t : leaf) (d : option table) :
  write_slot g t d t = d.
Proof.
  unfold write_slot.
  replace (leaf_eqb t t) with true; [reflexivity|].
  symmetry; apply leaf_eqb_eq; reflexivity.
Qed.

Lemma write_slot_other (g : leaf -> option table) (t t' : leaf) (d : option table) :
  t' <> t -> write_slot g t d t' = g t'.
Proof.
  intro H; unfold write_slot.
  destruct (leaf_eqb t' t) eqn:E; [|reflexivity].
  apply leaf_eqb_eq in E; contradiction.
Qed.

(** The assignment loop of [customized_backward] after [n] rounds: slots of
    other leaves are as before, and the slot of each parameter met so far
    holds a gradient handed out for that leaf. *)
Lemma attach_rounds (params : list tensor) (grads : list table)
  (g0 : leaf -> option table) (n : nat) :
  List.length grads = List.length params -> (n <= List.length params)%nat ->
  let slots := fold_left (attach params grads) (seq 0 n) g0 in
  (forall t, (forall vid p, (vid < n)%nat -> nth_error params vid = Some p ->
                            leaf_of p <> Some t) ->
             slots t = g0 t) /\
  (forall vid p t, (vid < n)%nat -> nth_error params vid = Some p ->
                   leaf_of p = Some t ->
     exists vid' p' d, nth_error params vid' = Some p' /\ leaf_of p' = Some t /\
                       nth_error grads vid' = Some d /\ slots t = Some d).
Proof.
  intros Hlen; induction n as [|n IH]; intro Hn; cbv zeta.
  - split; [reflexivity | intros; lia].
  - destruct IH as [IHout IHin]; [lia|].
    rewrite seq_S, fold_left_app; cbn [fold_left Nat.add].
    destruct (nth_error params n) as [p|] eqn:Ep;
      [|apply nth_error_None in Ep; lia].
    destruct (nth_error grads n) as [d|] eqn:Ed;
      [|apply nth_error_None in Ed; lia].
    unfold attach at 1 3; rewrite Ep, Ed.
    destruct (leaf_of p) as [t0|] eqn:El.
    + split.
      * intros t Hout.
        rewrite write_slot_other
          by (intros ->; apply (Hout n p); [lia | exact Ep | exact El]).
        apply IHout; intros vid q Hv; apply Hout; lia.
      * intros vid q t Hv Hq Hlq.
        destruct (leaf_eqb t t0) eqn:E.
        -- apply leaf_eqb_eq in E; subst t0.
           exists n, p, d. rewrite write_slot_same. auto.
        -- assert (t <> t0) by (intros ->; rewrite (proj2 (leaf_eqb_eq t0 t0) eq_refl) in E;
                                 discriminate).
           assert (vid <> n) by (intros ->; congruence).
           destruct (IHin vid q t) as (vid' & p' & d' & H1 & H2 & H3 & H4);
             [lia | exact Hq | exact Hlq |].
           exists vid', p', d'. rewrite write_slot_other by assumption. auto.
    + split.
      * intros t Hout. apply IHout; intros vid q Hv; apply Hout; lia.
      * intros vid q t Hv Hq Hlq.
        assert (vid <> n) by (intros ->; congruence).
        apply (IHin vid q t); [lia | exact Hq | exact Hlq].
Qed.




(** ** Optimizer driver and history *)

Lemma customized_backward_frame (loss : scalar) (params : list tensor) (m : machine) :
  self (fst (customized_backward loss params m)) = self m /\
  data (fst (customized_backward loss params m)) = data m.
Proof.
  unfold customized_backward.
  destruct (grad_all (data m) loss params); simpl; auto.
Qed.

(** One evaluation of the loss, as the closure and the loop of [train] run
    it: if it completes, exactly the value of the returned loss has been
    appended to the history; if it raises, the history is as before or one
    entry longer; the data of the leaves is never touched. *)
Lemma evaluate_loss_history {St} (o : Optimizer St)
  (x_tensors y_tensors true_dict : dict tensor) (loss_func : loss_callable)
  (m : machine) :
  let m' := fst (evaluate_loss o x_tensors y_tensors true_dict loss_func m) in
  let r := snd (evaluate_loss o x_tensors y_tensors true_dict loss_func m) in
  data m' = data m /\
  (forall l, r = Ok l ->
     loss_list (self m') = loss_list (self m) ++ [eval (data m) (sval l)]) /\
  (forall e, r = Raise e ->
     loss_list (self m') = loss_list (self m) \/
     exists v, loss_list (self m') = loss_list (self m) ++ [v]).
Proof.
  unfold evaluate_loss, mbind, modify, gets, lift, mret; simpl.
  destruct (forward (self m) x_tensors y_tensors (Some roles)) as [pd|e1]; simpl.
  2:{ repeat split; [discriminate | auto]. }
  destruct (loss_func pd true_dict) as [l|e2]; simpl.
  2:{ repeat split; [discriminate | auto]. }
  match goal with
  | |- context [customized_backward l ?ps ?m1] =>
      destruct (customized_backward_frame l ps m1) as [Hs Hd];
        destruct (customized_backward l ps m1) as [m3 [g|e3]] eqn:Ecb
  end; simpl in *; rewrite Hs, Hd.
  - split.
    { destruct (_ =? 0)%nat; reflexivity. }
    split; [|discriminate].
    intros l' Hl; inversion Hl; subst l'.
    destruct (_ =? 0)%nat; reflexivity.
  - split.
    { destruct (_ =? 0)%nat; reflexivity. }
    split; [discriminate|].
    intros e _; right; eexists.
    destruct (_ =? 0)%nat; reflexivity.
Qed.

Lemma evaluate_loss_appends_one {St} (o : Optimizer St)
  (x_tensors y_tensors true_dict : dict tensor) (loss_func : loss_callable) :
  appends_one (evaluate_loss o x_tensors y_tensors true_dict loss_func).
Proof.
  intro m.
  destruct (evaluate_loss_history o x_tensors y_tensors true_dict loss_func m)
    as (_ & Hok & Herr).
  destruct (evaluate_loss o x_tensors y_tensors true_dict loss_func m) as [m' [l|e]];
    simpl in *.
  - eexists; apply Hok; reflexivity.
  - destruct (Herr e eq_refl) as [H|[v H]]; rewrite H.
    + exists []; rewrite app_nil_r; reflexivity.
    + eexists; reflexivity.
Qed.

Lemma rest_history (x_tensors y_tensors true_dict : dict tensor)
  (loss_func : loss_callable) (m : machine) :
  loss_list (self (fst (rest x_tensors y_tensors true_dict loss_func m)))
  = loss_list (self m).
Proof.
  unfold rest, mbind, modify, gets, lift; simpl.
  destruct (forward (self m) x_tensors y_tensors (Some roles)); simpl; [|reflexivity].
  destruct (loss_func a true_dict); reflexivity.
Qed.

(** The quasi-Newton iteration: the history only grows, and when the step
    returns it has grown by the number of closure evaluations counted. *)
Lemma lbfgs_iterate_history {St} (closure : M scalar) :
  appends_one closure ->
  forall budget (o : Optimizer St) l m,
    let '(m', o', r) := lbfgs_iterate budget closure o l m in
    exists new,
      loss_list (self m') = loss_list (self m) ++ new /\
      (func_evals o <= func_evals o')%nat /\
      (r = Ok tt -> List.length new = (func_evals o' - func_evals o)%nat).
Proof.
  intros Hcl; induction budget as [|budget IH]; intros o l m; simpl.
  - exists []; rewrite app_nil_r, Nat.sub_diag; auto.
  - destruct (next o (opt_state o) (data m) (grad_slot m) l) as [params|st params].
    + exists []; rewrite app_nil_r, Nat.sub_diag; auto.
    + pose proof (Hcl (set_data m params)) as Hc.
      destruct (closure (set_data m params)) as [m2 [loss|e]]; simpl in Hc.
      * destruct Hc as [v Hv].
        match goal with
        | |- context [lbfgs_iterate budget closure ?o2 ?l2 m2] =>
            specialize (IH o2 l2 m2);
              destruct (lbfgs_iterate budget closure o2 l2 m2) as [[m' o'] r]
        end.
        destruct IH as (new & Hnew & Hle & Hok); simpl in *.
        exists (v :: new). rewrite Hnew, Hv, <- app_assoc; simpl.
        split; [reflexivity|]. split; [lia|].
        intro Hr; rewrite (Hok Hr); lia.
      * destruct Hc as [new Hnew]. exists new; simpl.
        split; [exact Hnew|]. split; [lia | discriminate].
Qed.

Lemma step_closure_history {St} (closure : M scalar) (o : Optimizer St) (m : machine) :
  appends_one closure ->
  let '(m', o', r) := step_closure o closure m in
  exists new,
    loss_list (self m') = loss_list (self m) ++ new /\
    (r = Ok tt -> List.length new = (func_evals o' - func_evals o)%nat /\
                  (1 <= List.length new)%nat).
Proof.
  intro Hcl; unfold step_closure.
  pose proof (Hcl m) as Hc.
  destruct (closure m) as [m1 [loss|e]].
  - destruct Hc as [v Hv].
    match goal with
    | |- context [lbfgs_iterate ?b closure ?o2 ?l2 m1] =>
        pose proof (lbfgs_iterate_history closure Hcl b o2 l2 m1) as H;
          destruct (lbfgs_iterate b closure o2 l2 m1) as [[m' o'] r]
    end.
    destruct H as (new & Hnew & Hle & Hok); simpl in *.
    exists (v :: new). rewrite Hnew, Hv, <- app_assoc; simpl.
    split; [reflexivity|].
    intro Hr; rewrite (Hok Hr); lia.
  - destruct Hc as [new Hnew]. exists new; split; [exact Hnew | discriminate].
Qed.

Lemma step_frame {St} (o : Optimizer St) (m : machine) :
  self (fst (step o m)) = self m /\ n_steps (snd (step o m)) = S (n_steps o) /\
  func_evals (snd (step o m)) = func_evals o.
Proof.
  unfold step. destruct (update o (opt_state o) (data m) (grad_slot m)); simpl; auto.
Qed.

(** The loop of [train]: the history only grows; when the loop completes,
    it ran [n] rounds, each with one appended loss and one optimizer
    update. *)
Lemma train_loop_history {St} (x_tensors y_tensors true_dict : dict tensor)
  (loss_func : loss_callable) :
  forall n (o : Optimizer St) m,
    let '(m', o', r) := train_loop n x_tensors y_tensors true_dict loss_func o m in
    exists new,
      loss_list (self m') = loss_list (self m) ++ new /\
      (List.length new <= n)%nat /\
      (r = Ok tt -> List.length new = n /\ n_steps o' = (n_steps o + n)%nat).
Proof.
  induction n as [|n IH]; intros o m; simpl.
  - exists []; rewrite app_nil_r; auto.
  - pose proof (evaluate_loss_history o x_tensors y_tensors true_dict loss_func m)
      as (_ & Hok & Herr).
    destruct (evaluate_loss o x_tensors y_tensors true_dict loss_func m)
      as [m1 [l|e]]; simpl in Hok, Herr.
    + pose proof (Hok l eq_refl) as Hv.
      destruct (step_frame o m1) as (Hs & Hn & _).
      destruct (step o m1) as [m2 o2]; simpl in Hs, Hn.
      specialize (IH o2 m2).
      destruct (train_loop n x_tensors y_tensors true_dict loss_func o2 m2)
        as [[m' o'] r].
      destruct IH as (new & Hnew & Hle & Hrun).
      exists (eval (data m) (sval l) :: new).
      rewrite Hnew, Hs, Hv, <- app_assoc; simpl.
      split; [reflexivity|]. split; [lia|].
      intro Hr; destruct (Hrun Hr); lia.
    + destruct (Herr e eq_refl) as [H|[v H]].
      * exists []; rewrite app_nil_r; simpl.
        split; [exact H|]. split; [lia | discriminate].
      * exists [v]; simpl.
        split; [exact H|]. split; [lia | discriminate].
Qed.


(** C8: the loss history is append-only.  [callback] appends one value and
    [customized_backward] leaves the history alone.  One loss evaluation
    (the closure of [train_LBFGS], one round of [train]) leaves the old
    entries in place and, when it completes, appends exactly the value of
    its loss.  A run of [train_LBFGS] leaves the old entries in place and,
    when it returns, has appended as many entries as closure evaluations
    were counted (at least one); a run of [train] leaves the old entries in
    place and, when it returns, has appended [epoch] entries. *)
Theorem loss_history_append_only {St} (o : Optimizer St) (loss_func : loss_callable)
  (x_tensors y_tensors true_dict : dict tensor)
  (train_dict : dict point_set) (global_train_dict : option (dict point_set))
  (epoch : nat) (u_data f_data bc_data : point_set) (m : machine)
  (l : scalar) (params : list tensor) :
  loss_list (self (callback l m)) = loss_list (self m) ++ [eval (data m) (sval l)] /\
  loss_list (self (fst (customized_backward l params m))) = loss_list (self m) /\
  (let '(m', r) := evaluate_loss o x_tensors y_tensors true_dict loss_func m in
   exists new,
     loss_list (self m') = loss_list (self m) ++ new /\
     (forall l, r = Ok l -> new = [eval (data m) (sval l)])) /\
  (let '(m', o', r) := train_LBFGS train_dict loss_func o m in
   exists new,
     loss_list (self m') = loss_list (self m) ++ new /\
     (r = Ok tt ->
      List.length new = (func_evals o' - func_evals o)%nat /\
      (1 <= List.length new)%nat)) /\
  (let '(m', o', r) :=
     train global_train_dict epoch u_data f_data bc_data loss_func o m in
   exists new,
     loss_list (self m') = loss_list (self m) ++ new /\
     (r = Ok tt -> List.length new = epoch)).
Proof.
  split; [reflexivity|].
  split; [rewrite (proj1 (customized_backward_frame l params m)); reflexivity|].
  split; [|split].
  - pose proof (evaluate_loss_history o x_tensors y_tensors true_dict loss_func m)
      as (_ & Hok & Herr).
    destruct (evaluate_loss o x_tensors y_tensors true_dict loss_func m)
      as [m' [l0|e]]; simpl in Hok, Herr.
    + exists [eval (data m) (sval l0)]; split; [apply Hok; reflexivity|].
      intros l' H; inversion H; reflexivity.
    + destruct (Herr e eq_refl) as [H|[v H]].
      * exists []; rewrite app_nil_r; split; [exact H | discriminate].
      * exists [v]; split; [exact H | discriminate].
  - unfold train_LBFGS.
    destruct (unzip_train_dict train_dict None) as [[[xs ys] ts]|e].
    2:{ exists []; rewrite app_nil_r; split; [reflexivity | discriminate]. }
    pose proof (step_closure_history (evaluate_loss o xs ys ts loss_func) o m
                  (evaluate_loss_appends_one o xs ys ts loss_func)) as H.
    destruct (step_closure o (evaluate_loss o xs ys ts loss_func) m) as [[m1 o1] [[]|e]].
    + destruct H as (new & Hnew & Hok).
      pose proof (rest_history xs ys ts loss_func m1) as Hrest.
      destruct (rest xs ys ts loss_func m1) as [m2 r]; simpl in Hrest.
      exists new; rewrite Hrest; split; [exact Hnew|].
      intros _; apply Hok; reflexivity.
    + destruct H as (new & Hnew & _).
      exists new; split; [exact Hnew | discriminate].
  - unfold train.
    destruct global_train_dict as [td|].
    2:{ exists []; rewrite app_nil_r; split; [reflexivity | discriminate]. }
    destruct (unzip_train_dict td None) as [[[xs ys] ts]|e].
    2:{ exists []; rewrite app_nil_r; split; [reflexivity | discriminate]. }
    pose proof (train_loop_history xs ys ts loss_func epoch o m) as H.
    destruct (train_loop epoch xs ys ts loss_func o m) as [[m1 o1] [[]|e]].
    + destruct H as (new & Hnew & _ & Hok).
      pose proof (rest_history xs ys ts loss_func m1) as Hrest.
      destruct (rest xs ys ts loss_func m1) as [m2 r]; simpl in Hrest.
      exists new; rewrite Hrest; split; [exact Hnew|].
      intros _; apply Hok; reflexivity.
    + destruct H as (new & Hnew & _).
      exists new; split; [exact Hnew | discriminate].
Qed.

Lemma loss_history_append_only_witness :
  exists new,
    loss_list (self (fst (fst (train_LBFGS tiny_train_dict plain_loss (countdown 2)
                                 tiny_machine))))
    = loss_list (self tiny_machine) ++ new /\
    List.length new = 3%nat /\
  exists new',
    loss_list (self (fst (fst (train (Some tiny_train_dict) 2
                                 (column 0, column 1, column 1)
                                 (column 0, column 1, column 1)
                                 (column 0, column 1, column 1)
                                 plain_loss (countdown 0) tiny_machine))))
    = loss_list (self tiny_machine) ++ new' /\
    List.length new' = 2%nat.
Proof.
  destruct (loss_history_append_only (countdown 2) plain_loss [] [] []
              tiny_train_dict None 0
              (column 0, column 1, column 1) (column 0, column 1, column 1)
              (column 0, column 1, column 1) tiny_machine square_loss [])
    as (_ & _ & _ & Hl & _).
  destruct (loss_history_append_only (countdown 0) plain_loss [] [] []
              tiny_train_dict (Some tiny_train_dict) 2
              (column 0, column 1, column 1) (column 0, column 1, column 1)
              (column 0, column 1, column 1) tiny_machine square_loss [])
    as (_ & _ & _ & _ & Ht).
  destruct (train_LBFGS tiny_train_dict plain_loss (countdown 2) tiny_machine)
    as [[m1 o1] r1] eqn:E1.
  destruct (train (Some tiny_train_dict) 2 _ _ _ plain_loss (countdown 0) tiny_machine)
    as [[m2 o2] r2] eqn:E2.
  destruct Hl as (new & Hnew & Hok). destruct Ht as (new' & Hnew' & Hok').
  exists new; split; [exact Hnew|]. split.
  - assert (Hr : r1 = Ok tt)
      by (change r1 with (snd (m1, o1, r1)); rewrite <- E1; reflexivity).
    assert (Ho : func_evals o1 = 3%nat)
      by (change o1 with (snd (fst (m1, o1, r1))); rewrite <- E1; reflexivity).
    destruct (Hok Hr) as [Hlen _]. rewrite Hlen, Ho. reflexivity.
  - exists new'; split; [exact Hnew'|].
    apply Hok'. change r2 with (snd (m2, o2, r2)); rewrite <- E2; reflexivity.
Defined.


(** C4 (where the code departs from the specification): [train]
    never reads the data it is given; it looks [train_dict] up among the
    globals and, where no such global exists, raises [NameError] before the
    first iteration, whatever [epoch] and the data are. *)
Theorem train_reads_global_train_dict {St} (global_train_dict : option (dict point_set))
  (epoch : nat) (u_data f_data bc_data : point_set) (loss_func : loss_callable)
  (o : Optimizer St) (m : machine) :
  train None epoch u_data f_data bc_data loss_func o m
  = (m, o, Raise (NameError "train_dict")) /\
  forall u_data' f_data' bc_data',
    train global_train_dict epoch u_data f_data bc_data loss_func o m
    = train global_train_dict epoch u_data' f_data' bc_data' loss_func o m.
Proof. split; reflexivity. Qed.

(** With [train_dict] bound among the globals, a run of [train] that
    returns has made [epoch] rounds: [epoch] losses recorded and [epoch]
    optimizer updates. *)
Lemma train_counts_rounds {St} (train_dict : dict point_set) (epoch : nat)
  (u_data f_data bc_data : point_set) (loss_func : loss_callable)
  (o : Optimizer St) (m : machine) :
  let '(m', o', r) :=
    train (Some train_dict) epoch u_data f_data bc_data loss_func o m in
  r = Ok tt ->
  List.length (loss_list (self m')) = (List.length (loss_list (self m)) + epoch)%nat /\
  n_steps o' = (n_steps o + epoch)%nat.
Proof.
  unfold train.
  destruct (unzip_train_dict train_dict None) as [[[xs ys] ts]|e]; [|discriminate].
  pose proof (train_loop_history xs ys ts loss_func epoch o m) as H.
  destruct (train_loop epoch xs ys ts loss_func o m) as [[m1 o1] [[]|e]];
    [|discriminate].
  destruct H as (new & Hnew & _ & Hok).
  pose proof (rest_history xs ys ts loss_func m1) as Hrest.
  destruct (rest xs ys ts loss_func m1) as [m2 r]; simpl in Hrest.
  intros _. rewrite Hrest, Hnew, length_app.
  destruct (Hok eq_refl) as [-> ->]. auto.
Qed.


(** ** Sum-then-gradient, twice *)

Lemma derivable_pt_lim_shift (h g : R -> R) (C a0 d : R) :
  (forall a, h a = C + g a) -> derivable_pt_lim h a0 d -> derivable_pt_lim g a0 d.
Proof.
  intros Heq Hd eps Heps.
  destruct (Hd eps Heps) as [delta Hdelta].
  exists delta; intros x Hx Hlt.
  replace (g (a0 + x) - g a0) with (h (a0 + x) - h a0) by (rewrite !Heq; ring).
  apply Hdelta; assumption.
Qed.


Lemma Rsum_change_in (F G : nat -> R) (i : nat) (l : list nat) :
  NoDup l -> In i l -> (forall k, In k l -> k <> i -> F k = G k) ->
  Rsum (map F l) = Rsum (map G l) - G i + F i.
Proof.
  induction 1 as [|a l Hnotin Hnd IH]; intros Hin Hsame; [contradiction|].
  simpl. destruct (Nat.eq_dec a i) as [->|Hne].
  - rewrite (Rsum_ext F G l); [lra|].
    intros k Hk; apply Hsame; [right; exact Hk | intros ->; contradiction].
  - destruct Hin as [Ha|Hin]; [contradiction|].
    rewrite IH; [|exact Hin | intros; apply Hsame; [right|]; assumption].
    rewrite (Hsame a (or_introl eq_refl) Hne). lra.
Qed.

Lemma eval_upd_at (s : store) (v : var) (e : expr) :
  eval (upd s v (at_var s v)) e = eval s e.
Proof. apply eval_ext, upd_at. Qed.

Section SumThenGradient.

(** A column of [N] nodes whose [i]-th node is, as a function of the store,
    [phi i] applied to the [i]-th slot of the leaf [t], where [phi i] does
    not depend on the slots of [t]. *)
Variable t : leaf.
Variable N : nat.
Variable e : nat -> expr.
Variable phi : nat -> store -> R -> R.
Hypothesis row_value :
  forall s i, (i < N)%nat -> eval s (e i) = phi i s (s t i 0%nat).
Hypothesis row_frame :
  forall s i i' a b, phi i' (upd s (t, i, 0%nat) a) b = phi i' s b.

Lemma upd_other_row (s : store) (i i' : nat) (a : R) :
  i' <> i -> upd s (t, i, 0%nat) a t i' 0%nat = s t i' 0%nat.
Proof.
  intro H; unfold upd.
  rewrite var_eqb_neq; [reflexivity|].
  intro E; inversion E; contradiction.
Qed.

Lemma upd_this_row (s : store) (i : nat) (a : R) :
  upd s (t, i, 0%nat) a t i 0%nat = a.
Proof. unfold upd; rewrite var_eqb_refl; reflexivity. Qed.

Lemma sum_in_one_slot (s : store) (i : nat) (a : R) :
  (i < N)%nat ->
  eval (upd s (t, i, 0%nat) a) (esum (map e (seq 0 N)))
  = (eval s (esum (map e (seq 0 N))) - phi i s (s t i 0%nat)) + phi i s a.
Proof.
  intro Hi. rewrite !eval_esum, !map_map.
  rewrite (Rsum_change_in (fun k => eval (upd s (t, i, 0%nat) a) (e k))
             (fun k => eval s (e k)) i).
  - rewrite !row_value by exact Hi.
    rewrite row_frame, upd_this_row. reflexivity.
  - apply seq_NoDup.
  - apply in_seq; lia.
  - intros k Hk Hne. apply in_seq in Hk.
    rewrite !row_value by lia.
    rewrite row_frame, upd_other_row by exact Hne. reflexivity.
Qed.

(** The first gradient of row [i] is the derivative of [phi i], at every
    value of the slot. *)
Lemma first_gradient_derivative (s : store) (i : nat) (a0 : R) :
  (i < N)%nat ->
  derivable_pt_lim (phi i s) a0
    (eval (upd s (t, i, 0%nat) a0) (first_gradient t N e i)).
Proof.
  intro Hi.
  apply (derivable_pt_lim_shift
           (fun a => eval (upd s (t, i, 0%nat) a) (esum (map e (seq 0 N))))
           (phi i s)
           (eval s (esum (map e (seq 0 N))) - phi i s (s t i 0%nat))).
  - intro a; apply sum_in_one_slot; exact Hi.
  - unfold first_gradient. rewrite backprop_sound; simpl; rewrite Rmult_1_l.
    apply deriv_sound.
Qed.




End SumThenGradient.

(** ** Which slots a gradient still depends on *)

Lemma occurs_esum (v : var) (l : list expr) :
  occurs v (esum l) = existsb (occurs v) l.
Proof.
  induction l as [|a l IH]; simpl; [reflexivity | rewrite IH; reflexivity].
Qed.





Lemma occurs_affine_expr (v : var) (W b : tensor) (h : nat -> expr) (j : nat) :
  (exists k, (k < rows W)%nat /\ occurs v (h k) = true) ->
  occurs v (affine_expr W b h j) = true.
Proof.
  intros (k & Hk & Hv). unfold affine_expr; simpl.
  rewrite occurs_esum. apply orb_true_iff; left.
  apply existsb_exists. exists (Mul (h k) (entry W k j)); split.
  - apply in_map_iff; exists k; split; [reflexivity | apply in_seq; lia].
  - simpl; rewrite Hv; reflexivity.
Qed.




Lemma used_intro (t : leaf) (r c i j : nat) (e : expr) :
  (i < r)%nat -> (j < c)%nat -> occurs (t, i, j) e = true -> used t r c e = true.
Proof.
  intros Hi Hj Ho. unfold used, slots.
  apply existsb_exists. exists (t, i, j); split; [|exact Ho].
  apply in_map_iff. exists (i, j); split; [reflexivity|].
  apply in_indices; auto.
Qed.

Lemma indices_column (N : nat) :
  indices N 1 = map (fun i => (i, 0%nat)) (seq 0 N).
Proof.
  unfold indices; simpl.
  induction (seq 0 N) as [|a l IH]; simpl; [reflexivity | rewrite IH; reflexivity].
Qed.


(** ** The network of a model object *)

Lemma chained_from (layers : list nat) (n : nat) :
  forall off,
    chained (nth off layers 0%nat)
      (map (fun l => leaf_tensor (LWeight l) (nth l layers 0%nat) (nth (l + 1) layers 0%nat))
           (seq off n))
      (map (fun l => leaf_tensor (LBias l) 1 (nth (l + 1) layers 0%nat)) (seq off n)).
Proof.
  induction n as [|n IH]; intro off; simpl; [exact I|].
  repeat split.
  rewrite Nat.add_1_r. apply IH.
Qed.

Lemma chained_leaves (layers : list nat) :
  chained (nth 0 layers 0%nat) (weight_leaves layers) (bias_leaves layers).
Proof. apply chained_from. Qed.

Lemma weight_leaves_length (layers : list nat) :
  List.length (weight_leaves layers) = (List.length layers - 1)%nat.
Proof. unfold weight_leaves; rewrite length_map, length_seq; reflexivity. Qed.

Lemma weight_leaves_positive (layers : list nat) :
  Forall (fun n => (0 < n)%nat) layers ->
  Forall (fun W => (0 < rows W)%nat) (weight_leaves layers).
Proof.
  intro Hpos. apply Forall_forall. intros W HW.
  apply in_map_iff in HW as (l & <- & Hl). apply in_seq in Hl. simpl.
  rewrite Forall_forall in Hpos. apply Hpos, nth_In. lia.
Qed.

Lemma index_last_snoc {A} (l : list A) (a : A) : index_last (l ++ [a]) = Ok a.
Proof. unfold index_last; rewrite rev_app_distr; reflexivity. Qed.

Lemma last_weight_leaf (layers : list nat) (W : tensor) :
  (2 <= List.length layers)%nat ->
  index_last (weight_leaves layers) = Ok W ->
  cols W = nth (List.length layers - 1) layers 0%nat.
Proof.
  intros Hlen. unfold weight_leaves.
  destruct (List.length layers - 1)%nat as [|n] eqn:E; [lia|].
  rewrite seq_S, map_app; simpl. rewrite index_last_snoc.
  intro H; inversion H; simpl. rewrite Nat.add_1_r. reflexivity.
Qed.

Lemma last_bias_leaf (layers : list nat) (b : tensor) :
  index_last (bias_leaves layers) = Ok b -> requires_grad b = true.
Proof.
  unfold bias_leaves.
  destruct (List.length layers - 1)%nat as [|n]; [discriminate|].
  rewrite seq_S, map_app; simpl. rewrite index_last_snoc.
  intro H; inversion H; reflexivity.
Qed.

(** The reference network reads the store at the entries of its weights
    and biases only. *)
Lemma mlp_store_ext (s s' : store) (weights : list tensor) :
  forall biases h h',
    (forall W k j, In W weights -> eval s (entry W k j) = eval s' (entry W k j)) ->
    (forall b k j, In b biases -> eval s (entry b k j) = eval s' (entry b k j)) ->
    (forall k, h k = h' k) ->
    forall j, mlp s weights biases h j = mlp s' weights biases h' j.
Proof.
  induction weights as [|W ws IH]; intros biases h h' HW Hb Hh j; [apply Hh|].
  destruct biases as [|b bs]; [destruct ws; apply Hh|].
  assert (Ha : forall k, affine s W b h k = affine s' W b h' k).
  { intro k; unfold affine.
    rewrite (Hb b 0%nat k (or_introl eq_refl)). f_equal.
    apply Rsum_ext; intros k' _.
    rewrite Hh, (HW W k' k (or_introl eq_refl)); reflexivity. }
  destruct ws as [|W' ws].
  - apply Ha.
  - change (mlp s (W' :: ws) bs (fun j => tanh (affine s W b h j)) j
            = mlp s' (W' :: ws) bs (fun j => tanh (affine s' W b h' j)) j).
    apply IH.
    + intros; apply HW; right; assumption.
    + intros; apply Hb; right; assumption.
    + intro k; rewrite Ha; reflexivity.
Qed.

(** Moving a coordinate does not move the network of a model object. *)
Lemma evaluate_input_frame (s : store) (layers : list nat) (n i : nat) (a p q : R) :
  evaluate (upd s (LInput n, i, 0%nat) a) (weight_leaves layers) (bias_leaves layers) p q 0%nat
  = evaluate s (weight_leaves layers) (bias_leaves layers) p q 0%nat.
Proof.
  unfold evaluate. apply mlp_store_ext; [| |reflexivity].
  - intros W k j HW. apply in_map_iff in HW as (l & <- & _). reflexivity.
  - intros b k j Hb. apply in_map_iff in Hb as (l & <- & _). reflexivity.
Qed.


(** [grad(u.sum(), x)] for a column [u] and a column leaf [x]. *)
Lemma grad_column (u : tensor) (t : leaf) (N : nat) :
  rows u = N -> cols u = 1%nat -> requires_grad u = true ->
  used t N 1 (esum (map (fun i => entry u i 0%nat) (seq 0 N))) = true ->
  exists g,
    grad (tsum u) (leaf_tensor t N 1) = Ok g /\
    rows g = N /\ cols g = 1%nat /\
    forall i, entry g i 0%nat = first_gradient t N (fun i => entry u i 0%nat) i.
Proof.
  intros Hr Hc Hg Hu.
  assert (Hs : sval (tsum u) = esum (map (fun i => entry u i 0%nat) (seq 0 N))).
  { unfold tsum, entries; simpl. rewrite Hr, Hc, indices_column, map_map. reflexivity. }
  unfold grad, grad_entries.
  rewrite Hs. simpl. rewrite Hg, Hu. simpl.
  eexists; split; [reflexivity|]. simpl. auto.
Qed.

(** ** The PDE residual *)

Lemma input_slot_apart (s : store) (t t' i i' : nat) (a : R) :
  t' <> t -> upd s (LInput t, i, 0%nat) a (LInput t') i' 0%nat = s (LInput t') i' 0%nat.
Proof.
  intro H; unfold upd. rewrite var_eqb_neq; [reflexivity|].
  intro E; inversion E; contradiction.
Qed.




(** * Further properties of the code *)

(** ** Failures of the forward evaluator *)

(** X1: [neural_net] rejects columns of different heights before it looks at
    the parameters, and with heights that agree it raises [IndexError]
    when the list of weights or the list of biases is empty. *)
Theorem neural_net_rejects (x y : tensor) (weights biases : list tensor) :
  (rows x <> rows y ->
   neural_net x y weights biases
   = Raise (RuntimeError "Sizes of tensors must match except in dimension 1")) /\
  (rows x = rows y -> weights = [] \/ biases = [] ->
   neural_net x y weights biases = Raise IndexError).
Proof.
  split.
  - intro Hne. unfold neural_net, cat1.
    destruct (Nat.eqb_spec (rows x) (rows y)); [contradiction | reflexivity].
  - intros Heq Hempty. unfold neural_net, cat1.
    rewrite Heq, Nat.eqb_refl; cbn [rbind].
    destruct Hempty as [-> | ->]; [reflexivity|].
    destruct weights as [|W [|W' ws]]; [reflexivity| |].
    + reflexivity.
    + replace (List.length (W :: W' :: ws) + 1 - 2)%nat with (S (List.length ws))
        by (simpl; lia).
      reflexivity.
Qed.

Lemma neural_net_rejects_witness :
  neural_net (column 0) (leaf_tensor (LInput 1) 2 1) (weights tiny) (biases tiny)
  = Raise (RuntimeError "Sizes of tensors must match except in dimension 1") /\
  neural_net (column 0) (column 1) [] (biases tiny) = Raise IndexError.
Proof.
  destruct (neural_net_rejects (column 0) (leaf_tensor (LInput 1) 2 1)
              (weights tiny) (biases tiny)) as [H1 _].
  destruct (neural_net_rejects (column 0) (column 1) [] (biases tiny)) as [_ H2].
  split; [apply H1; simpl; lia | apply H2; [reflexivity | left; reflexivity]].
Defined.

Lemma grad_untracked (s : scalar) (x : tensor) :
  requires_grad x = false -> exists e, grad s x = Raise e.
Proof.
  intro H. unfold grad, grad_entries.
  destruct (negb (s_requires_grad s)); [simpl; eauto|].
  destruct (leaf_of x); [|simpl; eauto].
  rewrite H; simpl; eauto.
Qed.

(** X2: A coordinate column that is not gradient-tracked is never
    differentiated against: [net_du] and [net_f] raise, and so does
    [forward] for the roles [nuem] and [f] when asked first. *)
Theorem derivatives_need_tracked_inputs (self : PhysicsInformedNN) (x y : tensor) :
  requires_grad x = false \/ requires_grad y = false ->
  (exists e, net_du self x y = Raise e) /\
  (exists e, net_f self x y = Raise e) /\
  (forall i keys, i = "nuem"%string \/ i = "f"%string ->
     exists e, forward self [(i, x)] [(i, y)] (Some (i :: keys)) = Raise e).
Proof.
  intro H.
  assert (Hdu : exists e, net_du self x y = Raise e).
  { unfold net_du.
    destruct (neural_net x y (weights self) (biases self)) as [u|e]; [|simpl; eauto].
    cbn [rbind].
    destruct (requires_grad x) eqn:Ex.
    - destruct H as [H|H]; [discriminate|].
      destruct (grad (tsum u) x); cbn [rbind]; [|eauto].
      destruct (grad_untracked (tsum u) y H) as [e ->]; simpl; eauto.
    - destruct (grad_untracked (tsum u) x Ex) as [e ->]; simpl; eauto. }
  assert (Hf : exists e, net_f self x y = Raise e).
  { unfold net_f. destruct Hdu as [e ->]; simpl; eauto. }
  split; [exact Hdu|]. split; [exact Hf|].
  intros i keys Hi. unfold forward; cbn [for_each].
  rewrite forward_body_served.
  assert (Hr : is_role i = true) by (destruct Hi as [-> | ->]; reflexivity).
  rewrite Hr. unfold served, getitem; simpl. rewrite String.eqb_refl; simpl.
  unfold route.
  destruct Hi as [-> | ->]; simpl.
  - destruct Hdu as [e ->]; simpl; eauto.
  - destruct Hf as [e ->]; simpl; eauto.
Qed.

Lemma derivatives_need_tracked_inputs_witness :
  (exists e, net_du tiny (const_tensor (one_by_one 0)) (column 1) = Raise e) /\
  (exists e, net_f tiny (const_tensor (one_by_one 0)) (column 1) = Raise e).
Proof.
  destruct (derivatives_need_tracked_inputs tiny (const_tensor (one_by_one 0)) (column 1))
    as (H1 & H2 & _); [left; reflexivity|].
  split; assumption.
Defined.

(** ** Unpacking the training data *)

(** One round of the loop of [unzip_train_dict]. *)
Lemma unzip_rounds (train_dict : dict point_set) (keys : list string) :
  forall xs ys ts,
    (forall k, In k keys -> dget train_dict k <> None) ->
    exists xs' ys' ts',
      for_each keys
        (fun i '(x_tensors, y_tensors, true_dict) =>
           (p0 <- getitem train_dict i ;;
            p1 <- getitem train_dict i ;;
            p2 <- getitem train_dict i ;;
            Ok (setitem x_tensors i (fst (fst p0)),
                setitem y_tensors i (snd (fst p1)),
                setitem true_dict i (snd p2)))%result)
        (xs, ys, ts) = Ok (xs', ys', ts') /\
      forall k,
        dget xs' k = (if in_dec string_dec k keys
                      then option_map (fun p => fst (fst p)) (dget train_dict k)
                      else dget xs k) /\
        dget ys' k = (if in_dec string_dec k keys
                      then option_map (fun p => snd (fst p)) (dget train_dict k)
                      else dget ys k) /\
        dget ts' k = (if in_dec string_dec k keys
                      then option_map snd (dget train_dict k)
                      else dget ts k).
Proof.
  induction keys as [|a keys IH]; intros xs ys ts Hall.
  - exists xs, ys, ts; split; [reflexivity | intro k; auto].
  - cbn [for_each]. unfold getitem at 1 2 3.
    destruct (dget train_dict a) as [[[px py] pt]|] eqn:Ea;
      [|exfalso; apply (Hall a (or_introl eq_refl)); exact Ea].
    cbn [rbind fst snd].
    destruct (IH (setitem xs a px) (setitem ys a py) (setitem ts a pt))
      as (xs' & ys' & ts' & Hrun & Hget); [intros; apply Hall; right; assumption|].
    exists xs', ys', ts'; split; [exact Hrun|].
    intro k. destruct (Hget k) as (Hx & Hy & Ht). rewrite Hx, Hy, Ht.
    simpl. destruct (in_dec string_dec k keys) as [Hin|Hnin].
    + destruct (string_dec a k); auto.
    + destruct (string_dec a k) as [->|Hne].
      * rewrite !dget_setitem_same, Ea. auto.
      * rewrite !dget_setitem_other by exact Hne. auto.
Qed.

Lemma unzip_missing (train_dict : dict point_set) (keys : list string) :
  forall acc,
    (exists k, In k keys /\ dget train_dict k = None) ->
    exists k,
      In k keys /\ dget train_dict k = None /\
      for_each keys
        (fun i '(x_tensors, y_tensors, true_dict) =>
           (p0 <- getitem train_dict i ;;
            p1 <- getitem train_dict i ;;
            p2 <- getitem train_dict i ;;
            Ok (setitem x_tensors i (fst (fst p0)),
                setitem y_tensors i (snd (fst p1)),
                setitem true_dict i (snd p2)))%result)
        acc = Raise (KeyError k).
Proof.
  induction keys as [|a keys IH]; intros [[xs ys] ts] (k & Hin & Hk);
    [contradiction|].
  cbn [for_each]. unfold getitem at 1 2 3.
  destruct (dget train_dict a) as [[[px py] pt]|] eqn:Ea.
  - cbn [rbind fst snd].
    destruct Hin as [->|Hin]; [congruence|].
    destruct (IH (setitem xs a px, setitem ys a py, setitem ts a pt))
      as (k' & Hin' & Hk' & Hrun); [eauto|].
    exists k'; split; [right; exact Hin'|]. split; assumption.
  - exists a; split; [left; reflexivity|]. split; [exact Ea | reflexivity].
Qed.

(** X3: [unzip_train_dict] without [keys] never fails and splits the training
    data role by role: looking a role up in the three dictionaries gives the
    three components of what the training data holds for it.  With [keys]
    given, it raises [KeyError] at a requested role the training data lacks,
    and otherwise returns dictionaries over exactly the requested roles. *)
Theorem unzip_train_dict_splits (train_dict : dict point_set) :
  (exists xs ys ts,
     unzip_train_dict train_dict None = Ok (xs, ys, ts) /\
     forall k,
       dget xs k = option_map (fun p => fst (fst p)) (dget train_dict k) /\
       dget ys k = option_map (fun p => snd (fst p)) (dget train_dict k) /\
       dget ts k = option_map snd (dget train_dict k)) /\
  (forall keys,
     (exists k, In k keys /\ dget train_dict k = None) ->
     exists k, In k keys /\ dget train_dict k = None /\
               unzip_train_dict train_dict (Some keys) = Raise (KeyError k)) /\
  (forall keys,
     (forall k, In k keys -> dget train_dict k <> None) ->
     exists xs ys ts,
       unzip_train_dict train_dict (Some keys) = Ok (xs, ys, ts) /\
       forall k,
         (In k (dkeys xs) <-> In k keys) /\
         (In k keys ->
          dget xs k = option_map (fun p => fst (fst p)) (dget train_dict k) /\
          dget ys k = option_map (fun p => snd (fst p)) (dget train_dict k) /\
          dget ts k = option_map snd (dget train_dict k))).
Proof.
  split; [|split].
  - destruct (unzip_rounds train_dict (dkeys train_dict) [] [] [])
      as (xs & ys & ts & Hrun & Hget).
    { intros k Hk. apply dget_in_keys in Hk as [v Hv]. congruence. }
    exists xs, ys, ts; split; [exact Hrun|].
    intro k. destruct (Hget k) as (Hx & Hy & Ht). rewrite Hx, Hy, Ht.
    destruct (in_dec string_dec k (dkeys train_dict)) as [Hin|Hnin]; [auto|].
    destruct (dget train_dict k) eqn:E; [|auto].
    exfalso; apply Hnin; apply dget_in_keys; eauto.
  - intros keys Hmiss. apply (unzip_missing train_dict keys ([], [], []) Hmiss).
  - intros keys Hall.
    destruct (unzip_rounds train_dict keys [] [] [] Hall)
      as (xs & ys & ts & Hrun & Hget).
    exists xs, ys, ts; split; [exact Hrun|].
    intro k. destruct (Hget k) as (Hx & Hy & Ht). split.
    + rewrite dget_in_keys, Hx.
      destruct (in_dec string_dec k keys) as [Hin|Hnin].
      * split; [auto|]. intros _.
        destruct (dget train_dict k) eqn:E; [simpl; eauto|].
        exfalso; apply (Hall k Hin); exact E.
      * split; [intros [v Hv]; discriminate | contradiction].
    + intro Hin. rewrite Hx, Hy, Ht.
      destruct (in_dec string_dec k keys); [auto | contradiction].
Qed.

Lemma unzip_train_dict_splits_witness :
  (exists k, In k ["diri"%string; "w"%string] /\ dget tiny_train_dict k = None /\
             unzip_train_dict tiny_train_dict (Some ["diri"%string; "w"%string])
             = Raise (KeyError k)) /\
  (exists xs ys ts,
     unzip_train_dict tiny_train_dict (Some ["f"%string]) = Ok (xs, ys, ts) /\
     forall k,
       (In k (dkeys xs) <-> In k ["f"%string]) /\
       (In k ["f"%string] ->
        dget xs k = option_map (fun p => fst (fst p)) (dget tiny_train_dict k) /\
        dget ys k = option_map (fun p => snd (fst p)) (dget tiny_train_dict k) /\
        dget ts k = option_map snd (dget tiny_train_dict k))).
Proof.
  destruct (unzip_train_dict_splits tiny_train_dict) as (_ & Hmiss & Hall).
  split.
  - apply Hmiss. exists "w"%string; split; [simpl; auto | reflexivity].
  - apply Hall. intros k [<-|[]]; discriminate.
Defined.

(** ** The bundle of the router *)

Lemma dkeys_blank (keys : list string) (i : string) :
  In i (dkeys (blank keys [])) <-> In i keys.
Proof.
  rewrite dget_in_keys, dget_blank.
  destruct (in_dec string_dec i keys); split; eauto; try contradiction.
  intros [v Hv]; discriminate.
Qed.

(** X4: With [keys] given, [forward] returns exactly when every requested role
    has a point-set its evaluator accepts; the bundle then has an entry for
    each requested key and for nothing else, and each requested role is
    mapped to the result of its evaluator on the point-set of that role. *)
Theorem forward_bundle (self : PhysicsInformedNN)
  (x_tensors y_tensors : dict tensor) (keys : list string) :
  is_ok (forward self x_tensors y_tensors (Some keys))
  = forallb (fun i => negb (is_role i) || is_ok (served self x_tensors y_tensors i)) keys /\
  forall preds,
    forward self x_tensors y_tensors (Some keys) = Ok preds ->
    (forall i, In i (dkeys preds) <-> In i keys) /\
    (forall i, In i keys -> is_role i = true ->
       exists t, served self x_tensors y_tensors i = Ok t /\
                 dget preds i = Some (Some t)).
Proof.
  split.
  - unfold forward.
    rewrite <- (forward_loop_ok self x_tensors y_tensors keys (blank keys [])).
    destruct (for_each keys _ _) as [[p|]|] eqn:E; try reflexivity.
    apply forward_loop_bound in E as (p' & Hp & _); discriminate.
  - intros preds H. split; [|apply (forward_routes_roles _ _ _ _ _ H)].
    unfold forward in H.
    destruct (for_each keys (forward_body self x_tensors y_tensors) (Some (blank keys [])))
      as [r|] eqn:E; simpl in H; [|discriminate].
    apply forward_loop_bound in E as (p' & -> & Hfix & Hout & Hin).
    inversion H; subst preds.
    intro i. destruct (in_dec string_dec i keys) as [Hi|Hi].
    + split; [auto|]. intros _. apply dget_in_keys.
      destruct (is_role i) eqn:Er.
      * destruct (Hin i Hi Er) as (t & _ & Ht); eauto.
      * rewrite (Hfix i Er). apply dget_in_keys, dkeys_blank; exact Hi.
    + split; [|contradiction]. intro Hk.
      apply (proj1 (dget_in_keys _ _)) in Hk. rewrite (Hout i Hi) in Hk.
      apply (proj2 (dget_in_keys _ _)) in Hk.
      apply (proj1 (dkeys_blank _ _)) in Hk. exact Hk.
Qed.

Lemma forward_bundle_witness :
  exists preds,
    forward tiny [("diri"%string, column 6)] [("diri"%string, column 7)]
      (Some ["diri"%string; "w"%string]) = Ok preds /\
    (forall i, In i (dkeys preds) <-> In i ["diri"%string; "w"%string]) /\
    (forall i, In i ["diri"%string; "w"%string] -> is_role i = true ->
       exists t, served tiny [("diri"%string, column 6)] [("diri"%string, column 7)] i = Ok t /\
                 dget preds i = Some (Some t)).
Proof.
  destruct (forward tiny [("diri"%string, column 6)] [("diri"%string, column 7)]
              (Some ["diri"%string; "w"%string])) as [preds|e] eqn:E;
    [|discriminate E].
  exists preds; split; [reflexivity|].
  apply (proj2 (forward_bundle tiny [("diri"%string, column 6)]
                  [("diri"%string, column 7)] ["diri"%string; "w"%string])).
  exact E.
Defined.

(** ** The value and the failures of the loss *)








Lemma loss_loop_fails (pred_dict : dict (option tensor)) (true_dict : dict tensor)
  (w : dict R) (keys : list string) :
  (exists k, In k keys /\
             forall loss, exists e, loss_body pred_dict true_dict w k loss = Raise e) ->
  forall loss0, exists e, for_each keys (loss_body pred_dict true_dict w) loss0 = Raise e.
Proof.
  induction keys as [|k keys IH]; intros (k0 & Hin & Hbad) loss0; simpl;
    [contradiction|].
  destruct (loss_body pred_dict true_dict w k loss0) as [l|e] eqn:E; simpl;
    [|eauto].
  destruct Hin as [->|Hin]; [|apply IH; eauto].
  destruct (Hbad loss0) as [e He]. congruence.
Qed.

(** X6: [loss_func] does not score a bundle it cannot score in full: it raises
    when a role of the predictions is mapped to [None] (a key the router
    skipped), when explicit weights lack a role of the predictions, and when
    a prediction and its target have shapes that do not broadcast. *)
Theorem loss_func_rejects (pred_dict : dict (option tensor)) (true_dict : dict tensor)
  (weights : option (dict R)) :
  (exists k, In k (dkeys pred_dict) /\
     (dget pred_dict k = Some None \/
      (exists w, weights = Some w /\ dget w k = None) \/
      (exists p t, dget pred_dict k = Some (Some p) /\ dget true_dict k = Some t /\
                   (broadcast_dim (rows p) (rows t) = None \/
                    broadcast_dim (cols p) (cols t) = None)))) ->
  exists e, loss_func pred_dict true_dict weights = Raise e.
Proof.
  intros (k & Hin & Hbad). unfold loss_func.
  match goal with
  | |- context [for_each ?ks (loss_body ?p ?t ?w) ?l0] =>
      destruct (loss_loop_fails p t w ks) with (loss0 := l0) as [e He]
  end.
  - exists k; split; [exact Hin|]. intro loss.
    unfold loss_body, getitem.
    destruct Hbad as [Hnone | [(w & -> & Hw) | (p & t & Hp & Ht & Hshape)]].
    + rewrite Hnone; simpl. destruct (dget true_dict k); simpl; eauto.
    + destruct (dget pred_dict k) as [[p|]|]; simpl; eauto;
        destruct (dget true_dict k) as [t|]; simpl; eauto.
      destruct (sub p t); simpl; eauto. rewrite Hw; simpl; eauto.
    + rewrite Hp, Ht; simpl. unfold sub, pointwise.
      destruct Hshape as [-> | ->]; simpl; eauto.
      destruct (broadcast_dim (rows p) (rows t)); simpl; eauto.
  - exists e. rewrite He. reflexivity.
Qed.

Lemma loss_func_rejects_witness :
  exists e, loss_func [("w"%string, None)] [("w"%string, const_tensor (one_by_one 0))] None
            = Raise e.
Proof.
  apply (loss_func_rejects [("w"%string, None)]
           [("w"%string, const_tensor (one_by_one 0))] None).
  exists "w"%string; split; [left; reflexivity | left; reflexivity].
Defined.

(** ** What a gradient computation commits to *)

Lemma grad_entries_inv (s : scalar) (p : tensor) (g : nat -> nat -> expr) :
  grad_entries s p = Ok g ->
  s_requires_grad s = true /\ reaches s p /\
  exists t, leaf_of p = Some t /\
            g = fun i j => grad_or_zero (backprop (sval s) (Const 1) (t, i, j)).
Proof.
  unfold grad_entries, reaches.
  destruct (s_requires_grad s); simpl; [|discriminate].
  destruct (leaf_of p) as [t|]; [|discriminate].
  destruct (requires_grad p); simpl; [|discriminate].
  destruct (used t (rows p) (cols p) (sval s)) eqn:Eu; simpl; [|discriminate].
  intro H; inversion H. split; [reflexivity|]. split.
  - exists t; auto.
  - exists t; auto.
Qed.

Lemma grad_all_inv (st : store) (s : scalar) (params : list tensor) :
  forall grads,
    grad_all st s params = Ok grads ->
    grads = map (grad_table st s) params /\ Forall (reaches s) params /\
    (params <> [] -> s_requires_grad s = true).
Proof.
  induction params as [|p ps IH]; intros grads H; simpl in H.
  - inversion H. split; [reflexivity|]. split; [constructor | congruence].
  - destruct (grad_entries s p) as [g|] eqn:Eg; simpl in H; [|discriminate].
    destruct (grad_all st s ps) as [gs|] eqn:Egs; simpl in H; [|discriminate].
    inversion H; subst grads; clear H.
    destruct (IH gs eq_refl) as (-> & Hall & _).
    apply grad_entries_inv in Eg as (Hs & Hreach & t & Hl & ->).
    split; [|split; [constructor; assumption | intros _; exact Hs]].
    simpl. f_equal. unfold grad_table. rewrite Hl. reflexivity.
Qed.



Lemma attach_all (params : list tensor) (grads : list table)
  (g0 : leaf -> option table) :
  List.length grads = List.length params ->
  forall p t, In p params -> leaf_of p = Some t ->
    exists p' d, In p' params /\ leaf_of p' = Some t /\
                 In (p', d) (combine params grads) /\
                 fold_left (attach params grads) (seq 0 (List.length params)) g0 t
                 = Some d.
Proof.
  intros Hlen p t Hin Hl.
  apply In_nth_error in Hin as [vid Hvid].
  destruct (attach_rounds params grads g0 (List.length params) Hlen (le_n _))
    as [_ Hin'].
  destruct (Hin' vid p t) as (vid' & p' & d & Hp' & Hl' & Hd & Hslot);
    [apply nth_error_Some; congruence | exact Hvid | exact Hl |].
  exists p', d. split; [eapply nth_error_In; exact Hp'|]. split; [exact Hl'|].
  split; [|exact Hslot].
  assert (Hc : nth_error (combine params grads) vid' = Some (p', d)).
  { clear - Hp' Hd. revert params grads Hp' Hd.
    induction vid' as [|v IH]; intros [|a ps] [|b gs]; simpl; try discriminate.
    - intros H1 H2; inversion H1; inversion H2; reflexivity.
    - apply IH. }
  eapply nth_error_In; exact Hc.
Qed.

Lemma customized_backward_ok (loss : scalar) (params : list tensor)
  (m m' : machine) (grads : list table) :
  customized_backward loss params m = (m', Ok grads) ->
  data m' = data m /\ self m' = self m /\ stdout m' = stdout m /\
  forall p, In p params ->
    exists t g,
      leaf_of p = Some t /\ grad_slot m' t = Some g /\
      forall i j,
        derivable_pt_lim (fun a => eval (upd (data m) (t, i, j) a) (sval loss))
          (data m t i j) (tdata g i j).
Proof.
  unfold customized_backward.
  destruct (grad_all (data m) loss params) as [gs|e] eqn:Eg; [|discriminate].
  intro H; inversion H; subst m' grads; clear H. simpl.
  split; [reflexivity|]. split; [reflexivity|]. split; [reflexivity|].
  intros p Hp.
  pose proof (grad_all_length _ _ _ _ Eg) as Hlen.
  apply grad_all_inv in Eg as (-> & Hall & _).
  rewrite Forall_forall in Hall.
  destruct (Hall p Hp) as (t & Hl & _).
  destruct (attach_all _ _ (grad_slot m) Hlen p t Hp Hl)
    as (p' & d & Hp' & Hl' & Hc & Hslot).
  exists t, d. split; [exact Hl|]. split; [exact Hslot|].
  intros i j.
  assert (Hd : d = grad_table (data m) loss p').
  { clear - Hc. revert Hc.
    induction params as [|a ps IH]; simpl; [contradiction|].
    intros [E|E]; [inversion E; reflexivity | apply IH; exact E]. }
  subst d. unfold grad_table; simpl. rewrite Hl'.
  apply (grad_entry_derivative (data m) (sval loss) (t, i, j)).
Qed.

(** X8: One completed loss evaluation (the closure of [train_LBFGS], one round
    of [train]) moves no parameter, and leaves in the [.grad] slot of every
    weight and bias the gradient of the very loss it returns: entry by
    entry the derivative of that loss with respect to the parameter entry.
    It prints a line exactly when the new length of the history is a
    multiple of 100, and the line shows that length and the loss just
    computed. *)
Theorem evaluate_loss_refreshes_gradients {St} (o : Optimizer St)
  (x_tensors y_tensors true_dict : dict tensor) (loss_func : loss_callable)
  (m m' : machine) (l : scalar) :
  evaluate_loss o x_tensors y_tensors true_dict loss_func m = (m', Ok l) ->
  data m' = data m /\
  weights (self m') = weights (self m) /\ biases (self m') = biases (self m) /\
  (forall p, In p (weights (self m) ++ biases (self m)) ->
     exists t g,
       leaf_of p = Some t /\ grad_slot m' t = Some g /\
       forall i j,
         derivable_pt_lim (fun a => eval (upd (data m) (t, i, j) a) (sval l))
           (data m t i j) (tdata g i j)) /\
  loss_list (self m') = loss_list (self m) ++ [eval (data m) (sval l)] /\
  stdout m'
  = stdout m
    ++ (if (List.length (loss_list (self m')) mod 100 =? 0)%nat
        then [(List.length (loss_list (self m')), eval (data m) (sval l))]
        else []).
Proof.
  unfold evaluate_loss, mbind, modify, gets, lift, mret; simpl.
  destruct (forward (self m) x_tensors y_tensors (Some roles)) as [pd|e1]; simpl;
    [|discriminate].
  destruct (loss_func pd true_dict) as [l0|e2]; simpl; [|discriminate].
  match goal with
  | |- context [customized_backward l0 ?ps ?m1] =>
      destruct (customized_backward l0 ps m1) as [m3 [g|e3]] eqn:Ecb;
        [|discriminate];
        apply customized_backward_ok in Ecb as (Hd & Hs & Ho & Hg)
  end.
  intro H; inversion H; subst m3 l0; clear H.
  rewrite Hd, Hs, Ho. clear Hd Hs Ho.
  destruct (_ =? 0)%nat eqn:En; simpl in *; rewrite ?En;
    (split; [reflexivity|]); (split; [reflexivity|]); (split; [reflexivity|]);
    (split; [exact Hg|]); (split; [reflexivity|]).
  - rewrite last_last. reflexivity.
  - rewrite app_nil_r. reflexivity.
Qed.

Lemma evaluate_loss_refreshes_gradients_witness :
  exists m' l,
    evaluate_loss (countdown 0) tiny_xs tiny_ys tiny_ts plain_loss tiny_machine
    = (m', Ok l) /\
    data m' = data tiny_machine /\
    loss_list (self m') = [eval zero_store (sval l)] /\
    forall p, In p (weights tiny ++ biases tiny) ->
      exists t g,
        leaf_of p = Some t /\ grad_slot m' t = Some g /\
        forall i j,
          derivable_pt_lim (fun a => eval (upd zero_store (t, i, j) a) (sval l))
            (zero_store t i j) (tdata g i j).
Proof.
  destruct (evaluate_loss (countdown 0) tiny_xs tiny_ys tiny_ts plain_loss tiny_machine)
    as [m' [l|e]] eqn:E; [|discriminate E].
  exists m', l. split; [reflexivity|].
  destruct (evaluate_loss_refreshes_gradients (countdown 0) tiny_xs tiny_ys tiny_ts
              plain_loss tiny_machine m' l E) as (Hd & _ & _ & Hg & Hl & _).
  split; [exact Hd|]. split; [exact Hl | exact Hg].
Defined.

(** ** What training leaves behind *)

Lemma same_network_refl (s : PhysicsInformedNN) : same_network s s.
Proof. repeat split. Qed.

Lemma same_network_trans (a b c : PhysicsInformedNN) :
  same_network a b -> same_network b c -> same_network a c.
Proof.
  intros (H1 & H2 & H3) (H4 & H5 & H6). repeat split; congruence.
Qed.

Lemma forward_same_network (s s' : PhysicsInformedNN)
  (x_tensors y_tensors : dict tensor) (keys : option (list string)) :
  same_network s s' ->
  forward s' x_tensors y_tensors keys = forward s x_tensors y_tensors keys.
Proof.
  intros (_ & Hw & Hb). unfold forward.
  destruct keys as [ks|]; f_equal; apply for_each_ext; intros i p _;
    unfold forward_body, net_du, net_f, net_du, net_u; rewrite Hw, Hb; reflexivity.
Qed.

Lemma evaluate_loss_network {St} (o : Optimizer St)
  (x_tensors y_tensors true_dict : dict tensor) (loss_func : loss_callable)
  (m : machine) :
  same_network (self m)
    (self (fst (evaluate_loss o x_tensors y_tensors true_dict loss_func m))).
Proof.
  unfold evaluate_loss, mbind, modify, gets, lift, mret; simpl.
  destruct (forward (self m) x_tensors y_tensors (Some roles)) as [pd|e1]; simpl;
    [|apply same_network_refl].
  destruct (loss_func pd true_dict) as [l0|e2]; simpl; [|apply same_network_refl].
  match goal with
  | |- context [customized_backward l0 ?ps ?m1] =>
      destruct (customized_backward_frame l0 ps m1) as [Hs _];
        destruct (customized_backward l0 ps m1) as [m3 [g|e3]]
  end; simpl in *; rewrite Hs; destruct (_ =? 0)%nat; repeat split.
Qed.

Lemma lbfgs_iterate_network {St} (closure : M scalar) :
  (forall m, same_network (self m) (self (fst (closure m)))) ->
  forall budget (o : Optimizer St) l m,
    same_network (self m) (self (fst (fst (lbfgs_iterate budget closure o l m)))).
Proof.
  intros Hcl; induction budget as [|budget IH]; intros o l m; simpl.
  - apply same_network_refl.
  - destruct (next o (opt_state o) (data m) (grad_slot m) l) as [params|st params];
      simpl; [apply same_network_refl|].
    pose proof (Hcl (set_data m params)) as Hc.
    destruct (closure (set_data m params)) as [m2 [loss|e]]; simpl in Hc.
    + eapply same_network_trans; [exact Hc | apply IH].
    + exact Hc.
Qed.

Lemma train_loop_network {St} (x_tensors y_tensors true_dict : dict tensor)
  (loss_func : loss_callable) :
  forall n (o : Optimizer St) m,
    same_network (self m)
      (self (fst (fst (train_loop n x_tensors y_tensors true_dict loss_func o m)))).
Proof.
  induction n as [|n IH]; intros o m; simpl; [apply same_network_refl|].
  pose proof (evaluate_loss_network o x_tensors y_tensors true_dict loss_func m) as Hc.
  destruct (evaluate_loss o x_tensors y_tensors true_dict loss_func m) as [m1 [l|e]];
    simpl in Hc; [|exact Hc].
  destruct (step_frame o m1) as (Hs & _).
  destruct (step o m1) as [m2 o2]; simpl in Hs.
  eapply same_network_trans; [exact Hc|]. rewrite <- Hs. apply IH.
Qed.

(** The closing statements of both training methods. *)
Lemma rest_resting (x_tensors y_tensors true_dict : dict tensor)
  (loss_func : loss_callable) (m m' : machine) (r : result unit) :
  rest x_tensors y_tensors true_dict loss_func m = (m', r) ->
  same_network (self m) (self m') /\ data m' = data m /\
  (r = Ok tt ->
   exists pd l,
     forward (self m') x_tensors y_tensors (Some roles) = Ok pd /\
     loss_func pd true_dict = Ok l /\
     pred_dict (self m') = Some pd /\ loss (self m') = Some l).
Proof.
  unfold rest, mbind, modify, gets, lift; simpl.
  destruct (forward (self m) x_tensors y_tensors (Some roles)) as [pd|e] eqn:Ef; simpl.
  2:{ intro H; inversion H. split; [apply same_network_refl|].
      split; [reflexivity | discriminate]. }
  destruct (loss_func pd true_dict) as [l|e] eqn:El; simpl;
    intro H; inversion H; subst m' r; simpl.
  - split; [repeat split|]. split; [reflexivity|]. intros _.
    exists pd, l. split; [|auto].
    rewrite <- Ef. apply forward_same_network. repeat split.
  - split; [repeat split|]. split; [reflexivity | discriminate].
Qed.

(** X9: Training changes the data of the parameters, never the parameters
    themselves: after [train_LBFGS] or [train], returned or raised, the
    model holds the layer sizes and the weight and bias tensors it held
    before.  When the method returns, the model's [pred_dict] and [loss] are
    the bundle and the loss of the model as it then stands, computed once
    more over the roles [diri], [nuem], [f]. *)
Theorem training_keeps_network {St} (train_dict : dict point_set)
  (epoch : nat) (u_data f_data bc_data : point_set)
  (loss_func : loss_callable) (o : Optimizer St) (m : machine) :
  (let '(m', o', r) := train_LBFGS train_dict loss_func o m in
   same_network (self m) (self m') /\
   (r = Ok tt ->
    exists xs ys ts pd l,
      unzip_train_dict train_dict None = Ok (xs, ys, ts) /\
      forward (self m') xs ys (Some roles) = Ok pd /\
      loss_func pd ts = Ok l /\
      pred_dict (self m') = Some pd /\ loss (self m') = Some l)) /\
  (let '(m', o', r) :=
     train (Some train_dict) epoch u_data f_data bc_data loss_func o m in
   same_network (self m) (self m') /\
   (r = Ok tt ->
    exists xs ys ts pd l,
      unzip_train_dict train_dict None = Ok (xs, ys, ts) /\
      forward (self m') xs ys (Some roles) = Ok pd /\
      loss_func pd ts = Ok l /\
      pred_dict (self m') = Some pd /\ loss (self m') = Some l)).
Proof.
  split.
  - unfold train_LBFGS.
    destruct (unzip_train_dict train_dict None) as [[[xs ys] ts]|e];
      [|split; [apply same_network_refl | discriminate]].
    assert (Hnet : same_network (self m)
              (self (fst (fst (step_closure o (evaluate_loss o xs ys ts loss_func) m))))).
    { unfold step_closure.
      pose proof (evaluate_loss_network o xs ys ts loss_func m) as Hc.
      destruct (evaluate_loss o xs ys ts loss_func m) as [m1 [l|e]]; simpl in Hc;
        [|exact Hc].
      eapply same_network_trans; [exact Hc|].
      apply lbfgs_iterate_network. intro m0. apply evaluate_loss_network. }
    destruct (step_closure o (evaluate_loss o xs ys ts loss_func) m)
      as [[m1 o1] [[]|e]]; simpl in Hnet; [|split; [exact Hnet | discriminate]].
    destruct (rest xs ys ts loss_func m1) as [m2 r] eqn:Er.
    apply rest_resting in Er as (Hn & _ & Hok).
    split; [eapply same_network_trans; eassumption|].
    intro Hr. destruct (Hok Hr) as (pd & l & H1 & H2 & H3 & H4).
    exists xs, ys, ts, pd, l. auto.
  - unfold train.
    destruct (unzip_train_dict train_dict None) as [[[xs ys] ts]|e];
      [|split; [apply same_network_refl | discriminate]].
    pose proof (train_loop_network xs ys ts loss_func epoch o m) as Hnet.
    destruct (train_loop epoch xs ys ts loss_func o m) as [[m1 o1] [[]|e]];
      simpl in Hnet; [|split; [exact Hnet | discriminate]].
    destruct (rest xs ys ts loss_func m1) as [m2 r] eqn:Er.
    apply rest_resting in Er as (Hn & _ & Hok).
    split; [eapply same_network_trans; eassumption|].
    intro Hr. destruct (Hok Hr) as (pd & l & H1 & H2 & H3 & H4).
    exists xs, ys, ts, pd, l. auto.
Qed.

Lemma training_keeps_network_witness :
  exists m' o' pd l,
    train_LBFGS tiny_train_dict plain_loss (countdown 1) tiny_machine = (m', o', Ok tt) /\
    same_network (self tiny_machine) (self m') /\
    pred_dict (self m') = Some pd /\ loss (self m') = Some l.
Proof.
  pose proof (training_keeps_network tiny_train_dict 0
                (column 0, column 1, column 1) (column 0, column 1, column 1)
                (column 0, column 1, column 1) plain_loss (countdown 1) tiny_machine)
    as [H _].
  destruct (train_LBFGS tiny_train_dict plain_loss (countdown 1) tiny_machine)
    as [[m' o'] r] eqn:E.
  assert (Hr : r = Ok tt)
    by (change r with (snd (m', o', r)); rewrite <- E; reflexivity).
  destruct H as (Hn & Hok).
  destruct (Hok Hr) as (xs & ys & ts & pd & l & _ & _ & _ & Hp & Hl).
  exists m', o', pd, l. rewrite Hr. auto.
Defined.

(** ** First derivatives *)

Lemma occurs_tanh_affine (v : var) (W b : tensor) (h : nat -> expr) :
  (exists k, (k < rows W)%nat /\ occurs v (h k) = true) ->
  forall j, occurs v (Tanh (affine_expr W b h j)) = true.
Proof. intros H j. cbn [occurs]. apply occurs_affine_expr; exact H. Qed.

(** Every output node depends on each input slot of its row. *)
Lemma mlp_expr_occurs (v : var) (weights : list tensor) :
  forall biases n h,
    weights <> [] -> chained n weights biases ->
    Forall (fun W => (0 < rows W)%nat) weights ->
    (exists k, (k < n)%nat /\ occurs v (h k) = true) ->
    forall j, occurs v (mlp_expr weights biases h j) = true.
Proof.
  induction weights as [|W ws IH]; intros biases n h Hne Hch Hpos Hh j;
    [contradiction|].
  destruct biases as [|b bs]; [contradiction|].
  destruct Hch as (Hr & Hb1 & Hbc & Hch).
  destruct ws as [|W' ws].
  - simpl. apply occurs_affine_expr. rewrite Hr; exact Hh.
  - change (occurs v (mlp_expr (W' :: ws) bs
                        (fun j => Tanh (affine_expr W b h j)) j) = true).
    apply (IH bs (cols W)); [discriminate | exact Hch | inversion Hpos; assumption |].
    destruct bs as [|b' bs]; [contradiction|].
    destruct Hch as (Hr' & _).
    inversion Hpos as [|? ? _ Hpos']; inversion Hpos' as [|? ? HW' _]; subst.
    exists 0%nat; split; [lia|].
    apply occurs_tanh_affine. exact Hh.
Qed.

(** The network of a model object on two column leaves. *)
Lemma net_u_rows (self : PhysicsInformedNN) (tx ty N : nat) :
  weights self = weight_leaves (layers self) ->
  biases self = bias_leaves (layers self) ->
  (2 <= List.length (layers self))%nat ->
  nth 0 (layers self) 0%nat = 2%nat ->
  nth (List.length (layers self) - 1) (layers self) 0%nat = 1%nat ->
  exists u,
    neural_net (leaf_tensor (LInput tx) N 1) (leaf_tensor (LInput ty) N 1)
      (weights self) (biases self) = Ok u /\
    rows u = N /\ cols u = 1%nat /\ requires_grad u = true /\
    (forall i, (i < N)%nat ->
       entry u i 0%nat
       = mlp_expr (weights self) (biases self)
           (fun k => if (k =? 0)%nat then Var (LInput tx) i 0%nat
                     else Var (LInput ty) i 0%nat) 0%nat) /\
    (forall s i, (i < N)%nat ->
       eval s (entry u i 0%nat)
       = evaluate s (weights self) (biases self)
           (s (LInput tx) i 0%nat) (s (LInput ty) i 0%nat) 0%nat).
Proof.
  intros HW HB Hlen H0 Hlast.
  assert (Hch : chained 2 (weights self) (biases self))
    by (rewrite HW, HB, <- H0; apply chained_leaves).
  assert (Hwl : List.length (weights self) = (List.length (layers self) - 1)%nat)
    by (rewrite HW; apply weight_leaves_length).
  assert (Hne : weights self <> [])
    by (intro E; rewrite E in Hwl; simpl in Hwl; lia).
  destruct (neural_net_nodes (leaf_tensor (LInput tx) N 1) (leaf_tensor (LInput ty) N 1)
              (weights self) (biases self) N Hne Hch eq_refl eq_refl)
    as (u & W & b & Hu & HWl & Hbl & Hshape & Hrg & Hent).
  assert (HcW : cols W = 1%nat).
  { rewrite HW in HWl. apply last_weight_leaf in HWl; [|lia]. rewrite HWl; exact Hlast. }
  assert (Hbg : requires_grad b = true)
    by (rewrite HB in Hbl; apply (last_bias_leaf _ _ Hbl)).
  exists u. split; [exact Hu|].
  split; [unfold shape in Hshape; injection Hshape; auto|].
  split; [unfold shape in Hshape; injection Hshape; intros; congruence|].
  split; [exact (Hrg Hbg)|].
  assert (He : forall i, (i < N)%nat ->
            entry u i 0%nat
            = mlp_expr (weights self) (biases self)
                (fun k => if (k =? 0)%nat then Var (LInput tx) i 0%nat
                          else Var (LInput ty) i 0%nat) 0%nat)
    by (intros i Hi; apply Hent; lia).
  split; [exact He|].
  intros s i Hi. rewrite (He i Hi). unfold evaluate.
  apply eval_mlp_expr_with. intro k; destruct (k =? 0)%nat; reflexivity.
Qed.

(** [net_du] on a model object and two column leaves: both differentiation
    calls are accepted, and the columns returned hold the sum-then-gradient
    first gradients of the output column. *)
Lemma net_du_nodes (self : PhysicsInformedNN) (tx ty N : nat) :
  weights self = weight_leaves (layers self) ->
  biases self = bias_leaves (layers self) ->
  (2 <= List.length (layers self))%nat ->
  nth 0 (layers self) 0%nat = 2%nat ->
  nth (List.length (layers self) - 1) (layers self) 0%nat = 1%nat ->
  Forall (fun n => (0 < n)%nat) (layers self) ->
  (0 < N)%nat ->
  exists u u_x u_y,
    neural_net (leaf_tensor (LInput tx) N 1) (leaf_tensor (LInput ty) N 1)
      (weights self) (biases self) = Ok u /\
    net_du self (leaf_tensor (LInput tx) N 1) (leaf_tensor (LInput ty) N 1)
    = Ok (requires_grad_ u_x, requires_grad_ u_y) /\
    rows u_x = N /\ cols u_x = 1%nat /\ rows u_y = N /\ cols u_y = 1%nat /\
    (forall i, entry u_x i 0%nat
               = first_gradient (LInput tx) N (fun i => entry u i 0%nat) i) /\
    (forall i, entry u_y i 0%nat
               = first_gradient (LInput ty) N (fun i => entry u i 0%nat) i).
Proof.
  intros HW HB Hlen H0 Hlast Hpos HN.
  destruct (net_u_rows self tx ty N HW HB Hlen H0 Hlast)
    as (u & Hu & Hru & Hcu & Hrg & Hent & _).
  set (e := fun i => entry u i 0%nat).
  assert (Hch : chained 2 (weights self) (biases self))
    by (rewrite HW, HB, <- H0; apply chained_leaves).
  assert (Hne : weights self <> []).
  { intro E. pose proof (weight_leaves_length (layers self)) as Hl.
    rewrite <- HW, E in Hl; simpl in Hl; lia. }
  assert (Hpw : Forall (fun W => (0 < rows W)%nat) (weights self))
    by (rewrite HW; apply weight_leaves_positive; exact Hpos).
  assert (Hocc : forall t k, (k < 2)%nat ->
            (if (k =? 0)%nat then Var (LInput tx) 0%nat 0%nat
             else Var (LInput ty) 0%nat 0%nat) = Var (LInput t) 0%nat 0%nat ->
            used (LInput t) N 1 (esum (map e (seq 0 N))) = true).
  { intros t k Hk Hvar.
    apply (used_intro _ N 1 0 0); [lia | lia |].
    rewrite occurs_esum. apply existsb_exists. exists (e 0%nat); split.
    - apply in_map_iff; exists 0%nat; split; [reflexivity | apply in_seq; lia].
    - unfold e. rewrite Hent by lia.
      apply (mlp_expr_occurs _ _ _ 2); [exact Hne | exact Hch | exact Hpw |].
      exists k; split; [exact Hk|]. rewrite Hvar. simpl. apply var_eqb_refl. }
  destruct (grad_column u (LInput tx) N Hru Hcu Hrg (Hocc tx 0%nat ltac:(lia) eq_refl))
    as (u_x & Hux & Hrx & Hcx & Hex).
  destruct (grad_column u (LInput ty) N Hru Hcu Hrg (Hocc ty 1%nat ltac:(lia) eq_refl))
    as (u_y & Huy & Hry & Hcy & Hey).
  exists u, u_x, u_y. split; [exact Hu|]. split.
  - unfold net_du. rewrite Hu; cbn [rbind]. rewrite Hux; cbn [rbind].
    rewrite Huy; reflexivity.
  - auto 10.
Qed.

(** X10: For a model with two inputs and one output (any number of layers), and
    two distinct column leaves [x], [y] of [N >= 1] rows, [net_du] returns
    two columns of [N] rows that require gradients, and on every row they
    are the partial derivatives of the network output with respect to that
    row's [x] and [y]. *)
Theorem net_du_partials (self : PhysicsInformedNN) (tx ty N : nat) :
  weights self = weight_leaves (layers self) ->
  biases self = bias_leaves (layers self) ->
  (2 <= List.length (layers self))%nat ->
  nth 0 (layers self) 0%nat = 2%nat ->
  nth (List.length (layers self) - 1) (layers self) 0%nat = 1%nat ->
  Forall (fun n => (0 < n)%nat) (layers self) ->
  tx <> ty -> (0 < N)%nat ->
  exists u_x u_y,
    net_du self (leaf_tensor (LInput tx) N 1) (leaf_tensor (LInput ty) N 1)
    = Ok (u_x, u_y) /\
    shape u_x = (N, 1%nat) /\ shape u_y = (N, 1%nat) /\
    requires_grad u_x = true /\ requires_grad u_y = true /\
    forall s i, (i < N)%nat ->
      derivable_pt_lim
        (fun a => evaluate s (weights self) (biases self) a (s (LInput ty) i 0%nat) 0%nat)
        (s (LInput tx) i 0%nat) (eval s (entry u_x i 0%nat)) /\
      derivable_pt_lim
        (fun c => evaluate s (weights self) (biases self) (s (LInput tx) i 0%nat) c 0%nat)
        (s (LInput ty) i 0%nat) (eval s (entry u_y i 0%nat)).
Proof.
  intros HW HB Hlen H0 Hlast Hpos Hxy HN.
  destruct (net_u_rows self tx ty N HW HB Hlen H0 Hlast)
    as (u & Hu & _ & _ & _ & _ & Hval).
  destruct (net_du_nodes self tx ty N HW HB Hlen H0 Hlast Hpos HN)
    as (u' & u_x & u_y & Hu' & Hdu & Hrx & Hcx & Hry & Hcy & Hex & Hey).
  assert (u' = u) by congruence; subst u'.
  set (e := fun i => entry u i 0%nat) in *.
  exists (requires_grad_ u_x), (requires_grad_ u_y). split; [exact Hdu|].
  split; [unfold shape; simpl; congruence|].
  split; [unfold shape; simpl; congruence|].
  split; [reflexivity|]. split; [reflexivity|].
  intros s i Hi. cbn [entry requires_grad_]. rewrite Hex, Hey. split.
  - rewrite <- (eval_upd_at s (LInput tx, i, 0%nat)). simpl.
    apply (first_gradient_derivative (LInput tx) N e
             (fun i s a => evaluate s (weights self) (biases self) a
                             (s (LInput ty) i 0%nat) 0%nat)).
    + exact Hval.
    + intros s' i' i'' a' b'. rewrite HW, HB, evaluate_input_frame.
      rewrite input_slot_apart by (intro E; apply Hxy; symmetry; exact E).
      reflexivity.
    + exact Hi.
  - rewrite <- (eval_upd_at s (LInput ty, i, 0%nat)). simpl.
    apply (first_gradient_derivative (LInput ty) N e
             (fun i s c => evaluate s (weights self) (biases self)
                             (s (LInput tx) i 0%nat) c 0%nat)).
    + exact Hval.
    + intros s' i' i'' a' b'. rewrite HW, HB, evaluate_input_frame.
      rewrite input_slot_apart by exact Hxy.
      reflexivity.
    + exact Hi.
Qed.

Lemma net_du_partials_witness :
  exists u_x u_y,
    net_du single_layer (leaf_tensor (LInput 0) 2 1) (leaf_tensor (LInput 1) 2 1)
    = Ok (u_x, u_y) /\
    shape u_x = (2%nat, 1%nat) /\ shape u_y = (2%nat, 1%nat).
Proof.
  destruct (net_du_partials single_layer 0 1 2) as (u_x & u_y & H & Hx & Hy & _).
  - reflexivity.
  - reflexivity.
  - simpl; lia.
  - reflexivity.
  - reflexivity.
  - repeat constructor.
  - discriminate.
  - lia.
  - exists u_x, u_y. auto.
Defined.

(** ** A network without a hidden layer has no residual *)

Lemma input_free_occurs (t i j : nat) (e : expr) :
  input_free e = true -> occurs (LInput t, i, j) e = false.
Proof.
  induction e as [c|l i0 j0|a IHa b IHb|a IHa b IHb|a IHa]; simpl; auto.
  - destruct l; try discriminate; reflexivity.
  - rewrite andb_true_iff; intros [Ha Hb]; rewrite IHa, IHb; auto.
  - rewrite andb_true_iff; intros [Ha Hb]; rewrite IHa, IHb; auto.
Qed.

Lemma input_free_affine (e : expr) :
  input_free e = true -> affine_in_inputs e = true.
Proof.
  induction e as [c|l i0 j0|a IHa b IHb|a IHa b IHb|a IHa]; simpl; auto.
  - rewrite !andb_true_iff; intros [Ha Hb]; auto.
  - rewrite !andb_true_iff; intros [Ha Hb]; auto.
Qed.

Lemma input_free_backprop (t i j : nat) (e adj : expr) :
  input_free e = true -> backprop e adj (LInput t, i, j) = None.
Proof.
  intro H. destruct (backprop e adj (LInput t, i, j)) as [g|] eqn:E; [|reflexivity].
  assert (Ho : occurs (LInput t, i, j) e = true)
    by (apply (backprop_reached _ e adj); eauto).
  rewrite (input_free_occurs t i j e H) in Ho; discriminate.
Qed.

(** The gradient of an affine function of the coordinates, with respect to
    a coordinate, is free of coordinates. *)
Lemma affine_backprop (t i j : nat) (e : expr) :
  affine_in_inputs e = true ->
  forall adj g,
    input_free adj = true -> backprop e adj (LInput t, i, j) = Some g ->
    input_free g = true.
Proof.
  induction e as [c|l i0 j0|a IHa b IHb|a IHa b IHb|a IHa]; simpl; intros He adj g Hadj.
  - discriminate.
  - destruct (var_eqb (l, i0, j0) (LInput t, i, j)); [|discriminate].
    intro H; inversion H; subst; exact Hadj.
  - apply andb_true_iff in He as [Ha Hb].
    destruct (backprop a adj (LInput t, i, j)) as [g1|] eqn:E1;
      destruct (backprop b adj (LInput t, i, j)) as [g2|] eqn:E2; simpl;
      intro H; inversion H; subst; simpl;
      rewrite ?(IHa Ha _ _ Hadj E1), ?(IHb Hb _ _ Hadj E2); reflexivity.
  - apply andb_true_iff in He as [Ha Hb].
    rewrite (input_free_backprop t i j b (Mul adj a) Hb).
    destruct (backprop a (Mul adj b) (LInput t, i, j)) as [g1|] eqn:E1; simpl;
      [|discriminate].
    intro H; inversion H; subst.
    apply (IHa Ha (Mul adj b)); [simpl; rewrite Hadj, Hb; reflexivity | exact E1].
  - rewrite (input_free_backprop t i j a _ He). discriminate.
Qed.

Lemma affine_esum (l : list expr) :
  (forall e, In e l -> affine_in_inputs e = true) -> affine_in_inputs (esum l) = true.
Proof.
  induction l as [|a l IH]; intro H; simpl; [reflexivity|].
  rewrite (H a (or_introl eq_refl)), IH; [reflexivity|].
  intros; apply H; right; assumption.
Qed.

Lemma input_free_esum (l : list expr) :
  (forall e, In e l -> input_free e = true) -> input_free (esum l) = true.
Proof.
  induction l as [|a l IH]; intro H; simpl; [reflexivity|].
  rewrite (H a (or_introl eq_refl)), IH; [reflexivity|].
  intros; apply H; right; assumption.
Qed.

Lemma unused_when_input_free (t r c : nat) (e : expr) :
  input_free e = true -> used (LInput t) r c e = false.
Proof.
  intro H. unfold used.
  destruct (existsb _ _) eqn:E; [|reflexivity].
  apply existsb_exists in E as (v & Hv & Ho).
  apply in_map_iff in Hv as ([i j] & <- & _). simpl in Ho.
  rewrite (input_free_occurs t i j e H) in Ho; discriminate.
Qed.

(** X11: On a model without a hidden layer (layer sizes [2, 1]) the PDE residual
    cannot be computed: for all column leaves of [N >= 1] rows the
    first derivatives are returned, but they do not depend on the
    coordinates, and [net_f] ends in the differentiation error of the
    engine. *)
Theorem net_f_needs_hidden_layer (self : PhysicsInformedNN) (tx ty N : nat) :
  layers self = [2; 1]%nat ->
  weights self = weight_leaves (layers self) ->
  biases self = bias_leaves (layers self) ->
  (0 < N)%nat ->
  is_ok (net_du self (leaf_tensor (LInput tx) N 1) (leaf_tensor (LInput ty) N 1)) = true /\
  net_f self (leaf_tensor (LInput tx) N 1) (leaf_tensor (LInput ty) N 1)
  = Raise (RuntimeError
             "One of the differentiated Tensors appears to not have been used in the graph").
Proof.
  intros HL HW HB HN.
  assert (Hlen : (2 <= List.length (layers self))%nat) by (rewrite HL; simpl; lia).
  assert (H0 : nth 0 (layers self) 0%nat = 2%nat) by (rewrite HL; reflexivity).
  assert (Hlast : nth (List.length (layers self) - 1) (layers self) 0%nat = 1%nat)
    by (rewrite HL; reflexivity).
  assert (Hpos : Forall (fun n => (0 < n)%nat) (layers self))
    by (rewrite HL; repeat constructor).
  destruct (net_u_rows self tx ty N HW HB Hlen H0 Hlast)
    as (u & Hu & _ & _ & _ & Hent & _).
  destruct (net_du_nodes self tx ty N HW HB Hlen H0 Hlast Hpos HN)
    as (u' & u_x & u_y & Hu' & Hdu & Hrx & Hcx & Hry & Hcy & Hex & Hey).
  assert (u' = u) by congruence; subst u'.
  split; [rewrite Hdu; reflexivity|].
  unfold net_f. rewrite Hdu; cbn [rbind].
  assert (Hs : sval (tsum (requires_grad_ u_y))
               = esum (map (first_gradient (LInput ty) N (fun i => entry u i 0%nat))
                         (seq 0 N))).
  { unfold tsum, entries; simpl. rewrite Hry, Hcy, indices_column, map_map.
    f_equal. apply map_ext. intro i; apply Hey. }
  unfold grad, grad_entries. rewrite Hs. simpl.
  rewrite unused_when_input_free; [reflexivity|].
  apply input_free_esum. intros x Hx.
  apply in_map_iff in Hx as (i & <- & _).
  assert (Haff : forall k, (k < N)%nat -> affine_in_inputs (entry u k 0%nat) = true).
  { intros k Hk. rewrite (Hent k Hk), HW, HB, HL. reflexivity. }
  unfold first_gradient.
  destruct (backprop _ (Const 1) (LInput ty, i, 0%nat)) as [g|] eqn:E; [|reflexivity].
  simpl. eapply affine_backprop; [| | exact E]; [|reflexivity].
  apply affine_esum. intros y Hy.
  apply in_map_iff in Hy as (k & <- & Hk). apply in_seq in Hk.
  apply Haff; lia.
Qed.

Lemma net_f_needs_hidden_layer_witness :
  net_f single_layer (leaf_tensor (LInput 0) 3 1) (leaf_tensor (LInput 1) 3 1)
  = Raise (RuntimeError
             "One of the differentiated Tensors appears to not have been used in the graph").
Proof.
  apply (net_f_needs_hidden_layer single_layer 0 1 3); try reflexivity. lia.
Defined.

(** ** Prediction *)

Lemma index_last_nonempty {A} (a : A) (l : list A) :
  exists b, index_last (a :: l) = Ok b.
Proof.
  unfold index_last. destruct (rev (a :: l)) as [|b r] eqn:E; [|eauto].
  apply (f_equal (@List.length A)) in E. rewrite length_rev in E. discriminate.
Qed.

(** X12: [predict] evaluates the network on the first two columns of its input,
    one row per point, for a model with two inputs and one output.  The
    result is squeezed: a one-dimensional array with one number per row,
    but a bare number (a zero-dimensional array) when the input has exactly
    one row. *)
Theorem predict_rows (self : PhysicsInformedNN) (X_input : table) (s : store) :
  weights self = weight_leaves (layers self) ->
  biases self = bias_leaves (layers self) ->
  (2 <= List.length (layers self))%nat ->
  nth 0 (layers self) 0%nat = 2%nat ->
  nth (List.length (layers self) - 1) (layers self) 0%nat = 1%nat ->
  (2 <= tcols X_input)%nat ->
  (trows X_input = 1%nat ->
   predict self X_input s
   = Ok (Array0 (evaluate s (weights self) (biases self)
                   (tdata X_input 0%nat 0%nat) (tdata X_input 0%nat 1%nat) 0%nat))) /\
  (trows X_input <> 1%nat ->
   exists v,
     predict self X_input s = Ok (Array1 v) /\
     len v = trows X_input /\
     forall i, (i < trows X_input)%nat ->
       item v i = evaluate s (weights self) (biases self)
                    (tdata X_input i 0%nat) (tdata X_input i 1%nat) 0%nat).
Proof.
  intros HW HB Hlen H0 Hlast Hc.
  assert (Hch : chained 2 (weights self) (biases self))
    by (rewrite HW, HB, <- H0; apply chained_leaves).
  assert (Hwl : List.length (weights self) = (List.length (layers self) - 1)%nat)
    by (rewrite HW; apply weight_leaves_length).
  assert (Hne : weights self <> [])
    by (intro E; rewrite E in Hwl; simpl in Hwl; lia).
  assert (Hsx : shape (const_tensor (slice_cols X_input 0 1)) = (trows X_input, 1%nat))
    by (unfold shape; cbn [rows cols const_tensor slice_cols trows tcols]; f_equal; lia).
  assert (Hsy : shape (const_tensor (slice_cols X_input 1 2)) = (trows X_input, 1%nat))
    by (unfold shape; cbn [rows cols const_tensor slice_cols trows tcols]; f_equal; lia).
  destruct (neural_net_nodes _ _ (weights self) (biases self) (trows X_input)
              Hne Hch Hsx Hsy)
    as (u & W & b & Hu & HWl & Hbl & Hshape & _ & Hent).
  assert (HcW : cols W = 1%nat).
  { rewrite HW in HWl. apply last_weight_leaf in HWl; [|lia]. rewrite HWl; exact Hlast. }
  unfold shape in Hshape. injection Hshape as Hru Hcu. rewrite HcW in Hcu.
  assert (Hval : forall i, (i < trows X_input)%nat ->
            eval s (entry u i 0%nat)
            = evaluate s (weights self) (biases self)
                (tdata X_input i 0%nat) (tdata X_input i 1%nat) 0%nat).
  { intros i Hi. rewrite Hent by lia. unfold evaluate.
    apply eval_mlp_expr_with. intro k; destruct (k =? 0)%nat; reflexivity. }
  unfold predict. rewrite Hu; cbn [rbind]. unfold squeeze, detach; cbn [trows tcols tdata].
  rewrite Hru, Hcu. split.
  - intro H1. rewrite H1; cbn [Nat.eqb]. rewrite Hval by lia. reflexivity.
  - intro H1. apply Nat.eqb_neq in H1. rewrite H1; cbn [Nat.eqb].
    eexists; split; [reflexivity|]. split; [reflexivity|].
    intros i Hi; cbn [item]. apply Hval; exact Hi.
Qed.

Lemma predict_rows_witness :
  exists v,
    predict tiny three_points zero_store = Ok (Array1 v) /\
    len v = 3%nat /\
    forall i, (i < 3)%nat ->
      item v i = evaluate zero_store (weights tiny) (biases tiny)
                   (tdata three_points i 0%nat) (tdata three_points i 1%nat) 0%nat.
Proof.
  apply (predict_rows tiny three_points zero_store); try reflexivity;
    simpl; try lia; discriminate.
Defined.

(** X13: An input with fewer than two columns is sliced without complaint (the
    second slice is empty), and the call then fails in the first matrix
    product of the network. *)
Theorem predict_needs_two_columns (self : PhysicsInformedNN) (X_input : table)
  (s : store) :
  weights self <> [] ->
  chained 2 (weights self) (biases self) ->
  (tcols X_input < 2)%nat ->
  predict self X_input s
  = Raise (RuntimeError "mat1 and mat2 shapes cannot be multiplied").
Proof.
  intros Hne Hch Hc. unfold predict, neural_net, cat1.
  cbn [rows cols const_tensor slice_cols trows tcols].
  rewrite Nat.eqb_refl. cbn [rbind].
  destruct (weights self) as [|W ws]; [contradiction|].
  destruct (biases self) as [|b bs]; [contradiction|].
  destruct Hch as (HrW & _).
  assert (Hmm : forall H : tensor, cols H <> 2%nat ->
            matmul H W = Raise (RuntimeError "mat1 and mat2 shapes cannot be multiplied")).
  { intros H HH. unfold matmul. rewrite HrW.
    apply Nat.eqb_neq in HH; rewrite HH; reflexivity. }
  destruct ws as [|W' ws].
  - cbn [List.length Nat.add Nat.sub seq for_each rbind].
    destruct (index_last_nonempty b bs) as (b' & Hb). rewrite Hb.
    unfold index_last; cbn [rev app rbind].
    rewrite Hmm by (cbn [cols]; lia). reflexivity.
  - replace (List.length (W :: W' :: ws) + 1 - 2)%nat with (S (List.length ws))
      by (simpl; lia).
    cbn [seq for_each]. unfold hidden_body at 1, index; cbn [nth_error rbind].
    unfold hidden_layer. rewrite Hmm by (cbn [cols]; lia). reflexivity.
Qed.

Lemma predict_needs_two_columns_witness :
  predict tiny one_column zero_store
  = Raise (RuntimeError "mat1 and mat2 shapes cannot be multiplied").
Proof.
  apply (predict_needs_two_columns tiny one_column zero_store).
  - discriminate.
  - simpl; repeat split.
  - simpl; lia.
Defined.

(** ** The roles a training run reads *)

Lemma unzip_all (train_dict : dict point_set) :
  exists xs ys ts,
    unzip_train_dict train_dict None = Ok (xs, ys, ts) /\
    forall k,
      dget xs k = option_map (fun p => fst (fst p)) (dget train_dict k) /\
      dget ys k = option_map (fun p => snd (fst p)) (dget train_dict k) /\
      dget ts k = option_map snd (dget train_dict k).
Proof.
  destruct (unzip_rounds train_dict (dkeys train_dict) [] [] [])
    as (xs & ys & ts & Hrun & Hget).
  { intros k Hk. apply dget_in_keys in Hk as [v Hv]. congruence. }
  exists xs, ys, ts; split; [exact Hrun|].
  intro k. destruct (Hget k) as (Hx & Hy & Ht). rewrite Hx, Hy, Ht.
  destruct (in_dec string_dec k (dkeys train_dict)) as [Hin|Hnin]; [auto|].
  destruct (dget train_dict k) eqn:E; [|auto].
  exfalso; apply Hnin; apply dget_in_keys; eauto.
Qed.

Lemma roles_are_roles (k : string) : In k roles -> is_role k = true.
Proof. intros [<-|[<-|[<-|[]]]]; reflexivity. Qed.

Lemma forward_missing_role (s : PhysicsInformedNN) (xs ys : dict tensor) (k : string) :
  In k roles -> dget xs k = None ->
  exists e, forward s xs ys (Some roles) = Raise e.
Proof.
  intros Hk Hx.
  pose proof (forward_loop_ok s xs ys roles (blank roles [])) as Hok.
  assert (Hf : forallb (fun i => negb (is_role i) || is_ok (served s xs ys i)) roles
               = false).
  { destruct (forallb _ roles) eqn:E; [|reflexivity].
    rewrite forallb_forall in E. specialize (E k Hk).
    rewrite (roles_are_roles k Hk) in E. unfold served, getitem in E.
    rewrite Hx in E. discriminate. }
  rewrite Hf in Hok. unfold forward.
  destruct (for_each roles _ _) as [r|e]; [discriminate|].
  exists e; reflexivity.
Qed.

Lemma evaluate_loss_missing_role {St} (o : Optimizer St)
  (xs ys ts : dict tensor) (loss_func : loss_callable) (m : machine) (k : string) :
  In k roles -> dget xs k = None ->
  exists e,
    evaluate_loss o xs ys ts loss_func m
    = (set_grad_slot m (zero_grad o (grad_slot m)), Raise e).
Proof.
  intros Hk Hx.
  unfold evaluate_loss, mbind, modify, gets, lift, mret; simpl.
  destruct (forward_missing_role (self m) xs ys k Hk Hx) as (e & He).
  rewrite He. exists e; reflexivity.
Qed.

Lemma rest_missing_role (xs ys ts : dict tensor) (loss_func : loss_callable)
  (m : machine) (k : string) :
  In k roles -> dget xs k = None ->
  exists e, rest xs ys ts loss_func m = (m, Raise e).
Proof.
  intros Hk Hx.
  unfold rest, mbind, modify, gets, lift; simpl.
  destruct (forward_missing_role (self m) xs ys k Hk Hx) as (e & He).
  rewrite He. exists e; reflexivity.
Qed.

(** X14: Both training methods need the three roles [diri], [nuem] and [f] in
    the training dictionary.  When one of them is missing the call ends in
    an exception, and nothing has been trained: the model object, the
    parameter values and the optimizer are as they were. *)
Theorem training_needs_three_roles {St} (train_dict : dict point_set) (k : string)
  (epoch : nat) (u_data f_data bc_data : point_set)
  (loss_func : loss_callable) (o : Optimizer St) (m : machine) :
  In k roles -> dget train_dict k = None ->
  (let '(m', o', r) := train_LBFGS train_dict loss_func o m in
   (exists e, r = Raise e) /\ self m' = self m /\ data m' = data m /\ o' = o) /\
  (let '(m', o', r) :=
     train (Some train_dict) epoch u_data f_data bc_data loss_func o m in
   (exists e, r = Raise e) /\ self m' = self m /\ data m' = data m /\ o' = o).
Proof.
  intros Hk Hmiss.
  destruct (unzip_all train_dict) as (xs & ys & ts & Hun & Hget).
  assert (Hx : dget xs k = None)
    by (destruct (Hget k) as (-> & _); rewrite Hmiss; reflexivity).
  split.
  - unfold train_LBFGS. rewrite Hun. unfold step_closure.
    destruct (evaluate_loss_missing_role o xs ys ts loss_func m k Hk Hx) as (e & He).
    rewrite He. repeat split; eauto.
  - unfold train. rewrite Hun.
    destruct epoch as [|epoch]; cbn [train_loop].
    + destruct (rest_missing_role xs ys ts loss_func m k Hk Hx) as (e & He).
      rewrite He. repeat split; eauto.
    + destruct (evaluate_loss_missing_role o xs ys ts loss_func m k Hk Hx) as (e & He).
      rewrite He. repeat split; eauto.
Qed.

Lemma training_needs_three_roles_witness :
  let '(m', o', r) := train_LBFGS tiny_without_f plain_loss (countdown 1) tiny_machine in
  (exists e, r = Raise e) /\ self m' = self tiny_machine /\
  data m' = data tiny_machine /\ o' = countdown 1.
Proof.
  apply (training_needs_three_roles tiny_without_f "f" 0
           (column 0, column 1, column 2) (column 0, column 1, column 2)
           (column 0, column 1, column 2) plain_loss (countdown 1) tiny_machine).
  - simpl; auto.
  - reflexivity.
Defined.

Lemma forward_keys (self : PhysicsInformedNN) (x_tensors y_tensors : dict tensor)
  (keys : list string) (preds : dict (option tensor)) :
  forward self x_tensors y_tensors (Some keys) = Ok preds ->
  forall i, In i (dkeys preds) <-> In i keys.
Proof.
  intro H. unfold forward in H.
  destruct (for_each keys (forward_body self x_tensors y_tensors) (Some (blank keys [])))
    as [r|] eqn:E; simpl in H; [|discriminate].
  apply forward_loop_bound in E as (p' & -> & Hfix & Hout & Hin).
  inversion H; subst preds.
  intro i. destruct (in_dec string_dec i keys) as [Hi|Hi].
  - split; [auto|]. intros _. apply dget_in_keys.
    destruct (is_role i) eqn:Er.
    + destruct (Hin i Hi Er) as (t & _ & Ht); eauto.
    + rewrite (Hfix i Er). apply dget_in_keys, dkeys_blank; exact Hi.
  - split; [|contradiction]. intro Hk.
    apply (proj1 (dget_in_keys _ _)) in Hk. rewrite (Hout i Hi) in Hk.
    apply (proj2 (dget_in_keys _ _)) in Hk.
    apply (proj1 (dkeys_blank _ _)) in Hk. exact Hk.
Qed.

Lemma forward_reads_keys (s : PhysicsInformedNN) (xs ys xs' ys' : dict tensor)
  (keys : list string) :
  (forall k, In k keys -> dget xs k = dget xs' k /\ dget ys k = dget ys' k) ->
  forward s xs ys (Some keys) = forward s xs' ys' (Some keys).
Proof.
  intro H. unfold forward.
  rewrite (for_each_ext keys (forward_body s xs ys) (forward_body s xs' ys'));
    [reflexivity|].
  intros a p Ha. destruct (H a Ha) as [Hx Hy].
  unfold forward_body, getitem. rewrite Hx, Hy. reflexivity.
Qed.

Lemma loss_func_reads_keys (pd : dict (option tensor)) (ts ts' : dict tensor)
  (w : option (dict R)) :
  (forall k, In k (dkeys pd) -> dget ts k = dget ts' k) ->
  loss_func pd ts w = loss_func pd ts' w.
Proof.
  intro H. unfold loss_func.
  match goal with
  | |- rbind (for_each _ (loss_body _ _ ?W) _) _ = _ =>
      rewrite (for_each_ext (dkeys pd) (loss_body pd ts W) (loss_body pd ts' W))
  end; [reflexivity|].
  intros a l Ha. unfold loss_body, getitem. rewrite (H a Ha). reflexivity.
Qed.

Section ReadsRoles.

Variable St : Type.
Variables xs ys ts xs' ys' ts' : dict tensor.
Variable w : option (dict R).

Hypothesis agree :
  forall k, In k roles ->
    dget xs k = dget xs' k /\ dget ys k = dget ys' k /\ dget ts k = dget ts' k.

Lemma forward_agree (s : PhysicsInformedNN) :
  forward s xs ys (Some roles) = forward s xs' ys' (Some roles).
Proof.
  apply forward_reads_keys. intros k Hk. destruct (agree k Hk) as (? & ? & ?); auto.
Qed.

Lemma loss_agree (s : PhysicsInformedNN) (pd : dict (option tensor)) :
  forward s xs ys (Some roles) = Ok pd ->
  loss_func pd ts w = loss_func pd ts' w.
Proof.
  intro H. apply loss_func_reads_keys. intros k Hk.
  apply (forward_keys _ _ _ _ _ H) in Hk. destruct (agree k Hk) as (_ & _ & ?); auto.
Qed.

Lemma evaluate_loss_agree (o : Optimizer St) (m : machine) :
  evaluate_loss o xs ys ts (fun p t => loss_func p t w) m
  = evaluate_loss o xs' ys' ts' (fun p t => loss_func p t w) m.
Proof.
  unfold evaluate_loss, mbind, modify, gets, lift, mret; simpl.
  rewrite <- forward_agree.
  destruct (forward (self m) xs ys (Some roles)) as [pd|e] eqn:E; [|reflexivity].
  rewrite <- (loss_agree _ _ E). reflexivity.
Qed.

Lemma rest_agree (m : machine) :
  rest xs ys ts (fun p t => loss_func p t w) m
  = rest xs' ys' ts' (fun p t => loss_func p t w) m.
Proof.
  unfold rest, mbind, modify, gets, lift; simpl.
  rewrite <- forward_agree.
  destruct (forward (self m) xs ys (Some roles)) as [pd|e] eqn:E; [|reflexivity].
  rewrite <- (loss_agree _ _ E). reflexivity.
Qed.

Lemma train_loop_agree (n : nat) :
  forall (o : Optimizer St) (m : machine),
    train_loop n xs ys ts (fun p t => loss_func p t w) o m
    = train_loop n xs' ys' ts' (fun p t => loss_func p t w) o m.
Proof.
  induction n as [|n IH]; intros o m; cbn [train_loop]; [reflexivity|].
  rewrite <- evaluate_loss_agree.
  destruct (evaluate_loss o xs ys ts _ m) as [m1 [l|e]]; [|reflexivity].
  destruct (step o m1) as [m2 o2]. apply IH.
Qed.

End ReadsRoles.

Lemma lbfgs_iterate_ext {St} (closure closure' : M scalar) :
  (forall m, closure m = closure' m) ->
  forall budget (o : Optimizer St) l m,
    lbfgs_iterate budget closure o l m = lbfgs_iterate budget closure' o l m.
Proof.
  intro H. induction budget as [|budget IH]; intros o l m; cbn [lbfgs_iterate];
    [reflexivity|].
  destruct (next o (opt_state o) (data m) (grad_slot m) l) as [params|st params];
    [reflexivity|].
  rewrite <- H.
  destruct (closure (set_data m params)) as [m2 [loss|e]]; [apply IH | reflexivity].
Qed.

(** X15: A training run reads the training dictionary at the roles [diri],
    [nuem] and [f] only: two dictionaries that agree there give the same
    run, whatever else they hold.  In particular the measurements under
    [u] take no part in training. *)
Theorem training_reads_three_roles {St} (train_dict train_dict' : dict point_set)
  (w : option (dict R)) (epoch : nat) (u_data f_data bc_data : point_set)
  (o : Optimizer St) (m : machine) :
  (forall k, In k roles -> dget train_dict k = dget train_dict' k) ->
  train_LBFGS train_dict (fun p t => loss_func p t w) o m
  = train_LBFGS train_dict' (fun p t => loss_func p t w) o m /\
  train (Some train_dict) epoch u_data f_data bc_data (fun p t => loss_func p t w) o m
  = train (Some train_dict') epoch u_data f_data bc_data
      (fun p t => loss_func p t w) o m.
Proof.
  intro H.
  destruct (unzip_all train_dict) as (xs & ys & ts & Hun & Hget).
  destruct (unzip_all train_dict') as (xs' & ys' & ts' & Hun' & Hget').
  assert (Hag : forall k, In k roles ->
            dget xs k = dget xs' k /\ dget ys k = dget ys' k /\ dget ts k = dget ts' k).
  { intros k Hk. destruct (Hget k) as (-> & -> & ->).
    destruct (Hget' k) as (-> & -> & ->). rewrite (H k Hk). auto. }
  split.
  - unfold train_LBFGS. rewrite Hun, Hun'. unfold step_closure.
    rewrite <- (evaluate_loss_agree St xs ys ts xs' ys' ts' w Hag o m).
    destruct (evaluate_loss o xs ys ts _ m) as [m1 [l|e]]; [|reflexivity].
    rewrite (lbfgs_iterate_ext _ _
               (evaluate_loss_agree St xs ys ts xs' ys' ts' w Hag o)).
    destruct (lbfgs_iterate _ _ _ _ m1) as [[m2 o2] [u|e]]; [|reflexivity].
    rewrite (rest_agree xs ys ts xs' ys' ts' w Hag). reflexivity.
  - unfold train. rewrite Hun, Hun'.
    rewrite (train_loop_agree St xs ys ts xs' ys' ts' w Hag).
    destruct (train_loop _ _ _ _ _ o m) as [[m1 o1] [u|e]]; [|reflexivity].
    rewrite (rest_agree xs ys ts xs' ys' ts' w Hag). reflexivity.
Qed.

Lemma training_reads_three_roles_witness :
  train_LBFGS tiny_train_dict (fun p t => loss_func p t None) (countdown 1) tiny_machine
  = train_LBFGS tiny_without_u (fun p t => loss_func p t None) (countdown 1) tiny_machine.
Proof.
  apply (training_reads_three_roles tiny_train_dict tiny_without_u None 0
           (column 0, column 1, column 2) (column 0, column 1, column 2)
           (column 0, column 1, column 2) (countdown 1) tiny_machine).
  intros k [<-|[<-|[<-|[]]]]; reflexivity.
Defined.

(** ** Construction *)

(** X16: [PhysicsInformedNN(layers)] on at least two positive layer sizes
    returns a model whose parameters are the leaves [weight_leaves] and
    [bias_leaves] of these sizes, with an empty loss history and neither a
    loss nor predictions yet. *)
Theorem init_builds_network (rng : Type)
  (normal_ : rng -> nat -> nat -> R -> (nat -> nat -> R) * rng)
  (layers0 : list nat) (st : store * rng) :
  (2 <= List.length layers0)%nat ->
  Forall (fun n => (0 < n)%nat) layers0 ->
  exists model st',
    __init__ normal_ layers0 st = Ok (model, st') /\
    layers model = layers0 /\
    weights model = weight_leaves layers0 /\
    biases model = bias_leaves layers0 /\
    List.length (weights model) = (List.length layers0 - 1)%nat /\
    loss_list model = [] /\ loss model = None /\ pred_dict model = None.
Proof.
  intros Hlen Hpos.
  destruct (initialize_NN_leaves rng normal_ layers0 st Hpos) as (st' & Hinit).
  unfold __init__. rewrite Hinit; cbn [rbind].
  destruct (weight_leaves layers0 ++ bias_leaves layers0) as [|p ps] eqn:E.
  - apply (f_equal (@List.length tensor)) in E.
    rewrite length_app, weight_leaves_length in E. simpl in E. lia.
  - eexists _, st'; split; [reflexivity|]. cbn.
    repeat split. apply weight_leaves_length.
Qed.

Lemma init_builds_network_witness :
  exists model st',
    __init__ flat_normal [2; 1; 1]%nat (zero_store, tt) = Ok (model, st') /\
    layers model = [2; 1; 1]%nat /\
    weights model = weight_leaves [2; 1; 1]%nat /\
    biases model = bias_leaves [2; 1; 1]%nat /\
    List.length (weights model) = 2%nat /\
    loss_list model = [] /\ loss model = None /\ pred_dict model = None.
Proof.
  apply (init_builds_network unit flat_normal [2; 1; 1]%nat (zero_store, tt)).
  - simpl; lia.
  - repeat constructor.
Defined.

(** X17: A list of fewer than two layer sizes gives a network without
    parameters, which the constructor cannot hand to its optimizer: the
    construction ends in a [ValueError]. *)
Theorem init_needs_two_sizes (rng : Type)
  (normal_ : rng -> nat -> nat -> R -> (nat -> nat -> R) * rng)
  (layers0 : list nat) (st : store * rng) :
  (List.length layers0 <= 1)%nat ->
  __init__ normal_ layers0 st
  = Raise (ValueError "optimizer got an empty parameter list").
Proof.
  intro Hlen. unfold __init__, initialize_NN.
  replace (List.length layers0 - 1)%nat with 0%nat by lia.
  reflexivity.
Qed.

Lemma init_needs_two_sizes_witness :
  __init__ flat_normal [2]%nat (zero_store, tt)
  = Raise (ValueError "optimizer got an empty parameter list").
Proof.
  apply (init_needs_two_sizes unit flat_normal [2]%nat (zero_store, tt)).
  simpl; lia.
Defined.

(** ** Coordinates *)

Lemma coor_shift_entries (X : table) (lbs ubs : vector) :
  tcols X = len lbs -> len ubs = len lbs ->
  exists X',
    coor_shift X lbs ubs = Ok X' /\
    trows X' = trows X /\ tcols X' = tcols X /\
    forall i j, (j < tcols X)%nat ->
      tdata X' i j
      = 2 * (tdata X i j - item lbs j) / (item ubs j - item lbs j) - 1.
Proof.
  intros Hc Hu.
  unfold coor_shift, broadcast_mv, broadcast_vv; simpl.
  rewrite Hc, Hu, broadcast_dim_same; simpl.
  rewrite broadcast_dim_same; simpl.
  eexists; split; [reflexivity|]; simpl.
  repeat split; auto.
  intros i j Hj. rewrite !bidx_lt by (rewrite ?bidx_lt; lia). reflexivity.
Qed.

(** X18: On every axis whose lower bound is below its upper bound, [coor_shift]
    sends the points between the bounds into [-1, 1], keeps the order of
    the coordinates, and can be undone:
    [X = lb + (X' + 1) * (ub - lb) / 2]. *)
Theorem coor_shift_range (X : table) (lbs ubs : vector) :
  tcols X = len lbs -> len ubs = len lbs ->
  (forall j, (j < tcols X)%nat -> item lbs j < item ubs j) ->
  exists X',
    coor_shift X lbs ubs = Ok X' /\
    forall i j, (j < tcols X)%nat ->
      (item lbs j <= tdata X i j <= item ubs j -> -1 <= tdata X' i j <= 1) /\
      (forall i', tdata X i j < tdata X i' j -> tdata X' i j < tdata X' i' j) /\
      tdata X i j = item lbs j + (tdata X' i j + 1) * (item ubs j - item lbs j) / 2.
Proof.
  intros Hc Hu Hlt.
  destruct (coor_shift_entries X lbs ubs Hc Hu) as (X' & Hrun & _ & _ & Hent).
  exists X'; split; [exact Hrun|].
  intros i j Hj. specialize (Hlt j Hj).
  assert (Hd : 0 < item ubs j - item lbs j) by lra.
  assert (Hi : 0 < / (item ubs j - item lbs j)) by (apply Rinv_0_lt_compat; exact Hd).
  split; [|split].
  - intros [Hlo Hhi]. rewrite (Hent i j Hj).
    set (q := (tdata X i j - item lbs j) / (item ubs j - item lbs j)).
    replace (2 * (tdata X i j - item lbs j) / (item ubs j - item lbs j)) with (2 * q)
      by (unfold q; field; lra).
    assert (Hq0 : 0 <= q).
    { unfold q, Rdiv. apply Rmult_le_pos; lra. }
    assert (Hq1 : q <= 1).
    { unfold q, Rdiv.
      replace 1 with ((item ubs j - item lbs j) * / (item ubs j - item lbs j))
        by (field; lra).
      apply Rmult_le_compat_r; lra. }
    lra.
  - intros i' Hx. rewrite (Hent i j Hj), (Hent i' j Hj).
    unfold Rdiv. apply Rplus_lt_compat_r, Rmult_lt_compat_r; [exact Hi | lra].
  - rewrite (Hent i j Hj). field. lra.
Qed.

Lemma coor_shift_range_witness :
  exists X',
    coor_shift unit_square_corner unit_square_lbs unit_square_ubs = Ok X' /\
    forall i j, (j < 2)%nat ->
      (0 <= tdata unit_square_corner i j <= 1 -> -1 <= tdata X' i j <= 1) /\
      (forall i', tdata unit_square_corner i j < tdata unit_square_corner i' j ->
                  tdata X' i j < tdata X' i' j) /\
      tdata unit_square_corner i j = 0 + (tdata X' i j + 1) * (1 - 0) / 2.
Proof.
  apply (coor_shift_range unit_square_corner unit_square_lbs unit_square_ubs).
  - reflexivity.
  - reflexivity.
  - intros j _. simpl. lra.
Defined.

Lemma broadcast_dim_none (a b : nat) :
  a <> b -> a <> 1%nat -> b <> 1%nat -> broadcast_dim a b = None.
Proof.
  intros Hab Ha Hb. unfold broadcast_dim.
  apply Nat.eqb_neq in Hab, Ha, Hb. rewrite Hab, Ha, Hb. reflexivity.
Qed.

Lemma broadcast_dim_one_l (n : nat) : broadcast_dim 1 n = Some n.
Proof.
  unfold broadcast_dim. destruct (Nat.eqb_spec 1 n) as [<-|Hn]; reflexivity.
Qed.

(** X19: The shapes [coor_shift] takes are those of array broadcasting.  Bounds
    whose length is neither 1 nor the number of columns of a several-column
    array, or two bounds of different lengths other than 1, are refused
    with a [ValueError]; but an array of a single column is stretched
    without complaint to as many columns as there are bounds, each the
    normalisation of that one column. *)
Theorem coor_shift_broadcasts (X : table) (lbs ubs : vector) :
  ((tcols X <> len lbs /\ tcols X <> 1%nat /\ len lbs <> 1%nat) \/
   (len ubs <> len lbs /\ len ubs <> 1%nat /\ len lbs <> 1%nat) ->
   coor_shift X lbs ubs
   = Raise (ValueError "operands could not be broadcast together")) /\
  (tcols X = 1%nat -> len ubs = len lbs ->
   exists X',
     coor_shift X lbs ubs = Ok X' /\
     trows X' = trows X /\ tcols X' = len lbs /\
     forall i j, (j < len lbs)%nat ->
       tdata X' i j
       = 2 * (tdata X i 0%nat - item lbs j) / (item ubs j - item lbs j) - 1).
Proof.
  split.
  - intros [(H1 & H2 & H3)|(H1 & H2 & H3)]; unfold coor_shift, broadcast_mv at 1.
    + rewrite (broadcast_dim_none _ _ H1 H2 H3). reflexivity.
    + destruct (broadcast_dim (tcols X) (len lbs)); [|reflexivity].
      cbn [rbind]. unfold broadcast_vv.
      rewrite (broadcast_dim_none _ _ H1 H2 H3). reflexivity.
  - intros Hc Hu.
    unfold coor_shift, broadcast_mv, broadcast_vv; simpl.
    rewrite Hc, Hu, broadcast_dim_one_l, broadcast_dim_same; simpl.
    rewrite broadcast_dim_same; simpl.
    eexists; split; [reflexivity|]; simpl.
    repeat split; auto.
    intros i j Hj.
    repeat match goal with
           | |- context [bidx 1 ?x] => change (bidx 1 x) with 0%nat
           end.
    rewrite !bidx_lt by (rewrite ?bidx_lt; lia). reflexivity.
Qed.

Lemma coor_shift_broadcasts_witness :
  coor_shift unit_square_corner three_bounds three_bounds
  = Raise (ValueError "operands could not be broadcast together") /\
  exists X',
    coor_shift one_column unit_square_lbs unit_square_ubs = Ok X' /\
    trows X' = 3%nat /\ tcols X' = 2%nat /\
    forall i j, (j < 2)%nat ->
      tdata X' i j = 2 * (tdata one_column i 0%nat - 0) / (1 - 0) - 1.
Proof.
  split.
  - apply (proj1 (coor_shift_broadcasts unit_square_corner three_bounds three_bounds)).
    left; simpl; lia.
  - apply (proj2 (coor_shift_broadcasts one_column unit_square_lbs unit_square_ubs));
      reflexivity.
Defined.

(** ** Loading points *)

Lemma data_loader_store (nx ny : nat) (X u : table) (lbs ubs : vector) (s : store) :
  tcols X = 2%nat -> len lbs = 2%nat -> len ubs = 2%nat -> nx <> ny ->
  exists s',
    data_loader nx ny X u lbs ubs s
    = Ok ((leaf_tensor (LInput nx) (trows X) 1, leaf_tensor (LInput ny) (trows X) 1,
           const_tensor u), s') /\
    (forall i, s' (LInput nx) i 0%nat
               = 2 * (tdata X i 0%nat - item lbs 0%nat)
                 / (item ubs 0%nat - item lbs 0%nat) - 1) /\
    (forall i, s' (LInput ny) i 0%nat
               = 2 * (tdata X i 1%nat - item lbs 1%nat)
                 / (item ubs 1%nat - item lbs 1%nat) - 1) /\
    (forall t, t <> LInput nx -> t <> LInput ny -> s' t = s t).
Proof.
  intros Hc Hl Hu Hxy.
  destruct (coor_shift_entries X lbs ubs) as (X' & Hrun & Hr & Hc' & Hent);
    [congruence | congruence |].
  unfold data_loader. rewrite Hrun; cbn [rbind]. unfold new_leaf.
  cbn [slice_cols trows tcols tdata]. rewrite Hr, Hc', Hc.
  eexists; split; [reflexivity|]. split; [|split].
  - intro i. rewrite write_leaf_other by (intro E; inversion E; contradiction).
    rewrite write_leaf_same. cbn [Nat.add]. apply Hent; lia.
  - intro i. rewrite write_leaf_same. cbn [Nat.add]. apply Hent; lia.
  - intros t Hx Hy. rewrite !write_leaf_other by assumption. reflexivity.
Qed.

(** X20: [data_loader] on an array of two columns and bounds of length two
    returns two new gradient-tracked column tensors, one row per point,
    that hold the normalised first and second coordinates, and the targets
    as a constant tensor; the values of all other tensors, the parameters
    among them, are left as they were. *)
Theorem data_loader_columns (nx ny : nat) (X u : table) (lbs ubs : vector)
  (s : store) :
  tcols X = 2%nat -> len lbs = 2%nat -> len ubs = 2%nat -> nx <> ny ->
  exists x y t s',
    data_loader nx ny X u lbs ubs s = Ok ((x, y, t), s') /\
    shape x = (trows X, 1%nat) /\ shape y = (trows X, 1%nat) /\
    requires_grad x = true /\ requires_grad y = true /\
    leaf_of x = Some (LInput nx) /\ leaf_of y = Some (LInput ny) /\
    shape t = (trows u, tcols u) /\ requires_grad t = false /\
    (forall i j, eval s' (entry t i j) = tdata u i j) /\
    (forall i, eval s' (entry x i 0%nat)
               = 2 * (tdata X i 0%nat - item lbs 0%nat)
                 / (item ubs 0%nat - item lbs 0%nat) - 1) /\
    (forall i, eval s' (entry y i 0%nat)
               = 2 * (tdata X i 1%nat - item lbs 1%nat)
                 / (item ubs 1%nat - item lbs 1%nat) - 1) /\
    (forall l i j, s' (LWeight l) i j = s (LWeight l) i j /\
                   s' (LBias l) i j = s (LBias l) i j) /\
    (forall n, n <> nx -> n <> ny -> s' (LInput n) = s (LInput n)).
Proof.
  intros Hc Hl Hu Hxy.
  destruct (data_loader_store nx ny X u lbs ubs s Hc Hl Hu Hxy)
    as (s' & Hrun & Hx & Hy & Hframe).
  eexists _, _, _, s'; split; [exact Hrun|].
  repeat (split; [reflexivity|]).
  split; [exact Hx|]. split; [exact Hy|]. split.
  - intros l i j. rewrite !Hframe by discriminate. auto.
  - intros n H1 H2. apply Hframe; intro E; inversion E; contradiction.
Qed.

Lemma data_loader_columns_witness :
  exists x y t s',
    data_loader 0 1 three_points (one_by_one 0) unit_square_lbs unit_square_ubs
      zero_store = Ok ((x, y, t), s') /\
    shape x = (3%nat, 1%nat) /\ shape y = (3%nat, 1%nat) /\
    requires_grad x = true /\ requires_grad y = true /\
    leaf_of x = Some (LInput 0) /\ leaf_of y = Some (LInput 1) /\
    shape t = (1%nat, 1%nat) /\ requires_grad t = false /\
    (forall i j, eval s' (entry t i j) = 0) /\
    (forall i, eval s' (entry x i 0%nat) = 2 * (INR i - 0) / (1 - 0) - 1) /\
    (forall i, eval s' (entry y i 0%nat) = 2 * (1 - 0) / (1 - 0) - 1) /\
    (forall l i j, s' (LWeight l) i j = zero_store (LWeight l) i j /\
                   s' (LBias l) i j = zero_store (LBias l) i j) /\
    (forall n, n <> 0%nat -> n <> 1%nat -> s' (LInput n) = zero_store (LInput n)).
Proof.
  apply (data_loader_columns 0 1 three_points (one_by_one 0)
           unit_square_lbs unit_square_ubs zero_store); try reflexivity.
  discriminate.
Defined.

(** X21: Loading and evaluating compose: on the two tensors that [data_loader]
    returns, [net_u] of a model with two inputs and one output computes,
    row by row, the network with its current parameters at the normalised
    coordinates of the point. *)
Theorem loaded_points_evaluate (self : PhysicsInformedNN) (nx ny : nat)
  (X u : table) (lbs ubs : vector) (s : store) :
  weights self = weight_leaves (layers self) ->
  biases self = bias_leaves (layers self) ->
  (2 <= List.length (layers self))%nat ->
  nth 0 (layers self) 0%nat = 2%nat ->
  nth (List.length (layers self) - 1) (layers self) 0%nat = 1%nat ->
  tcols X = 2%nat -> len lbs = 2%nat -> len ubs = 2%nat -> nx <> ny ->
  exists x y t s' out,
    data_loader nx ny X u lbs ubs s = Ok ((x, y, t), s') /\
    net_u self x y = Ok out /\
    shape out = (trows X, 1%nat) /\
    forall i, (i < trows X)%nat ->
      eval s' (entry out i 0%nat)
      = evaluate s (weights self) (biases self)
          (2 * (tdata X i 0%nat - item lbs 0%nat)
           / (item ubs 0%nat - item lbs 0%nat) - 1)
          (2 * (tdata X i 1%nat - item lbs 1%nat)
           / (item ubs 1%nat - item lbs 1%nat) - 1) 0%nat.
Proof.
  intros HW HB Hlen H0 Hlast Hc Hl Hu Hxy.
  destruct (data_loader_store nx ny X u lbs ubs s Hc Hl Hu Hxy)
    as (s' & Hrun & Hx & Hy & Hframe).
  destruct (net_u_rows self nx ny (trows X) HW HB Hlen H0 Hlast)
    as (out & Hout & Hro & Hco & _ & _ & Hval).
  eexists _, _, _, s', out; split; [exact Hrun|].
  split; [exact Hout|]. split; [unfold shape; congruence|].
  intros i Hi. rewrite (Hval s' i Hi), Hx, Hy. unfold evaluate.
  apply mlp_store_ext.
  - intros W k j HIn. rewrite HW in HIn. unfold weight_leaves in HIn.
    apply in_map_iff in HIn as (l & <- & _). simpl.
    rewrite Hframe by discriminate. reflexivity.
  - intros b k j HIn. rewrite HB in HIn. unfold bias_leaves in HIn.
    apply in_map_iff in HIn as (l & <- & _). simpl.
    rewrite Hframe by discriminate. reflexivity.
  - reflexivity.
Qed.

Lemma loaded_points_evaluate_witness :
  exists x y t s' out,
    data_loader 0 1 three_points (one_by_one 0) unit_square_lbs unit_square_ubs
      zero_store = Ok ((x, y, t), s') /\
    net_u tiny x y = Ok out /\
    shape out = (3%nat, 1%nat) /\
    forall i, (i < 3)%nat ->
      eval s' (entry out i 0%nat)
      = evaluate zero_store (weights tiny) (biases tiny)
          (2 * (INR i - 0) / (1 - 0) - 1) (2 * (1 - 0) / (1 - 0) - 1) 0%nat.
Proof.
  apply (loaded_points_evaluate tiny 0 1 three_points (one_by_one 0)
           unit_square_lbs unit_square_ubs zero_store); try reflexivity.
  - simpl; lia.
  - discriminate.
Defined.
